(** * SttService: a shallow embedding of the speech-to-text session service

    The development follows the JavaScript class [SttService] (the
    listen-feature STT service) and the [gaia] provider it drives:

    - [JsString]   the string primitives the service relies on
                   ([trim], truthiness, [includes], the two annotation
                   regexes);
    - [NodeBuffer] Node's [Buffer] operations used by [pcmToWav] and
                   [convertStereoToMono];
    - [Wav]        [pcmToWav];
    - [Stt]        the service itself, run inside a small model of the
                   event loop: a clock, a queue of pending [setTimeout]
                   timers and a log of the effects the service performs.

    Strings are sequences of code units below 256; a [Buffer] is a list of
    byte values. *)

From Stdlib Require Import ZArith NArith List String Ascii Bool Lia.
From Stdlib Require Import DecimalString.
From Stdlib.Strings Require Import Byte.
From Equations Require Import Equations.
Import ListNotations.

(* ===================================================================== *)
(** * Exceptions *)
(* ===================================================================== *)

(** The exceptions the modelled code can raise. *)
Inductive JsError : Type :=
| RangeError
| TypeError
| GenericError (msg : string).

(** A computation that either returns or throws. *)
Inductive result (A : Type) : Type :=
| Ok (a : A)
| Throw (e : JsError).
Arguments Ok {A} a.
Arguments Throw {A} e.

Definition bind {A B} (r : result A) (k : A -> result B) : result B :=
  match r with
  | Ok a => k a
  | Throw e => Throw e
  end.

Declare Scope js_scope.
Delimit Scope js_scope with js.
Notation "x <- r ;; k" := (bind r (fun x => k))
  (at level 61, r at next level, right associativity) : js_scope.

(* ===================================================================== *)
(** * JavaScript strings *)
(* ===================================================================== *)

Module JsString.

(** [WhiteSpace] and [LineTerminator] code units below 256: TAB, LF, VT,
    FF, CR, SPACE and NBSP.  Both [String.prototype.trim] and the regex
    class [\s] use this set. *)
Definition isWhiteSpace (c : ascii) : bool :=
  let n := nat_of_ascii c in
  ((9 <=? n) && (n <=? 13) || (n =? 32) || (n =? 160))%nat.

(** A string used as a condition: only the empty string is falsy. *)
Definition truthy (s : string) : bool :=
  match s with
  | EmptyString => false
  | String _ _ => true
  end.

(** [a || b] on strings. *)
Definition orElse (a b : string) : string :=
  if truthy a then a else b.

Fixpoint trimStart (s : string) : string :=
  match s with
  | EmptyString => EmptyString
  | String c r => if isWhiteSpace c then trimStart r else s
  end.

Fixpoint trimEnd (s : string) : string :=
  match s with
  | EmptyString => EmptyString
  | String c r =>
      match trimEnd r with
      | EmptyString => if isWhiteSpace c then EmptyString else String c EmptyString
      | String _ _ as r' => String c r'
      end
  end.

(** [s.trim()] *)
Definition trim (s : string) : string := trimEnd (trimStart s).

(** [s.includes(sub)] *)
Fixpoint includes (s sub : string) : bool :=
  prefix sub s ||
  match s with
  | EmptyString => false
  | String _ r => includes r sub
  end.

Fixpoint contains (c : ascii) (s : string) : bool :=
  match s with
  | EmptyString => false
  | String x r => Ascii.eqb x c || contains c r
  end.

(** [s.replace(/O[^C]*C/g, '')] for an opening delimiter [O] and a
    closing delimiter [C]: scanning from the left, an [O] that is
    followed somewhere by a [C] is removed together with everything up to
    and including the first such [C]; scanning resumes after it.  The
    flag [inside] records that such a match is being skipped. *)
Fixpoint stripDelimited (o c : ascii) (inside : bool) (s : string) : string :=
  match s with
  | EmptyString => EmptyString
  | String x r =>
      if inside then
        if Ascii.eqb x c then stripDelimited o c false r
        else stripDelimited o c true r
      else if Ascii.eqb x o && contains c r then stripDelimited o c true r
      else String x (stripDelimited o c false r)
  end.



End JsString.

(* ===================================================================== *)
(** * Node buffers *)
(* ===================================================================== *)

Module NodeBuffer.

Local Open Scope Z_scope.

(** A [Buffer] is its sequence of bytes. *)
Abbreviation Buffer := (list byte) (only parsing).

(** The numeric value of a byte, and the byte a typed-array store keeps
    of a number: its low eight bits. *)
Definition zOfByte (b : byte) : Z := Z.of_N (Byte.to_N b).

Definition byteOfZ (z : Z) : byte :=
  match Byte.of_N (Z.to_N (z mod 256)) with
  | Some b => b
  | None => Byte.x00
  end.

(** [Buffer.alloc(n)]: [n] zero bytes.  Sizes above
    [buffer.constants.MAX_LENGTH], which [alloc] refuses, are not
    modelled; the limit is at least 2^31 - 1. *)
Definition alloc (n : nat) : Buffer := repeat Byte.x00 n.

(** [Buffer.concat(list)] *)
Definition concat (l : list Buffer) : Buffer := List.concat l.

(** [buf.slice(0, stop)] and [buf.slice(start)] *)
Definition sliceTo (stop : nat) (buf : Buffer) : Buffer := firstn stop buf.
Definition sliceFrom (start : nat) (buf : Buffer) : Buffer := skipn start buf.

(** Overwrite [buf] from offset [off] with the bytes [bs]; bytes that do
    not fit are dropped, the length of [buf] never changes. *)
Fixpoint blit (bs : list byte) (off : nat) (buf : Buffer) : Buffer :=
  match buf with
  | [] => []
  | b :: rest =>
      match off with
      | S k => b :: blit bs k rest
      | O =>
          match bs with
          | [] => buf
          | x :: xs => x :: blit xs O rest
          end
      end
  end.

(** A length on its way to V8's string writer, which takes it as a C
    [int]: the low 32 bits, read as a signed number. *)
Definition toInt (n : Z) : Z := (n + 2147483648) mod 4294967296 - 2147483648.

(** The number of bytes [buf.write] may store when [remaining] bytes
    follow the offset.  The writer reads [-1] as no limit and stores
    nothing for any other negative number, so from 2^31 bytes on the
    capacity is not the room there is: none for 2^31 .. 2^32 - 2. *)
Definition writeCapacity (remaining : nat) : nat :=
  let c := toInt (Z.of_nat remaining) in
  if c =? -1 then remaining else Z.to_nat c.

(** [buf.write(s, off)]: the offset must lie within the buffer; the
    string is stored as far as the capacity goes.  ([s] is ASCII in
    every call of the service: one byte per code unit.) *)
Definition write (s : string) (off : nat) (buf : Buffer) : result Buffer :=
  if (off <=? List.length buf)%nat then
    Ok (blit (firstn (writeCapacity (List.length buf - off)) (list_byte_of_string s))
          off buf)
  else Throw RangeError.

(** The [n] low bytes of [v], least significant first, as the
    [writeUInt*LE] family stores them: [buf[off++] = v; v = v >>> 8]. *)
Fixpoint lowBytes (n : nat) (v : Z) : list byte :=
  match n with
  | O => []
  | S k => byteOfZ v :: lowBytes k (Z.shiftr v 8)
  end.

(** Store of the number [num / den] as an unsigned [n]-byte field at
    [off].  Node first checks the value against [0 .. 2^(8n) - 1], then
    that the [n] bytes fit, and stores the integer part. *)
Definition writeUIntLE (n : nat) (num den : Z) (off : nat) (buf : Buffer)
  : result Buffer :=
  if (num <? 0) || (den * (2 ^ (8 * Z.of_nat n) - 1) <? num) then Throw RangeError
  else if (off + n <=? List.length buf)%nat then Ok (blit (lowBytes n (num / den)) off buf)
  else Throw RangeError.

(** [buf.writeUInt32LE(v, off)] and [buf.writeUInt16LE(v, off)] *)
Definition writeUInt32LE (v : Z) (off : nat) (buf : Buffer) : result Buffer :=
  writeUIntLE 4 v 1 off buf.

Definition writeUInt16LE (v : Z) (off : nat) (buf : Buffer) : result Buffer :=
  writeUIntLE 2 v 1 off buf.

(** [src.copy(target, off)] *)
Definition copy (src : Buffer) (off : nat) (target : Buffer) : Buffer :=
  blit src off target.

(** [buf.readInt16LE(off)] *)
Definition readInt16LE (off : nat) (buf : Buffer) : result Z :=
  match skipn off buf with
  | lo :: hi :: _ =>
      let u := zOfByte lo + 256 * zOfByte hi in
      Ok (if 32768 <=? u then u - 65536 else u)
  | _ => Throw RangeError
  end.

(** [buf.writeInt16LE(v, off)] *)
Definition writeInt16LE (v : Z) (off : nat) (buf : Buffer) : result Buffer :=
  if (v <? -32768) || (32767 <? v) then Throw RangeError
  else if (off + 2 <=? List.length buf)%nat then Ok (blit (lowBytes 2 v) off buf)
  else Throw RangeError.

(** The unsigned little-endian value of a byte sequence, and the
    unsigned integer held by the [n] bytes at [off]. *)
Fixpoint littleEndian (bs : list byte) : Z :=
  match bs with
  | [] => 0
  | b :: r => zOfByte b + 256 * littleEndian r
  end.

Definition readUIntLE (n off : nat) (buf : Buffer) : Z :=
  littleEndian (firstn n (skipn off buf)).

End NodeBuffer.

(* ===================================================================== *)
(** * WAV encapsulation *)
(* ===================================================================== *)

Module Wav.

Import NodeBuffer.
Local Open Scope Z_scope.
Local Open Scope js_scope.

(** The [options] argument of [pcmToWav]; an absent field is [None].
    Fields are integers. *)
Record Options : Type := {
  numChannels : option Z;
  sampleRate : option Z;
  bitDepth : option Z
}.

(** [o || d] on an optional number: absent and [0] both give [d]. *)
Definition orDefault (o : option Z) (d : Z) : Z :=
  match o with
  | Some 0 => d
  | Some v => v
  | None => d
  end.

Definition pcmToWav (pcmBuffer : Buffer) (options : Options) : result Buffer :=
  let numChannels := orDefault (numChannels options) 1 in
  let sampleRate := orDefault (sampleRate options) 24000 in
  let bitDepth := orDefault (bitDepth options) 16 in
  (* byteRate and blockAlign are quotients by 8, kept as fractions *)
  let byteRate := sampleRate * numChannels * bitDepth in
  let blockAlign := numChannels * bitDepth in
  let wavHeaderSize := 44%nat in
  let dataSize := List.length pcmBuffer in
  let buffer := alloc (wavHeaderSize + dataSize) in
  buffer <- write "RIFF" 0 buffer ;;
  buffer <- writeUInt32LE (36 + Z.of_nat dataSize) 4 buffer ;;
  buffer <- write "WAVE" 8 buffer ;;
  buffer <- write "fmt " 12 buffer ;;
  buffer <- writeUInt32LE 16 16 buffer ;;
  buffer <- writeUInt16LE 1 20 buffer ;;
  buffer <- writeUInt16LE numChannels 22 buffer ;;
  buffer <- writeUInt32LE sampleRate 24 buffer ;;
  buffer <- writeUIntLE 4 byteRate 8 28 buffer ;;
  buffer <- writeUIntLE 2 blockAlign 8 32 buffer ;;
  buffer <- writeUInt16LE bitDepth 34 buffer ;;
  buffer <- write "data" 36 buffer ;;
  buffer <- writeUInt32LE (Z.of_nat dataSize) 40 buffer ;;
  Ok (copy pcmBuffer 44 buffer).

(** The options every caller in the service passes. *)
Definition mono16at24k : Options :=
  {| numChannels := Some 1; sampleRate := Some 24000; bitDepth := Some 16 |}.

(** The four bytes of an unsigned 32-bit little-endian field, as
    numbers. *)
Definition le32 (v : Z) : list Z :=
  [v mod 256; (v / 256) mod 256; (v / 65536) mod 256; (v / 16777216) mod 256].

(** The canonical 44-byte header for [n] data bytes at mono, 16 bit,
    24000 Hz: "RIFF", 36+n, "WAVE", "fmt ", 16, format tag 1, 1 channel,
    24000 Hz, byte rate 48000, block align 2, 16 bits, "data", n. *)
Definition canonicalHeader (n : Z) : list byte :=
  map byteOfZ
    ([82; 73; 70; 70] ++ le32 (36 + n) ++
     [87; 65; 86; 69;  102; 109; 116; 32;  16; 0; 0; 0;  1; 0;  1; 0;
      192; 93; 0; 0;  128; 187; 0; 0;  2; 0;  16; 0;  100; 97; 116; 97] ++
     le32 n).

End Wav.

(* ===================================================================== *)
(** * Provider sessions *)
(* ===================================================================== *)

Module Provider.

(** A session object as the service sees it: which of the two entry
    points it offers.  What the calls answer is an input to the service
    and arrives as an event (see [Stt.Event]). *)
Record Session : Type := {
  hasSendRealtimeInput : bool;
  hasTranscribeAudio : bool
}.

(** The object returned by [createSTT] of the gaia provider:
    [{ transcribe, transcribeAudio, close }]. *)
Definition gaiaCreateSTT : Session :=
  {| hasSendRealtimeInput := false; hasTranscribeAudio := true |}.

End Provider.

(* ===================================================================== *)
(** * The service *)
(* ===================================================================== *)

Module Stt.

Import JsString NodeBuffer Provider.
Local Open Scope Z_scope.
Local Open Scope js_scope.
Local Infix "+++" := String.append (at level 60, right associativity).

Definition COMPLETION_DEBOUNCE_MS : Z := 2000.
Definition AUDIO_SEND_INTERVAL : Z := 5000.

(** The two channels: the fields and methods prefixed [my] and [their]
    in the class. *)
Inductive Speaker : Type := Me | Them.

Record ModelInfo : Type := {
  provider : string;
  apiKey : string
}.

(** ** Provider messages *)

(** [message.serverContent] of the turn-based provider.
    [inputTranscription] is the text of the transcription object, [None]
    when the object or its text is missing. *)
Record ServerContent : Type := {
  modelTurn : bool;
  turnComplete : bool;
  inputTranscription : option string
}.

(** A message pushed by a provider.  An absent string field is the
    empty string (both are falsy); [alternative] stands for
    [message.alternatives && message.alternatives[0]?.transcript]. *)
Record Message : Type := {
  serverContent : option ServerContent;
  type : string;
  transcript : string;
  delta : string;
  alternative : string;
  error : bool
}.

(** ** Effects *)

Inductive Payload : Type :=
| RawAudio (data : Buffer)
| GeminiAudio (data : Buffer) (mimeType : string).

(** What the service does to the outside, in the order it does it. *)
Inductive Effect : Type :=
| SttUpdate (speaker : Speaker) (text : string) (isPartial isFinal : bool)
            (timestamp : Z)                 (* sendToRenderer('stt-update', ..) *)
| SystemAudioData (data : Buffer)           (* sendToRenderer('system-audio-data', ..) *)
| TranscriptionComplete (speaker : Speaker) (text : string)
| StatusUpdate (status : string)
| RealtimeInput (who : Speaker) (payload : Payload)
| TranscribeAudio (who : Speaker) (wavBuffer : Buffer)
| SessionClose (who : Speaker)
| Pkill
| KillCapture
| ConsoleError (msg : string).

(** ** Timers *)

(** The two closures the service hands to [setTimeout]. *)
Inductive Callback : Type :=
| FlushCompletion (who : Speaker)
| SendBufferedAudio (who : Speaker).

Record Timer : Type := {
  tid : nat;
  due : Z;
  callback : Callback
}.

(** ** State *)

(** The fields of one channel: [mySttSession], [myCurrentUtterance],
    [myCompletionBuffer], [myCompletionTimer], [myAudioBuffer],
    [myAudioTimer], and the same with [their]. *)
Record Channel : Type := {
  sttSession : option Session;
  currentUtterance : string;
  completionBuffer : string;
  completionTimer : option nat;
  audioBuffer : list Buffer;
  audioTimer : option nat
}.

(** [systemAudioProc]: the spawned process, with its pid if it has one. *)
Record Proc : Type := { pid : option nat }.

Record SttService : Type := {
  my : Channel;
  their : Channel;
  systemAudioProc : option Proc;
  onTranscriptionComplete : bool;
  onStatusUpdate : bool;
  modelInfo : option ModelInfo
}.

(** The variables the stdout listener of the capture process closes
    over. *)
Record Capture : Type := {
  captureAudioBuffer : Buffer;
  captureModelInfo : ModelInfo
}.

(** The service inside the event loop. *)
Record World : Type := {
  svc : SttService;
  capture : option Capture;
  timers : list Timer;
  nextTimer : nat;
  now : Z;
  effects : list Effect
}.

(** *** Field updates *)

Definition setSttSession (v : option Session) (c : Channel) : Channel :=
  {| sttSession := v; currentUtterance := currentUtterance c;
     completionBuffer := completionBuffer c; completionTimer := completionTimer c;
     audioBuffer := audioBuffer c; audioTimer := audioTimer c |}.

Definition setCurrentUtterance (v : string) (c : Channel) : Channel :=
  {| sttSession := sttSession c; currentUtterance := v;
     completionBuffer := completionBuffer c; completionTimer := completionTimer c;
     audioBuffer := audioBuffer c; audioTimer := audioTimer c |}.

Definition setCompletionBuffer (v : string) (c : Channel) : Channel :=
  {| sttSession := sttSession c; currentUtterance := currentUtterance c;
     completionBuffer := v; completionTimer := completionTimer c;
     audioBuffer := audioBuffer c; audioTimer := audioTimer c |}.

Definition setCompletionTimer (v : option nat) (c : Channel) : Channel :=
  {| sttSession := sttSession c; currentUtterance := currentUtterance c;
     completionBuffer := completionBuffer c; completionTimer := v;
     audioBuffer := audioBuffer c; audioTimer := audioTimer c |}.

Definition setAudioBuffer (v : list Buffer) (c : Channel) : Channel :=
  {| sttSession := sttSession c; currentUtterance := currentUtterance c;
     completionBuffer := completionBuffer c; completionTimer := completionTimer c;
     audioBuffer := v; audioTimer := audioTimer c |}.

Definition setAudioTimer (v : option nat) (c : Channel) : Channel :=
  {| sttSession := sttSession c; currentUtterance := currentUtterance c;
     completionBuffer := completionBuffer c; completionTimer := completionTimer c;
     audioBuffer := audioBuffer c; audioTimer := v |}.

Definition withSvc (f : SttService -> SttService) (w : World) : World :=
  {| svc := f (svc w); capture := capture w; timers := timers w;
     nextTimer := nextTimer w; now := now w; effects := effects w |}.

Definition channel (who : Speaker) (w : World) : Channel :=
  match who with
  | Me => my (svc w)
  | Them => their (svc w)
  end.

(** Assignment to fields of one channel. *)
Definition update (who : Speaker) (f : Channel -> Channel) (w : World) : World :=
  withSvc (fun s =>
    match who with
    | Me =>
        {| my := f (my s); their := their s; systemAudioProc := systemAudioProc s;
           onTranscriptionComplete := onTranscriptionComplete s;
           onStatusUpdate := onStatusUpdate s; modelInfo := modelInfo s |}
    | Them =>
        {| my := my s; their := f (their s); systemAudioProc := systemAudioProc s;
           onTranscriptionComplete := onTranscriptionComplete s;
           onStatusUpdate := onStatusUpdate s; modelInfo := modelInfo s |}
    end) w.

Definition setModelInfo (v : option ModelInfo) (w : World) : World :=
  withSvc (fun s =>
    {| my := my s; their := their s; systemAudioProc := systemAudioProc s;
       onTranscriptionComplete := onTranscriptionComplete s;
       onStatusUpdate := onStatusUpdate s; modelInfo := v |}) w.

Definition setSystemAudioProc (v : option Proc) (w : World) : World :=
  withSvc (fun s =>
    {| my := my s; their := their s; systemAudioProc := v;
       onTranscriptionComplete := onTranscriptionComplete s;
       onStatusUpdate := onStatusUpdate s; modelInfo := modelInfo s |}) w.

Definition setCapture (v : option Capture) (w : World) : World :=
  {| svc := svc w; capture := v; timers := timers w;
     nextTimer := nextTimer w; now := now w; effects := effects w |}.

Definition setNow (t : Z) (w : World) : World :=
  {| svc := svc w; capture := capture w; timers := timers w;
     nextTimer := nextTimer w; now := t; effects := effects w |}.

(** *** The runtime's primitives *)

Definition emit (e : Effect) (w : World) : World :=
  {| svc := svc w; capture := capture w; timers := timers w;
     nextTimer := nextTimer w; now := now w; effects := effects w ++ [e] |}.

(** [setTimeout(cb, delay)]: a fresh handle, due [delay] from now. *)
Definition setTimeout (cb : Callback) (delay : Z) (w : World) : nat * World :=
  (nextTimer w,
   {| svc := svc w; capture := capture w;
      timers := timers w ++ [{| tid := nextTimer w; due := now w + delay; callback := cb |}];
      nextTimer := S (nextTimer w); now := now w; effects := effects w |}).

(** [clearTimeout(id)]: a handle that already fired or was cleared is
    ignored. *)
Definition clearTimeout (id : nat) (w : World) : World :=
  {| svc := svc w; capture := capture w;
     timers := filter (fun x => negb (tid x =? id)%nat) (timers w);
     nextTimer := nextTimer w; now := now w; effects := effects w |}.

(** [if (timer) clearTimeout(timer)] *)
Definition clearIfArmed (handle : option nat) (w : World) : World :=
  match handle with
  | Some id => clearTimeout id w
  | None => w
  end.

Definition speakerName (who : Speaker) : string :=
  match who with
  | Me => "Me"
  | Them => "Them"
  end.

(** ** setCallbacks *)

Definition setCallbacks (complete status : bool) (w : World) : World :=
  withSvc (fun s =>
    {| my := my s; their := their s; systemAudioProc := systemAudioProc s;
       onTranscriptionComplete := complete;
       onStatusUpdate := status; modelInfo := modelInfo s |}) w.

Definition notifyComplete (who : Speaker) (text : string) (w : World) : World :=
  if onTranscriptionComplete (svc w) then emit (TranscriptionComplete who text) w
  else w.

Definition notifyStatus (status : string) (w : World) : World :=
  if onStatusUpdate (svc w) then emit (StatusUpdate status) w else w.

(** ** flushMyCompletion, flushTheirCompletion *)

Definition flushCompletion (who : Speaker) (w : World) : World :=
  let c := channel who w in
  let finalText := trim (completionBuffer c +++ currentUtterance c) in
  match modelInfo (svc w) with
  | None => w
  | Some _ =>
      if negb (truthy finalText) then w
      else
        let w := notifyComplete who finalText w in
        let w := emit (SttUpdate who finalText false true (now w)) w in
        let w := update who (setCompletionBuffer "") w in
        let w := update who (setCompletionTimer None) w in
        let w := update who (setCurrentUtterance "") w in
        notifyStatus "Listening..." w
  end.

Definition flushMyCompletion : World -> World := flushCompletion Me.
Definition flushTheirCompletion : World -> World := flushCompletion Them.

(** ** debounceMyCompletion, debounceTheirCompletion *)

(** [this.modelInfo?.provider === 'gemini'] *)
Definition isGemini (mi : option ModelInfo) : bool :=
  match mi with
  | Some m => String.eqb (provider m) "gemini"
  | None => false
  end.

Definition debounceCompletion (who : Speaker) (text : string) (w : World) : World :=
  let buffer := completionBuffer (channel who w) in
  let w :=
    if isGemini (modelInfo (svc w)) then
      update who (setCompletionBuffer (buffer +++ text)) w
    else
      update who
        (setCompletionBuffer (buffer +++ (if truthy buffer then " " else "") +++ text)) w in
  let w := clearIfArmed (completionTimer (channel who w)) w in
  let armed := setTimeout (FlushCompletion who) COMPLETION_DEBOUNCE_MS w in
  update who (setCompletionTimer (Some (fst armed))) (snd armed).

Definition debounceMyCompletion : string -> World -> World := debounceCompletion Me.
Definition debounceTheirCompletion : string -> World -> World := debounceCompletion Them.

(** ** handleMyMessage, handleTheirMessage *)

(** [message.transcript || message.delta || (alternatives ...) || ''] *)
Definition messageText (message : Message) : string :=
  orElse (transcript message) (orElse (delta message) (orElse (alternative message) "")).

Definition logMessageError (who : Speaker) (message : Message) (w : World) : World :=
  if error message then emit (ConsoleError "STT Session Error") w else w.

(** The two handlers differ only in the speaker they name, and in
    [handleTheirMessage] first discarding a message that is not an
    object, which a [Message] always is. *)
Definition handleMessage (who : Speaker) (message : Message) (w : World) : World :=
  match modelInfo (svc w) with
  | None => w                       (* session already closed *)
  | Some mi =>
      if String.eqb (provider mi) "gemini" then
        let sc := serverContent message in
        if match sc with Some c => turnComplete c | None => false end then
          match completionTimer (channel who w) with
          | Some id => flushCompletion who (clearTimeout id w)
          | None => w
          end
        else
          match match sc with Some c => inputTranscription c | None => None end with
          | None => w
          | Some textChunk =>
              if negb (truthy textChunk) then w
              else if negb (truthy (trim textChunk))
                      || String.eqb (trim textChunk) "<noise>" then w
              else
                let w := debounceCompletion who textChunk w in
                let w := emit (SttUpdate who (completionBuffer (channel who w))
                                 true false (now w)) w in
                logMessageError who message w
          end
      else
        let text := messageText message in
        let w :=
          if String.eqb (type message)
               "conversation.item.input_audio_transcription.delta" then
            let w := clearIfArmed (completionTimer (channel who w)) w in
            let w := update who (setCompletionTimer None) w in
            let w := update who
                       (setCurrentUtterance (currentUtterance (channel who w) +++ text)) w in
            let buffer := completionBuffer (channel who w) in
            let continuousText :=
              buffer +++ (if truthy buffer then " " else "")
                     +++ currentUtterance (channel who w) in
            if truthy text && negb (includes text "vq_lbr_audio_") then
              emit (SttUpdate who continuousText true false (now w)) w
            else w
          else if String.eqb (type message)
                    "conversation.item.input_audio_transcription.completed" then
            if truthy text && truthy (trim text) then
              let finalUtteranceText := trim text in
              let w := update who (setCurrentUtterance "") w in
              debounceCompletion who finalUtteranceText w
            else w
          else w in
        logMessageError who message w
  end.

Definition handleMyMessage : Message -> World -> World := handleMessage Me.
Definition handleTheirMessage : Message -> World -> World := handleMessage Them.

(** ** initializeSttSessions *)

(** [fetched] is what [getCurrentModelInfo] answers, [created] the outcome
    of the two [createSTT] calls.  The state keeps whatever was assigned
    before a throw. *)
Definition initializeSttSessions
    (fetched : option ModelInfo)
    (created : result (option Session * option Session))
    (w : World) : World * result bool :=
  match fetched with
  | None => (w, Throw (GenericError "AI model or API key is not configured."))
  | Some mi =>
      if negb (truthy (apiKey mi)) then
        (w, Throw (GenericError "AI model or API key is not configured."))
      else
        let w := setModelInfo (Some mi) w in
        match created with
        | Throw e => (w, Throw e)
        | Ok (mine, theirs) =>
            let w := update Me (setSttSession mine) w in
            let w := update Them (setSttSession theirs) w in
            let realtime (s : option Session) :=
              match s with
              | Some x => hasSendRealtimeInput x
              | None => false
              end in
            if String.eqb (provider mi) "gaia" then (w, Ok true)
            else if negb (realtime mine) || negb (realtime theirs) then
              (w, Throw (GenericError "STT session does not implement sendRealtimeInput."))
            else (w, Ok true)
        end
  end.

(** ** sendAudioContent, sendSystemAudioContent *)

(** The timer callback armed by [sendAudioContent], up to the point
    where it awaits [transcribeAudio]. *)
Definition sendBufferedAudio (who : Speaker) (w : World) : World :=
  let audioToSend := concat (audioBuffer (channel who w)) in
  let w := update who (setAudioBuffer []) w in
  let w := update who (setAudioTimer None) w in
  if (0 <? List.length audioToSend)%nat then
    match Wav.pcmToWav audioToSend Wav.mono16at24k with
    | Throw _ => emit (ConsoleError "Error sending buffered audio") w
    | Ok wavBuffer =>
        match sttSession (channel who w) with
        | None => emit (ConsoleError "Error sending buffered audio") w
        | Some session =>
            if hasTranscribeAudio session then emit (TranscribeAudio who wavBuffer) w
            else emit (ConsoleError "Error sending buffered audio") w
        end
    end
  else w.

(** The rest of that callback, run when [transcribeAudio] settles:
    [Ok result] carries [result.text] ([None] when the result or its text
    is missing), [Throw] is a rejection. *)
Definition transcribeAudioSettled
    (who : Speaker) (outcome : result (option string)) (w : World) : World :=
  match outcome with
  | Throw _ => emit (ConsoleError "Error sending buffered audio") w
  | Ok None => w
  | Ok (Some text) =>
      if truthy text && truthy (trim text) then
        let w := notifyComplete who (trim text) w in
        let cleanText :=
          trim (stripDelimited "(" ")" false (stripDelimited "[" "]" false text)) in
        let w := emit (SttUpdate who (trim cleanText) false true (now w)) w in
        let w := notifyStatus "Listening..." w in
        let w := update who (setCompletionBuffer "") w in
        update who (setCurrentUtterance "") w
      else w
  end.

(** [data] is the buffer after the [Buffer.isBuffer] / [Buffer.from]
    normalisation; [fetched] is what the fallback [getCurrentModelInfo]
    answers when [this.modelInfo] is not set. *)
Definition sendAudio
    (who : Speaker) (data : Buffer) (mimeType : string)
    (fetched : option ModelInfo) (w : World) : result World :=
  match sttSession (channel who w) with
  | None => Throw (GenericError "STT session not active")
  | Some session =>
      match match modelInfo (svc w) with
            | Some mi => Some mi
            | None => fetched
            end with
      | None => Throw (GenericError "STT model info could not be retrieved.")
      | Some mi =>
          if String.eqb (provider mi) "gaia" then
            let w := update who
                       (setAudioBuffer (audioBuffer (channel who w) ++ [data])) w in
            match audioTimer (channel who w) with
            | Some _ => Ok w
            | None =>
                let armed := setTimeout (SendBufferedAudio who) AUDIO_SEND_INTERVAL w in
                Ok (update who (setAudioTimer (Some (fst armed))) (snd armed))
            end
          else
            let payload :=
              if String.eqb (provider mi) "gemini"
              then GeminiAudio data (orElse mimeType "audio/pcm;rate=24000")
              else RawAudio data in
            if hasSendRealtimeInput session then Ok (emit (RealtimeInput who payload) w)
            else Throw TypeError
      end
  end.

Definition sendAudioContent := sendAudio Me.
Definition sendSystemAudioContent := sendAudio Them.

(** ** convertStereoToMono *)

Fixpoint copyLeftSamples (count i : nat) (stereoBuffer monoBuffer : Buffer)
  : result Buffer :=
  match count with
  | O => Ok monoBuffer
  | S k =>
      leftSample <- readInt16LE (i * 4) stereoBuffer ;;
      monoBuffer <- writeInt16LE leftSample (i * 2) monoBuffer ;;
      copyLeftSamples k (S i) stereoBuffer monoBuffer
  end.

(** [samples = length / 4] is a whole number exactly when the length is
    a multiple of four.  Otherwise the loop runs one more round than the
    allocated buffer has room for, and its read or its write is out of
    range. *)
Definition convertStereoToMono (stereoBuffer : Buffer) : result Buffer :=
  let samples := (List.length stereoBuffer / 4)%nat in
  let monoBuffer := alloc (samples * 2) in
  monoBuffer <- copyLeftSamples samples 0 stereoBuffer monoBuffer ;;
  if (List.length stereoBuffer mod 4 =? 0)%nat then Ok monoBuffer
  else Throw RangeError.

(** ** startMacOSAudioCapture and its stdout listener *)

Definition CHUNK_DURATION_TENTHS : Z := 1.      (* CHUNK_DURATION = 0.1 *)
Definition SAMPLE_RATE : Z := 24000.
Definition BYTES_PER_SAMPLE : Z := 2.
Definition CHANNELS : Z := 2.
Definition CHUNK_SIZE : Z :=
  SAMPLE_RATE * BYTES_PER_SAMPLE * CHANNELS * CHUNK_DURATION_TENTHS / 10.

(** [CHUNK_SIZE] as a number of bytes to slice. *)
Definition chunkBytes : nat := Z.to_nat CHUNK_SIZE.

Definition setCaptureAudioBuffer (b : Buffer) (cap : Capture) : Capture :=
  {| captureAudioBuffer := b; captureModelInfo := captureModelInfo cap |}.

(** One round of the [while] loop, for a buffer that holds a whole
    chunk. *)
Definition forwardChunk (cap : Capture) (w : World) : result (Capture * World) :=
  let chunk := sliceTo chunkBytes (captureAudioBuffer cap) in
  let cap := setCaptureAudioBuffer
               (sliceFrom chunkBytes (captureAudioBuffer cap)) cap in
  monoChunk <- (if CHANNELS =? 2 then convertStereoToMono chunk else Ok chunk) ;;
  let w := emit (SystemAudioData monoChunk) w in
  match sttSession (channel Them w) with
  | None => Ok (cap, w)
  | Some session =>
      let payload :=
        if String.eqb (provider (captureModelInfo cap)) "gemini"
        then GeminiAudio monoChunk "audio/pcm;rate=24000"
        else RawAudio monoChunk in
      if hasSendRealtimeInput session
      then Ok (cap, emit (RealtimeInput Them payload) w)
      else Ok (cap, emit (ConsoleError "Error sending system audio") w)
  end.

Local Opaque chunkBytes.

(** [while (audioBuffer.length >= CHUNK_SIZE) { ... }] *)
Equations? drainChunks (cap : Capture) (w : World) : Capture * World
  by wf (List.length (captureAudioBuffer cap)) lt :=
  drainChunks cap w with Z_le_dec CHUNK_SIZE (Z.of_nat (List.length (captureAudioBuffer cap))) => {
    | left _ with forwardChunk cap w => {
        | Ok next => drainChunks
                       (setCaptureAudioBuffer
                          (sliceFrom chunkBytes (captureAudioBuffer cap)) cap)
                       (snd next);
        | Throw _ => (setCaptureAudioBuffer
                        (sliceFrom chunkBytes (captureAudioBuffer cap)) cap, w) };
    | right _ => (cap, w) }.
Proof.
  assert (Hsize : Z.of_nat chunkBytes = CHUNK_SIZE)
    by (apply (Z2Nat.id CHUNK_SIZE); discriminate).
  assert (Hpos : 0 < CHUNK_SIZE) by reflexivity.
  unfold sliceFrom. rewrite length_skipn. lia.
Qed.

Local Transparent chunkBytes.

(** The listener on the process's stdout. *)
Definition onCaptureData (data : Buffer) (w : World) : World :=
  match capture w with
  | None => w
  | Some cap =>
      let cap := setCaptureAudioBuffer (concat [captureAudioBuffer cap; data]) cap in
      let out := drainChunks cap w in
      setCapture (Some (fst out)) (snd out)
  end.

(** [platform] is [process.platform], [spawned] the process [spawn]
    returns, [fetched] the fallback model info. *)
Definition startMacOSAudioCapture
    (platform : string) (spawned : Proc) (fetched : option ModelInfo)
    (w : World) : World * result bool :=
  if negb (String.eqb platform "darwin") then (w, Ok false)
  else
    match sttSession (channel Them w) with
    | None => (w, Ok false)
    | Some _ =>
        let w := emit Pkill w in
        let w := setSystemAudioProc (Some spawned) w in
        match pid spawned with
        | None => (emit (ConsoleError "Failed to start SystemAudioDump") w, Ok false)
        | Some _ =>
            match match modelInfo (svc w) with
                  | Some mi => Some mi
                  | None => fetched
                  end with
            | None => (w, Throw (GenericError "STT model info could not be retrieved."))
            | Some mi =>
                (setCapture (Some {| captureAudioBuffer := alloc 0;
                                     captureModelInfo := mi |}) w, Ok true)
            end
        end
    end.

(** The process's [close] and [error] listeners. *)
Definition onCaptureExit (w : World) : World :=
  setCapture None (setSystemAudioProc None w).

Definition stopMacOSAudioCapture (w : World) : World :=
  match systemAudioProc (svc w) with
  | Some _ => setSystemAudioProc None (emit KillCapture w)
  | None => w
  end.

(** ** closeSessions *)

Definition clearCompletionTimer (who : Speaker) (w : World) : World :=
  match completionTimer (channel who w) with
  | Some id => update who (setCompletionTimer None) (clearTimeout id w)
  | None => w
  end.

Definition clearAudioTimer (who : Speaker) (w : World) : World :=
  match audioTimer (channel who w) with
  | Some id =>
      update who (setAudioBuffer [])
        (update who (setAudioTimer None) (clearTimeout id w))
  | None => w
  end.

Definition closeSession (who : Speaker) (w : World) : World :=
  match sttSession (channel who w) with
  | Some _ => update who (setSttSession None) (emit (SessionClose who) w)
  | None => w
  end.

(** [closeSessions] up to [await Promise.all(closePromises)]: both
    [close()] calls have been made when it suspends. *)
Definition closeSessionsBegin (w : World) : World :=
  let w := stopMacOSAudioCapture w in
  let w := clearCompletionTimer Me w in
  let w := clearCompletionTimer Them w in
  let w := clearAudioTimer Me w in
  let w := clearAudioTimer Them w in
  let w := closeSession Me w in
  closeSession Them w.

(** [closeSessions] after the await, when [Promise.all] resolved.  When
    a [close()] rejects, the function ends at the await and none of
    this runs (see [CloseRejected]). *)
Definition closeSessionsEnd (w : World) : World :=
  let w := update Me (setCurrentUtterance "") w in
  let w := update Them (setCurrentUtterance "") w in
  let w := update Me (setCompletionBuffer "") w in
  let w := update Them (setCompletionBuffer "") w in
  setModelInfo None w.

(** The whole of [closeSessions] when nothing else runs while it
    awaits and both [close()] calls resolve.  In the event loop the two
    halves are the events [CloseBegin] and [CloseEnd], and anything may
    be delivered between them. *)
Definition closeSessions (w : World) : World :=
  closeSessionsEnd (closeSessionsBegin w).

(** ** isSessionActive *)

(** [!!this.mySttSession && !!this.theirSttSession] *)
Definition isSessionActive (w : World) : bool :=
  match sttSession (channel Me w) with
  | Some _ =>
      match sttSession (channel Them w) with
      | Some _ => true
      | None => false
      end
  | None => false
  end.

(** ** The event loop *)

Definition runCallback (cb : Callback) (w : World) : World :=
  match cb with
  | FlushCompletion who => flushCompletion who w
  | SendBufferedAudio who => sendBufferedAudio who w
  end.

(** The pending timer to run next at time [t]: the one with the least
    deadline not after [t]; among equal deadlines the one armed first. *)
Fixpoint nextDue (t : Z) (ts : list Timer) : option Timer :=
  match ts with
  | [] => None
  | x :: rest =>
      if due x <=? t then
        match nextDue t rest with
        | Some y => if due x <=? due y then Some x else Some y
        | None => Some x
        end
      else nextDue t rest
  end.

(** Run the timers due at [t], one after the other. *)
Fixpoint fireDue (fuel : nat) (t : Z) (w : World) : World :=
  match fuel with
  | O => w
  | S k =>
      match nextDue t (timers w) with
      | None => w
      | Some x =>
          fireDue k t
            (runCallback (callback x)
               (setNow (Z.max (now w) (due x)) (clearTimeout (tid x) w)))
      end
  end.

(** Let the clock reach [t].  No callback of the service arms a timer,
    so one round per pending timer is enough (see [advance_complete]). *)
Definition advance (t : Z) (w : World) : World :=
  let w := fireDue (List.length (timers w)) t w in
  setNow (Z.max (now w) t) w.

(** What can happen to the service. *)
Inductive Event : Type :=
| SetCallbacks (complete status : bool)
| Initialize (fetched : option ModelInfo)
             (created : result (option Session * option Session))
| ProviderMessage (who : Speaker) (message : Message)
| AudioContent (who : Speaker) (data : Buffer) (mimeType : string)
               (fetched : option ModelInfo)
| TranscribeSettled (who : Speaker) (outcome : result (option string))
| StartCapture (platform : string) (spawned : Proc) (fetched : option ModelInfo)
| CaptureData (data : Buffer)
| CaptureExit
| StopCapture
| CloseBegin
| CloseEnd
| CloseRejected.

Definition handle (ev : Event) (w : World) : World :=
  match ev with
  | SetCallbacks complete status => setCallbacks complete status w
  | Initialize fetched created => fst (initializeSttSessions fetched created w)
  | ProviderMessage who message => handleMessage who message w
  | AudioContent who data mimeType fetched =>
      match sendAudio who data mimeType fetched w with
      | Ok w' => w'
      | Throw _ => w
      end
  | TranscribeSettled who outcome => transcribeAudioSettled who outcome w
  | StartCapture platform spawned fetched =>
      fst (startMacOSAudioCapture platform spawned fetched w)
  | CaptureData data => onCaptureData data w
  | CaptureExit => onCaptureExit w
  | StopCapture => stopMacOSAudioCapture w
  | CloseBegin => closeSessionsBegin w
  | CloseEnd => closeSessionsEnd w
  | CloseRejected => w        (* the await threw: the reset is skipped *)
  end.

(** The event [ev] happens at time [t]. *)
Definition deliver (t : Z) (ev : Event) (w : World) : World :=
  handle ev (advance t w).

Fixpoint run (evs : list (Z * Event)) (w : World) : World :=
  match evs with
  | [] => w
  | (t, ev) :: rest => run rest (deliver t ev w)
  end.

(** The state the constructor leaves. *)
Definition emptyChannel : Channel :=
  {| sttSession := None; currentUtterance := ""; completionBuffer := "";
     completionTimer := None; audioBuffer := []; audioTimer := None |}.

Definition newService : SttService :=
  {| my := emptyChannel; their := emptyChannel; systemAudioProc := None;
     onTranscriptionComplete := false; onStatusUpdate := false;
     modelInfo := None |}.

Definition boot : World :=
  {| svc := newService; capture := None; timers := []; nextTimer := 0;
     now := 0; effects := [] |}.

Inductive reachable : World -> Prop :=
| reachable_boot : reachable boot
| reachable_deliver t ev w : reachable w -> reachable (deliver t ev w).

End Stt.

(* ===================================================================== *)
(** * Vocabulary of the statements *)
(* ===================================================================== *)

(** Notions used to state the properties below: projections of the effect
    log, the shape of an input sequence, the left channel of a stereo
    buffer, and the state invariant of the service. *)
Module Spec.

Import JsString NodeBuffer Provider Stt.
Local Open Scope Z_scope.

(** *** Views of the effect log *)

(** A transcript event is an [stt-update]; it is final when
    [isPartial] is false. *)
Definition isTranscriptEvent (e : Effect) : bool :=
  match e with
  | SttUpdate _ _ _ _ _ => true
  | _ => false
  end.

Definition isFinalEvent (e : Effect) : bool :=
  match e with
  | SttUpdate _ _ isPartial _ _ => negb isPartial
  | _ => false
  end.

Definition isTranscribeCall (e : Effect) : bool :=
  match e with
  | TranscribeAudio _ _ => true
  | _ => false
  end.

Definition transcriptEvents (l : list Effect) : list Effect := filter isTranscriptEvent l.
Definition finalEvents (l : list Effect) : list Effect := filter isFinalEvent l.
Definition transcribeCalls (l : list Effect) : list Effect := filter isTranscribeCall l.

(** The chunks sent out for metering, in order. *)
Definition meteringChunks (l : list Effect) : list Buffer :=
  flat_map (fun e => match e with
                     | SystemAudioData d => [d]
                     | _ => []
                     end) l.

(** The payloads handed to [sendRealtimeInput] of a channel's session,
    in order. *)
Definition sessionInputs (who : Speaker) (l : list Effect) : list Payload :=
  flat_map (fun e => match e with
                     | RealtimeInput Me p =>
                         match who with Me => [p] | Them => [] end
                     | RealtimeInput Them p =>
                         match who with Me => [] | Them => [p] end
                     | _ => []
                     end) l.

(** The service has no model info and no session: the state before the
    first initialisation and the one [closeSessions] leaves. *)
Definition closed (w : World) : Prop :=
  modelInfo (svc w) = None /\
  sttSession (channel Me w) = None /\
  sttSession (channel Them w) = None.

(** The world [w] after the effects [l] have been added to its log. *)
Definition emitAll (l : list Effect) (w : World) : World :=
  {| svc := svc w; capture := capture w; timers := timers w;
     nextTimer := nextTimer w; now := now w; effects := effects w ++ l |}.

(** *** Inputs *)




Definition deltaType : string := "conversation.item.input_audio_transcription.delta".
Definition completedType : string := "conversation.item.input_audio_transcription.completed".

(** A delta-streaming message the handler acts on: a delta, or a
    completed utterance whose text is not blank. *)
Definition isDelta (m : Message) : bool := String.eqb (type m) deltaType.

Definition isCompleted (m : Message) : bool :=
  String.eqb (type m) completedType && truthy (trim (messageText m)).




(** The text of a turn-based message the handler accumulates: an input
    transcription that is neither blank nor the noise marker, in a
    message that does not complete the turn. *)
Definition turnFragment (m : Message) : option string :=
  match serverContent m with
  | Some c =>
      if turnComplete c then None
      else match inputTranscription c with
           | Some text =>
               if truthy (trim text) && negb (String.eqb (trim text) "<noise>")
               then Some text else None
           | None => None
           end
  | None => None
  end.



Definition isTurnComplete (m : Message) : bool :=
  match serverContent m with
  | Some c => turnComplete c
  | None => false
  end.

Definition messagesTo (who : Speaker) (l : list (Z * Message)) : list (Z * Event) :=
  map (fun tm => (fst tm, ProviderMessage who (snd tm))) l.

(** A call of [sendAudioContent] or [sendSystemAudioContent]: when it
    is made, its two arguments ([callMime] is empty when [mimeType] is
    not given), and what the fallback [getCurrentModelInfo] would
    answer. *)
Record AudioCall : Type := {
  callTime : Z;
  callData : Buffer;
  callMime : string;
  callFetched : option ModelInfo
}.

Definition audioCalls (who : Speaker) (l : list AudioCall) : list (Z * Event) :=
  map (fun c => (callTime c,
                 AudioContent who (callData c) (callMime c) (callFetched c))) l.


(** The stdout listener run on each read in turn. *)
Definition readAll (reads : list Buffer) (w : World) : World :=
  fold_left (fun w data => onCaptureData data w) reads w.




(** *** Audio *)

(** The first two bytes of every four-byte frame. *)
Fixpoint leftChannel (stereo : Buffer) : Buffer :=
  match stereo with
  | l0 :: l1 :: _ :: _ :: rest => l0 :: l1 :: leftChannel rest
  | _ => []
  end.

(** What the stdout listener does with one chunk it has cut: the left
    channel goes to the renderer and then to [sendRealtimeInput] of the
    session, if there is one; when the session has no such method the
    call throws and the error is logged. *)
Definition chunkEffects (session : option Session) (mi : ModelInfo) (chunk : Buffer)
  : list Effect :=
  let mono := leftChannel chunk in
  SystemAudioData mono ::
  match session with
  | None => []
  | Some s =>
      if hasSendRealtimeInput s then
        [RealtimeInput Them
           (if String.eqb (provider mi) "gemini"
            then GeminiAudio mono "audio/pcm;rate=24000"
            else RawAudio mono)]
      else [ConsoleError "Error sending system audio"]
  end.

(** The bytes [n] bytes from [off] on. *)
Definition bytesAt (off n : nat) (buf : Buffer) : list byte :=
  firstn n (skipn off buf).

(** The buffer [pcmToWav] builds, field by field, for [c] channels at
    [r] Hz and [d] bits. *)
Definition wavLayout (pcm : Buffer) (c r d : Z) : Buffer :=
  list_byte_of_string "RIFF" ++ lowBytes 4 (36 + Z.of_nat (List.length pcm)) ++
  list_byte_of_string "WAVE" ++ list_byte_of_string "fmt " ++
  lowBytes 4 16 ++ lowBytes 2 1 ++ lowBytes 2 c ++ lowBytes 4 r ++
  lowBytes 4 (r * c * d / 8) ++ lowBytes 2 (c * d / 8) ++ lowBytes 2 d ++
  list_byte_of_string "data" ++ lowBytes 4 (Z.of_nat (List.length pcm)) ++ pcm.

(** *** States *)

(** A service that has been initialised and is idle: nothing buffered,
    no timer pending. *)
Definition listening
    (mi : ModelInfo) (mine theirs : option Session) (complete status : bool)
  : World :=
  {| svc := {| my := setSttSession mine emptyChannel;
               their := setSttSession theirs emptyChannel;
               systemAudioProc := None;
               onTranscriptionComplete := complete;
               onStatusUpdate := status;
               modelInfo := Some mi |};
     capture := None; timers := []; nextTimer := 0; now := 0; effects := [] |}.


(** The pending timers of one kind. *)
Definition isCallback (cb : Callback) (x : Timer) : bool :=
  match callback x, cb with
  | FlushCompletion Me, FlushCompletion Me => true
  | FlushCompletion Them, FlushCompletion Them => true
  | SendBufferedAudio Me, SendBufferedAudio Me => true
  | SendBufferedAudio Them, SendBufferedAudio Them => true
  | _, _ => false
  end.

Definition armed (cb : Callback) (w : World) : list Timer :=
  filter (isCallback cb) (timers w).

(** The invariant of the timer bookkeeping: handles are never reused; a
    pending timer is the one its channel's handle names; audio is only
    buffered while the window timer's handle is set. *)
Record consistent (w : World) : Prop := {
  ids_fresh : Forall (fun x => (tid x < nextTimer w)%nat) (timers w);
  ids_distinct : NoDup (map tid (timers w));
  completion_handle : forall who x,
    In x (timers w) -> callback x = FlushCompletion who ->
    completionTimer (channel who w) = Some (tid x);
  audio_handle : forall who x,
    In x (timers w) -> callback x = SendBufferedAudio who ->
    audioTimer (channel who w) = Some (tid x);
  audio_buffered : forall who,
    audioTimer (channel who w) = None -> audioBuffer (channel who w) = []
}.

(** Two worlds with the same timers and the same handles and audio
    buffers. *)
Definition sameBooks (w w' : World) : Prop :=
  timers w' = timers w /\
  nextTimer w' = nextTimer w /\
  forall who,
    completionTimer (channel who w') = completionTimer (channel who w) /\
    audioTimer (channel who w') = audioTimer (channel who w) /\
    audioBuffer (channel who w') = audioBuffer (channel who w).

(** No completion timer, respectively no window timer, of the channel is
    pending. *)
Definition quietCompletion (who : Speaker) (w : World) : Prop :=
  forall x, In x (timers w) -> callback x <> FlushCompletion who.

Definition quietAudio (who : Speaker) (w : World) : Prop :=
  forall x, In x (timers w) -> callback x <> SendBufferedAudio who.

End Spec.

(* ===================================================================== *)
(** * Sample inputs *)
(* ===================================================================== *)

(** Concrete providers, messages and states on which the statements below
    are instantiated. *)
Module Samples.

Import JsString NodeBuffer Provider Stt Spec.
Local Open Scope Z_scope.

Definition gaiaInfo : ModelInfo := {| provider := "gaia"; apiKey := "key" |}.
Definition openaiInfo : ModelInfo := {| provider := "openai"; apiKey := "key" |}.
Definition geminiInfo : ModelInfo := {| provider := "gemini"; apiKey := "key" |}.

(** A session of a streaming provider. *)
Definition realtimeSession : Session :=
  {| hasSendRealtimeInput := true; hasTranscribeAudio := false |}.

Definition deltaMessage (text : string) : Message :=
  {| serverContent := None; type := deltaType; transcript := "";
     delta := text; alternative := ""; error := false |}.

Definition completedMessage (text : string) : Message :=
  {| serverContent := None; type := completedType; transcript := text;
     delta := ""; alternative := ""; error := false |}.

Definition transcriptionMessage (text : string) : Message :=
  {| serverContent := Some {| modelTurn := false; turnComplete := false;
                              inputTranscription := Some text |};
     type := ""; transcript := ""; delta := ""; alternative := ""; error := false |}.


(** Streaming services with both sessions open. *)
Definition openaiListening : World :=
  listening openaiInfo (Some realtimeSession) (Some realtimeSession) true true.

Definition geminiListening : World :=
  listening geminiInfo (Some realtimeSession) (Some realtimeSession) true true.

(** A streaming service with the capture process running. *)
Definition openaiCapturing : World :=
  fst (startMacOSAudioCapture "darwin" {| pid := Some 4242%nat |} None openaiListening).


(** A gaia service with both sessions open. *)
Definition gaiaListening : World :=
  listening gaiaInfo (Some gaiaCreateSTT) (Some gaiaCreateSTT) true true.

(** The same with the capture process running. *)
Definition gaiaCapturing : World :=
  fst (startMacOSAudioCapture "darwin" {| pid := Some 4242%nat |} None gaiaListening).

(** A gaia service, initialised through the event loop, whose local
    channel has received two bytes of audio at time 100. *)
Definition gaiaBuffering : World :=
  run [(0, SetCallbacks true true);
       (0, Initialize (Some gaiaInfo) (Ok (Some gaiaCreateSTT, Some gaiaCreateSTT)));
       (100, AudioContent Me [x01; x02] "" None)] boot.

(** A streaming service whose local channel holds a completed utterance
    that has not been flushed yet. *)
Definition openaiPending : World :=
  run [(0, SetCallbacks true true);
       (0, Initialize (Some openaiInfo) (Ok (Some realtimeSession, Some realtimeSession)));
       (100, ProviderMessage Me (completedMessage "hello"))] boot.

End Samples.

(* ===================================================================== *)
(** * More string primitives *)
(* ===================================================================== *)

Module JsText.

(** [s.endsWith(suffix)] *)
Definition endsWith (s suffix : string) : bool :=
  (String.length suffix <=? String.length s)%nat
  && String.eqb (substring (String.length s - String.length suffix)
                   (String.length suffix) s) suffix.

(** [s.slice(0, -n)] *)
Definition dropEnd (n : nat) (s : string) : string :=
  substring 0 (String.length s - n) s.

(** [`${n}`] for an integer. *)
Definition showNumber (n : Z) : string := NilZero.string_of_int (Z.to_int n).

End JsText.

(* ===================================================================== *)
(** * ModelStateService *)
(* ===================================================================== *)

(** The service that keeps, per user, the API keys and URLs of the
    providers and the selected LLM and STT models.

    A JavaScript object is the list of its own properties in insertion
    order (property names here are provider ids, never array indices);
    [PROVIDERS], which the service imports from the factory, and the id
    that [authService.getCurrentUserId()] answers are parameters.  The
    [electron-store] behind [this.store] is a table from user ids to
    what [JSON.stringify] keeps of a state; [store.get(path, default)]
    answers the stored value or else the very [default] it was given.
    The [console.log] calls, [_logCurrentSelection] among them, have no
    effect on the state and are left out. *)
Module ModelState.

Import JsString JsText.
Local Open Scope string_scope.
Local Open Scope js_scope.

(** The values that occur as keys and URLs. *)
Inductive JsVal : Type :=
| Undefined
| Null
| Str (s : string).

(** A value used as a condition. *)
Definition valTruthy (v : JsVal) : bool :=
  match v with
  | Str s => truthy s
  | _ => false
  end.

(** A value inside a template literal. *)
Definition render (v : JsVal) : string :=
  match v with
  | Undefined => "undefined"
  | Null => "null"
  | Str s => s
  end.

Abbreviation Obj := (list (string * JsVal)) (only parsing).

(** [o[k]] when [k] is an own property. *)
Fixpoint lookup (k : string) (o : Obj) : option JsVal :=
  match o with
  | [] => None
  | (k', v) :: rest => if String.eqb k' k then Some v else lookup k rest
  end.

(** [Object.hasOwn(o, k)] *)
Definition hasOwn (k : string) (o : Obj) : bool :=
  match lookup k o with
  | Some _ => true
  | None => false
  end.

(** The property names every plain object inherits from
    [Object.prototype]. *)
Definition objectPrototypeNames : list string :=
  ["constructor"; "__defineGetter__"; "__defineSetter__"; "hasOwnProperty";
   "__lookupGetter__"; "__lookupSetter__"; "isPrototypeOf";
   "propertyIsEnumerable"; "toString"; "valueOf"; "__proto__";
   "toLocaleString"].

Definition inherited (k : string) : bool :=
  existsb (String.eqb k) objectPrototypeNames.

(** [k in o]: an own property, or one inherited from
    [Object.prototype]. *)
Definition has (k : string) (o : Obj) : bool :=
  hasOwn k o || inherited k.

(** [o[k]], for an own property or a name the object does not have at
    all.  The service reads only under the provider names of
    [PROVIDERS]; a read under an inherited name that is not an own
    property, which finds a built-in function, is outside the model. *)
Definition get (k : string) (o : Obj) : JsVal :=
  match lookup k o with
  | Some v => v
  | None => Undefined
  end.

(** [o[k] = v]: an existing property keeps its place, a new one goes
    last.  This is what the assignment does for every name but
    [__proto__], which reaches the setter of [Object.prototype] and
    creates no property; that name is outside the model. *)
Fixpoint assign (k : string) (v : JsVal) (o : Obj) : Obj :=
  match o with
  | [] => [(k, v)]
  | (k', v') :: rest =>
      if String.eqb k' k then (k', v) :: rest else (k', v') :: assign k v rest
  end.

(** What [JSON.stringify] keeps of an object: the properties whose value
    is not [undefined]. *)
Definition stringified (o : Obj) : Obj :=
  filter (fun kv => match snd kv with Undefined => false | _ => true end) o.

Record Model : Type := { id : string; name : string }.

Record ProviderConfig : Type := {
  llmModels : list Model;
  sttModels : list Model
}.

Inductive ModelType : Type := Llm | Stt.

(** [type === 'llm' ? PROVIDERS[p].llmModels : PROVIDERS[p].sttModels] *)
Definition modelsOf (type : ModelType) (c : ProviderConfig) : list Model :=
  match type with
  | Llm => llmModels c
  | Stt => sttModels c
  end.

(** [selectedModels]: a model id or [null]. *)
Record Selected : Type := { llm : option string; stt : option string }.

Definition selected (type : ModelType) (sel : Selected) : option string :=
  match type with
  | Llm => llm sel
  | Stt => stt sel
  end.

Definition setSelected (type : ModelType) (v : option string) (sel : Selected)
  : Selected :=
  match type with
  | Llm => {| llm := v; stt := stt sel |}
  | Stt => {| llm := llm sel; stt := v |}
  end.

(** A model id used as a condition. *)
Definition idTruthy (m : option string) : bool :=
  match m with
  | Some s => truthy s
  | None => false
  end.

(** [this.state.apiUrls]: the very object [this.state.apiKeys] is, an
    object of its own, or [undefined]. *)
Inductive Urls : Type :=
| SameAsKeys
| Own (o : Obj)
| Missing.

Record State : Type := {
  apiKeys : Obj;
  urls : Urls;
  selectedModels : Selected
}.

Definition apiUrls (s : State) : option Obj :=
  match urls s with
  | SameAsKeys => Some (apiKeys s)
  | Own o => Some o
  | Missing => None
  end.

Definition setSelectedModels (sel : Selected) (s : State) : State :=
  {| apiKeys := apiKeys s; urls := urls s; selectedModels := sel |}.

(** [this.state.apiKeys[p] = v] *)
Definition writeKey (p : string) (v : JsVal) (s : State) : State :=
  {| apiKeys := assign p v (apiKeys s); urls := urls s;
     selectedModels := selectedModels s |}.

(** [this.state.apiUrls[p] = v] *)
Definition writeUrl (p : string) (v : JsVal) (s : State) : result State :=
  match urls s with
  | SameAsKeys => Ok (writeKey p v s)
  | Own o => Ok {| apiKeys := apiKeys s; urls := Own (assign p v o);
                   selectedModels := selectedModels s |}
  | Missing => Throw TypeError
  end.

(** What the store keeps of a state. *)
Record Stored : Type := {
  storedUrls : option Obj;
  storedKeys : Obj;
  storedSelected : Selected
}.

Definition stringify (s : State) : Stored :=
  {| storedUrls := option_map stringified (apiUrls s);
     storedKeys := stringified (apiKeys s);
     storedSelected := selectedModels s |}.

(** A stored value read back: every object is a new one. *)
Definition parsed (st : Stored) : State :=
  {| apiKeys := storedKeys st;
     urls := match storedUrls st with
             | Some o => Own o
             | None => Missing
             end;
     selectedModels := storedSelected st |}.

Record Service : Type := {
  state : State;
  store : list (string * Stored)
}.

Definition setState (s : State) (svc : Service) : Service :=
  {| state := s; store := store svc |}.

Fixpoint storeGet (user : string) (t : list (string * Stored)) : option Stored :=
  match t with
  | [] => None
  | (u, st) :: rest => if String.eqb u user then Some st else storeGet user rest
  end.

Fixpoint storeSet (user : string) (st : Stored) (t : list (string * Stored))
  : list (string * Stored) :=
  match t with
  | [] => [(user, st)]
  | (u, old) :: rest =>
      if String.eqb u user then (u, st) :: rest else (u, old) :: storeSet user st rest
  end.

(** A [Map] from ids to models: [set] on a key that is present replaces
    the value where it stands. *)
Fixpoint mapSet (k : string) (m : Model) (acc : list (string * Model))
  : list (string * Model) :=
  match acc with
  | [] => [(k, m)]
  | (k', m') :: rest =>
      if String.eqb k' k then (k', m) :: rest else (k', m') :: mapSet k m rest
  end.

(** The outcome of a [fetch]: it rejects, or it resolves with a
    response; [errorMessage] is [errorData.error?.message] of the body,
    absent when the body has none or is not JSON. *)
Record Response : Type := {
  ok : bool;
  status : Z;
  errorMessage : option string
}.

Inductive Fetched : Type :=
| Rejected (reason : string)
| Resolved (response : Response).

(** What [validateApiKey] resolves with. *)
Record Validation : Type := { success : bool; error : option string }.

(** How the [model:remove-api-key] handler ends. *)
Inductive Ending : Type :=
| Returns (v : bool)
| ThrowsTypeError
| ThrowsReferenceError (variable : string).

(** [url.replace(/\/v1\/?$/, '')]: the match is the final ["/v1"] or
    ["/v1/"] of the string, if it ends with one; no earlier position can
    match, since the pattern has to reach the end. *)
Definition stripV1 (url : string) : string :=
  if endsWith url "/v1/" then dropEnd 4 url
  else if endsWith url "/v1" then dropEnd 3 url
  else url.

Section Service.

(** [PROVIDERS], as the list of its entries, and the id of the current
    user. *)
Variable PROVIDERS : list (string * ProviderConfig).
Variable userId : string.

(** [PROVIDERS[provider]] *)
Fixpoint entry (provider : string) (ps : list (string * ProviderConfig))
  : option ProviderConfig :=
  match ps with
  | [] => None
  | (p, c) :: rest => if String.eqb p provider then Some c else entry provider rest
  end.

(** ** getProviderForModel *)

Definition getProviderForModel (type : ModelType) (modelId : option string)
  : option string :=
  if negb (idTruthy modelId) then None
  else
    option_map fst
      (find (fun pc =>
               existsb (fun m => match modelId with
                                 | Some x => String.eqb (id m) x
                                 | None => false
                                 end)
                 (modelsOf type (snd pc)))
         PROVIDERS).

(** ** getApiKey, getApiUrl *)

(** [v || null] for a key or URL, as a string or [null]. *)
Definition orNull (v : JsVal) : option string :=
  match v with
  | Str s => if truthy s then Some s else None
  | _ => None
  end.

Definition getApiKey (provider : string) (s : State) : option string :=
  orNull (get provider (apiKeys s)).

Definition getApiUrl (provider : string) (s : State) : result (option string) :=
  match apiUrls s with
  | Some o => Ok (orNull (get provider o))
  | None => Throw TypeError
  end.

(** ** getAllApiUrls, getAllApiKeys *)

(** [const { 'openai-glass': _, ...displayKeys } = o] *)
Definition withoutGlass (o : Obj) : Obj :=
  filter (fun kv => negb (String.eqb (fst kv) "openai-glass")) o.

Definition getAllApiKeys (s : State) : Obj := withoutGlass (apiKeys s).

Definition getAllApiUrls (s : State) : result Obj :=
  match apiUrls s with
  | Some o => Ok (withoutGlass o)
  | None => Throw TypeError
  end.

(** ** getAvailableModels *)

Definition getAvailableModels (type : ModelType) (s : State) : list Model :=
  let available :=
    flat_map (fun kv =>
                if valTruthy (snd kv) then
                  match entry (fst kv) PROVIDERS with
                  | Some c => modelsOf type c
                  | None => []
                  end
                else [])
      (apiKeys s) in
  map snd (fold_left (fun acc item => mapSet (id item) item acc) available []).

(** ** _autoSelectAvailableModels *)

(** [isCurrentModelValid] at the end of the first [if] of a round. *)
Definition isCurrentModelValid (type : ModelType) (s : State) : bool :=
  let currentModelId := selected type (selectedModels s) in
  if idTruthy currentModelId then
    match getProviderForModel type currentModelId with
    | Some provider =>
        match getApiKey provider s with
        | Some _ => true
        | None => false
        end
    | None => false
    end
  else false.

(** One round of the [forEach]. *)
Definition autoSelect (type : ModelType) (s : State) : State :=
  if isCurrentModelValid type s then s
  else
    match getAvailableModels type s with
    | first :: _ =>
        setSelectedModels (setSelected type (Some (id first)) (selectedModels s)) s
    | [] => setSelectedModels (setSelected type None (selectedModels s)) s
    end.

Definition _autoSelectAvailableModels (s : State) : State :=
  autoSelect Stt (autoSelect Llm s).

(** ** _saveState *)

Definition _saveState (svc : Service) : Service :=
  {| state := state svc;
     store := storeSet userId (stringify (state svc)) (store svc) |}.

(** ** _loadStateForCurrentUser *)

(** [Object.keys(PROVIDERS).reduce((acc, key) => { acc[key] = null; return acc }, {})] *)
Definition initialApiKeys : Obj :=
  fold_left (fun acc key => assign key Null acc) (map fst PROVIDERS) [].

(** [apiUrls] and [apiKeys] of the default state are one object. *)
Definition defaultState : State :=
  {| apiKeys := initialApiKeys; urls := SameAsKeys;
     selectedModels := {| llm := None; stt := None |} |}.

(** The loop that gives every provider an entry in both objects.  The
    assignment into [apiUrls] throws when [apiUrls] is [undefined]. *)
Fixpoint fillProviders (ps : list string) (s : State) : State * result unit :=
  match ps with
  | [] => (s, Ok tt)
  | p :: rest =>
      let s := if negb (has p (apiKeys s)) then writeKey p Null s else s in
      let absent :=
        match apiUrls s with
        | Some o => negb (has p o)
        | None => true
        end in
      if absent then
        match writeUrl p Null s with
        | Ok s => fillProviders rest s
        | Throw e => (s, Throw e)
        end
      else fillProviders rest s
  end.

Definition _loadStateForCurrentUser (svc : Service) : Service * result unit :=
  let loaded :=
    match storeGet userId (store svc) with
    | Some st => parsed st
    | None => defaultState
    end in
  match fillProviders (map fst PROVIDERS) loaded with
  | (s, Throw e) => (setState s svc, Throw e)
  | (s, Ok _) => (_saveState (setState (_autoSelectAvailableModels s) svc), Ok tt)
  end.

(** ** setApiUrl, setApiKey *)

Definition setApiUrl (provider : string) (key : JsVal) (svc : Service)
  : Service * result bool :=
  match apiUrls (state svc) with
  | None => (svc, Throw TypeError)
  | Some o =>
      if has provider o then
        match writeUrl provider key (state svc) with
        | Ok s => (_saveState (setState s svc), Ok true)
        | Throw e => (svc, Throw e)
        end
      else (svc, Ok false)
  end.

(** [if (!selected[type] && models?.length > 0) selected[type] = models[0].id] *)
Definition selectFirstIfNone (type : ModelType) (provider : string) (s : State)
  : State :=
  if negb (idTruthy (selected type (selectedModels s))) then
    match entry provider PROVIDERS with
    | Some c =>
        match modelsOf type c with
        | first :: _ =>
            setSelectedModels (setSelected type (Some (id first)) (selectedModels s)) s
        | [] => s
        end
    | None => s
    end
  else s.

Definition setApiKey (provider : string) (key : JsVal) (svc : Service)
  : Service * bool :=
  if has provider (apiKeys (state svc)) then
    let s := writeKey provider key (state svc) in
    let s := selectFirstIfNone Llm provider s in
    let s := selectFirstIfNone Stt provider s in
    (_saveState (setState s svc), true)
  else (svc, false).

(** ** setFirebaseVirtualKey *)

Definition setFirebaseVirtualKey (virtualKey : JsVal) (svc : Service) : Service :=
  let s := writeKey "openai-glass" virtualKey (state svc) in
  let s := selectFirstIfNone Llm "openai-glass" s in
  let s := selectFirstIfNone Stt "openai-glass" s in
  let s := _autoSelectAvailableModels s in
  _saveState (setState s svc).

(** ** removeApiUrl, removeApiKey *)

Definition removeApiUrl (provider : string) (svc : Service) : Service * result bool :=
  match apiUrls (state svc) with
  | None => (svc, Throw TypeError)
  | Some o =>
      if has provider o then
        match writeUrl provider Null (state svc) with
        | Ok s => (_saveState (setState (_autoSelectAvailableModels s) svc), Ok true)
        | Throw e => (svc, Throw e)
        end
      else (svc, Ok false)
  end.

(** [if (getProviderForModel(type, selected[type]) === provider) selected[type] = null] *)
Definition deselectIfOf (type : ModelType) (provider : string) (s : State) : State :=
  match getProviderForModel type (selected type (selectedModels s)) with
  | Some p =>
      if String.eqb p provider
      then setSelectedModels (setSelected type None (selectedModels s)) s
      else s
  | None => s
  end.

Definition removeApiKey (provider : string) (svc : Service) : Service * bool :=
  if has provider (apiKeys (state svc)) then
    let s := writeKey provider Null (state svc) in
    let s := deselectIfOf Llm provider s in
    let s := deselectIfOf Stt provider s in
    let s := _autoSelectAvailableModels s in
    (_saveState (setState s svc), true)
  else (svc, false).

(** ** getCurrentProvider, areProvidersConfigured *)

Definition getCurrentProvider (type : ModelType) (s : State) : option string :=
  getProviderForModel type (selected type (selectedModels s)).

(** [Object.entries(apiKeys).some(([provider, key]) =>
      key && PROVIDERS[provider]?.llmModels.length > 0)],
    and the same with [sttModels].  The optional chain stops only at a
    missing [PROVIDERS[provider]]: under a name that [PROVIDERS] does
    not own but inherits from [Object.prototype] it finds a built-in,
    whose [llmModels] is [undefined], and reading [length] throws. *)
Fixpoint someKeyFor (type : ModelType) (entries : Obj) : result bool :=
  match entries with
  | [] => Ok false
  | (provider, key) :: rest =>
      if valTruthy key then
        match entry provider PROVIDERS with
        | Some c =>
            if (0 <? List.length (modelsOf type c))%nat then Ok true
            else someKeyFor type rest
        | None =>
            if inherited provider then Throw TypeError
            else someKeyFor type rest
        end
      else someKeyFor type rest
  end.

(** [loggedIn] is what [isLoggedInWithFirebase()] answers. *)
Definition areProvidersConfigured (loggedIn : bool) (s : State) : result bool :=
  if loggedIn then Ok true
  else
    hasLlmKey <- someKeyFor Llm (apiKeys s) ;;
    hasSttKey <- someKeyFor Stt (apiKeys s) ;;
    Ok (hasLlmKey && hasSttKey).

(** ** getSelectedModels, setSelectedModel *)

Definition getSelectedModels (s : State) : Selected := selectedModels s.

Definition setSelectedModel (type : ModelType) (modelId : option string)
    (svc : Service) : Service * bool :=
  match getProviderForModel type modelId with
  | Some provider =>
      if valTruthy (get provider (apiKeys (state svc))) then
        (_saveState
           (setState
              (setSelectedModels
                 (setSelected type modelId (selectedModels (state svc))) (state svc))
              svc),
         true)
      else (svc, false)
  | None => (svc, false)
  end.

(** ** getCurrentModelInfo *)

Record ModelInfo : Type := {
  provider : string;
  model : string;
  apiUrl : option string;
  apiKey : option string
}.

Definition getCurrentModelInfo (type : ModelType) (s : State)
  : result (option ModelInfo) :=
  match selected type (selectedModels s) with
  | None => Ok None
  | Some m =>
      if negb (truthy m) then Ok None
      else
        match getProviderForModel type (Some m) with
        | None => Ok None
        | Some p =>
            url <- getApiUrl p s ;;
            Ok (Some {| provider := p; model := m; apiUrl := url;
                        apiKey := getApiKey p s |})
        end
  end.

(** ** validateApiKey *)

(** [!v || v.trim() === ''] *)
Definition isEmpty (v : JsVal) : bool :=
  match v with
  | Str s => negb (truthy s) || String.eqb (trim s) ""
  | _ => true
  end.

(** The URL of the validation request, for the providers validated with
    a [GET]. *)
Definition validationUrl (provider : string) (key url : JsVal) : option string :=
  if String.eqb provider "openai" then Some "https://api.openai.com/v1/models"
  else if String.eqb provider "gaia" then
    match url with
    | Str u => Some (stripV1 u ++ "/v1/models")
    | _ => None
    end
  else if String.eqb provider "gemini" then
    Some ("https://generativelanguage.googleapis.com/v1beta/models?key=" ++ render key)
  else None.

(** [this.setApiUrl(provider, url); this.setApiKey(provider, key)] *)
Definition storeValidated (provider : string) (key url : JsVal) (svc : Service)
  : Service * result unit :=
  match setApiUrl provider url svc with
  | (svc, Throw e) => (svc, Throw e)
  | (svc, Ok _) => (fst (setApiKey provider key svc), Ok tt)
  end.

Definition failure (message : string) : Validation :=
  {| success := false; error := Some message |}.

(** [errorData.error?.message || `Validation failed with status: ${response.status}`] *)
Definition failureMessage (r : Response) : string :=
  match errorMessage r with
  | Some m => if truthy m then m
              else "Validation failed with status: " ++ showNumber (status r)
  | None => "Validation failed with status: " ++ showNumber (status r)
  end.

(** [net] is the outcome of the one [fetch] the call makes, if it makes
    one. *)
Definition validateApiKey (provider : string) (key url : JsVal) (net : Fetched)
    (svc : Service) : Service * result Validation :=
  if isEmpty key && negb (String.eqb provider "gaia") then
    (svc, Ok (failure "API key cannot be empty."))
  else if isEmpty url && String.eqb provider "gaia" then
    (svc, Ok (failure "API url cannot be empty."))
  else if String.eqb provider "openai" || String.eqb provider "gaia"
          || String.eqb provider "gemini" then
    match net with
    | Rejected _ => (svc, Ok (failure "A network error occurred during validation."))
    | Resolved r =>
        if ok r then
          match storeValidated provider key url svc with
          | (svc, Ok _) => (svc, Ok {| success := true; error := None |})
          | (svc, Throw _) =>
              (svc, Ok (failure "A network error occurred during validation."))
          end
        else (svc, Ok (failure (failureMessage r)))
    end
  else if String.eqb provider "anthropic" then
    if negb (prefix "sk-ant-" (render key)) then
      (svc, Throw (GenericError "Invalid Anthropic key format."))
    else
      match net with
      | Rejected reason => (svc, Throw (GenericError reason))
      | Resolved r =>
          if negb (ok r) && negb (status r =? 400)%Z then
            (svc, Ok (failure (failureMessage r)))
          else
            match storeValidated provider key url svc with
            | (svc, Ok _) => (svc, Ok {| success := true; error := None |})
            | (svc, Throw e) => (svc, Throw e)
            end
      end
  else (svc, Ok (failure "Unknown provider.")).

(** ** The [model:remove-api-key] handler *)

(** [notified] tells whether [force-show-apikey-header] was sent to the
    web contents.  The handler ends with [return success], and no
    variable [success] is in scope. *)
Definition removeApiKeyHandler (provider : string) (svc : Service)
  : Service * bool * Ending :=
  match removeApiUrl provider svc with
  | (svc, Throw _) => (svc, false, ThrowsTypeError)
  | (svc, Ok successUrl) =>
      let out := removeApiKey provider svc in
      let svc := fst out in
      let successKey := snd out in
      let notified :=
        successUrl && successKey &&
        (negb (idTruthy (llm (getSelectedModels (state svc))))
         || negb (idTruthy (stt (getSelectedModels (state svc))))) in
      (svc, notified, ThrowsReferenceError "success")
  end.

End Service.

(** *** Vocabulary of the statements *)

(** The configuration lists a model with the id for the type. *)
Definition lists (type : ModelType) (c : ProviderConfig) (m : string) : Prop :=
  exists x, In x (modelsOf type c) /\ id x = m.

(** Some provider that has an entry in [PROVIDERS] and a key that is
    not empty lists the model. *)
Definition offered (PROVIDERS : list (string * ProviderConfig))
    (type : ModelType) (m : string) (s : State) : Prop :=
  exists p key c,
    In (p, key) (apiKeys s) /\ valTruthy key = true /\
    entry p PROVIDERS = Some c /\ lists type c m.

(** No property value is [undefined], as in an object read from
    JSON. *)
Definition defined (o : list (string * JsVal)) : Prop :=
  Forall (fun kv => snd kv <> Undefined) o.

(** Every provider of the list has an entry in [apiKeys] and in
    [apiUrls]. *)
Definition filledFor (ps : list string) (s : State) : Prop :=
  forall p, In p ps ->
    has p (apiKeys s) = true /\
    exists o, apiUrls s = Some o /\ has p o = true.

End ModelState.

(** Sample providers and states of the model state service. *)
Module ModelSamples.

Import ModelState.
Local Open Scope string_scope.

Definition sampleProviders : list (string * ProviderConfig) :=
  [("openai", {| llmModels := [{| id := "gpt-4.1"; name := "GPT-4.1" |}];
                 sttModels := [{| id := "gpt-4o-mini-transcribe";
                                  name := "GPT-4o Mini Transcribe" |}] |});
   ("gaia", {| llmModels := [{| id := "gaia-chat"; name := "Gaia Chat" |}];
               sttModels := [{| id := "whisper"; name := "Whisper" |}] |});
   ("openai-glass", {| llmModels := [{| id := "gpt-4.1-glass"; name := "GPT-4.1 (glass)" |}];
                       sttModels := [] |})].

(** A service that has never stored anything. *)
Definition emptyService : Service :=
  {| state := {| apiKeys := []; urls := Missing;
                 selectedModels := {| llm := None; stt := None |} |};
     store := [] |}.

(** The service after its first start for the user ["alice"]. *)
Definition freshService : Service :=
  fst (_loadStateForCurrentUser sampleProviders "alice" emptyService).

(** A state read from storage, with keys for openai and gaia. *)
Definition keyedState : State :=
  {| apiKeys := [("openai", Str "sk-1"); ("gaia", Str "gk"); ("openai-glass", Null)];
     urls := Own [("openai", Null); ("gaia", Str "http://gaia.local/v1");
                  ("openai-glass", Null)];
     selectedModels := {| llm := Some "gpt-4.1"; stt := Some "whisper" |} |}.

Definition keyedService : Service := {| state := keyedState; store := [] |}.

(** A service constructed over a store that holds a state of
    ["alice"]. *)
Definition storedService : Service :=
  {| state := state emptyService; store := [("alice", stringify keyedState)] |}.

(** A service constructed over a store whose state of ["alice"] has no
    [apiUrls] property. *)
Definition legacyService : Service :=
  {| state := state emptyService;
     store := [("alice", {| storedUrls := None;
                            storedKeys := [("openai", Str "sk-1")];
                            storedSelected := {| llm := Some "gpt-4.1"; stt := None |} |})] |}.

End ModelSamples.

(* ===================================================================== *)
(** * The gaia provider: chat requests *)
(* ===================================================================== *)

(** [createStreamingLLM] and [createLLM] of the gaia provider, up to the
    requests they build. *)
Module Gaia.

Import JsString JsText.
Local Open Scope string_scope.
Local Open Scope js_scope.

(** ** createStreamingLLM *)

(** The URL [streamChat] posts to. *)
Definition finalApiUrl (apiUrl : string) : string :=
  if endsWith apiUrl "/v1/chat/completions" then apiUrl
  else (if endsWith apiUrl "/" then dropEnd 1 apiUrl else apiUrl)
       ++ "/v1/chat/completions".

(** ** createLLM *)

(** An element of the [parts] given to [generateContent]: a string, an
    object with [inlineData], any other value that has properties, or
    [null] / [undefined], on which reading [part.inlineData] throws. *)
Inductive Part : Type :=
| TextPart (text : string)
| InlinePart (mimeType data : string)
| PlainPart
| NullPart.

Inductive Content : Type :=
| TextContent (text : string)                (* { type: 'text', text } *)
| ImageUrl (url : string).                   (* { type: 'image_url', image_url: { url } } *)

Inductive ChatMessage : Type :=
| SystemMessage (content : string)
| UserMessage (content : list Content).

(** The [for (const part of parts)] loop over [systemPrompt] and
    [userContent]. *)
Fixpoint collectParts (parts : list Part) (systemPrompt : string)
    (userContent : list Content) : result (string * list Content) :=
  match parts with
  | [] => Ok (systemPrompt, userContent)
  | part :: rest =>
      match part with
      | TextPart text =>
          if String.eqb systemPrompt "" && includes text "You are"
          then collectParts rest text userContent
          else collectParts rest systemPrompt (userContent ++ [TextContent text])%list
      | InlinePart mimeType data =>
          collectParts rest systemPrompt
            (userContent ++ [ImageUrl ("data:" ++ mimeType ++ ";base64," ++ data)])%list
      | PlainPart => collectParts rest systemPrompt userContent
      | NullPart => Throw TypeError
      end
  end.

(** The [messages] that [generateContent] passes to [callApi]. *)
Definition chatMessages (parts : list Part) : result (list ChatMessage) :=
  collected <- collectParts parts "" [] ;;
  let systemPrompt := fst collected in
  let userContent := snd collected in
  let messages := if truthy systemPrompt then [SystemMessage systemPrompt] else [] in
  Ok (if (0 <? List.length userContent)%nat
      then (messages ++ [UserMessage userContent])%list
      else messages).

(** The first string among the parts that includes ["You are"]. *)
Fixpoint systemOf (parts : list Part) : option string :=
  match parts with
  | [] => None
  | TextPart text :: rest =>
      if includes text "You are" then Some text else systemOf rest
  | _ :: rest => systemOf rest
  end.

(** The strings and inline images among the parts, in order, as
    contents; when [taken] is false, the first string that includes
    ["You are"] is left out. *)
Fixpoint contentsOf (taken : bool) (parts : list Part) : list Content :=
  match parts with
  | [] => []
  | TextPart text :: rest =>
      if negb taken && includes text "You are" then contentsOf true rest
      else TextContent text :: contentsOf taken rest
  | InlinePart mimeType data :: rest =>
      ImageUrl ("data:" ++ mimeType ++ ";base64," ++ data) :: contentsOf taken rest
  | _ :: rest => contentsOf taken rest
  end.

(** A part that becomes a message or part of one. *)
Definition isContentPart (p : Part) : bool :=
  match p with
  | TextPart _ | InlinePart _ _ => true
  | _ => false
  end.

End Gaia.

(* ===================================================================== *)
(** * Buffers: blitting and little-endian fields *)
(* ===================================================================== *)

Section BufferFacts.

Import NodeBuffer.
Local Open Scope Z_scope.

Lemma blit_length bs off buf :
  List.length (blit bs off buf) = List.length buf.
Proof.
  revert bs off; induction buf as [|b rest IH]; intros bs off; simpl.
  - reflexivity.
  - destruct off as [|k].
    + destruct bs as [|x xs]; simpl; [reflexivity | now rewrite IH].
    + simpl; now rewrite IH.
Qed.

Lemma blit_nil off buf : blit [] off buf = buf.
Proof.
  revert off; induction buf as [|b rest IH]; intros [|k]; simpl; try reflexivity.
  now rewrite IH.
Qed.

(** A write that ends inside the first part of a buffer leaves the rest
    alone. *)
Lemma blit_app_l bs off pre post :
  (off + List.length bs <= List.length pre)%nat ->
  blit bs off (pre ++ post) = blit bs off pre ++ post.
Proof.
  revert bs off; induction pre as [|b rest IH]; intros bs off Hle; simpl in *.
  - assert (bs = []) by (destruct bs; [reflexivity | simpl in Hle; lia]).
    subst bs. now rewrite blit_nil.
  - destruct off as [|k].
    + destruct bs as [|x xs]; [reflexivity|].
      simpl in Hle. rewrite (IH xs 0%nat) by (simpl; lia). reflexivity.
    + rewrite (IH bs k) by lia. reflexivity.
Qed.

(** A write that starts where the first part ends leaves that part
    alone. *)
Lemma blit_app_r bs pre post :
  blit bs (List.length pre) (pre ++ post) = pre ++ blit bs 0 post.
Proof.
  induction pre as [|b rest IH]; simpl; [reflexivity | now rewrite IH].
Qed.

Lemma blit_exact bs buf :
  List.length buf = List.length bs -> blit bs 0 buf = bs.
Proof.
  revert buf; induction bs as [|x xs IH]; intros [|b rest] Hlen;
    simpl in *; try reflexivity; try discriminate.
  rewrite IH by lia. reflexivity.
Qed.

Lemma toInt_small n : 0 <= n < 2147483648 -> toInt n = n.
Proof.
  intros H. unfold toInt. rewrite Z.mod_small by lia. lia.
Qed.

(** Below 2^31 bytes the capacity is the room there is. *)
Lemma writeCapacity_small remaining :
  Z.of_nat remaining < 2147483648 -> writeCapacity remaining = remaining.
Proof.
  intros H. unfold writeCapacity. rewrite toInt_small by lia.
  destruct (Z.eqb_spec (Z.of_nat remaining) (-1)); [lia|]. apply Nat2Z.id.
Qed.

(** From 2^31 to 2^32 - 2 bytes it is nothing. *)
Lemma writeCapacity_none remaining :
  2147483648 <= Z.of_nat remaining <= 4294967294 -> writeCapacity remaining = 0%nat.
Proof.
  intros H. unfold writeCapacity, toInt.
  replace (Z.of_nat remaining + 2147483648)
    with (Z.of_nat remaining - 2147483648 + 1 * 4294967296) by lia.
  rewrite Z_mod_plus_full, Z.mod_small by lia.
  destruct (Z.eqb_spec (Z.of_nat remaining - 2147483648 - 2147483648) (-1)); [lia|].
  lia.
Qed.

Lemma write_app s off pre post :
  (off + List.length (list_byte_of_string s) <= List.length pre)%nat ->
  Z.of_nat (List.length pre) + Z.of_nat (List.length post) < 2147483648 ->
  write s off (pre ++ post) = Ok (blit (list_byte_of_string s) off pre ++ post).
Proof.
  intros Hle Hsmall. unfold write.
  rewrite length_app.
  destruct (Nat.leb_spec off (List.length pre + List.length post)); [|lia].
  rewrite writeCapacity_small by lia.
  rewrite firstn_all2 by lia.
  now rewrite blit_app_l.
Qed.

(** At the start of a buffer of 2^31 to 2^32 - 2 bytes, [write] stores
    nothing. *)
Lemma write_nothing s buf :
  2147483648 <= Z.of_nat (List.length buf) <= 4294967294 ->
  write s 0 buf = Ok buf.
Proof.
  intros H. unfold write. cbn [Nat.leb]. rewrite Nat.sub_0_r.
  rewrite (writeCapacity_none _ H). cbn [firstn]. now rewrite blit_nil.
Qed.

Lemma lowBytes_length n v : List.length (lowBytes n v) = n.
Proof. revert v; induction n; intros v; simpl; [reflexivity | now rewrite IHn]. Qed.

Lemma writeUIntLE_app n num den off pre post :
  0 <= num <= den * (2 ^ (8 * Z.of_nat n) - 1) ->
  (off + n <= List.length pre)%nat ->
  writeUIntLE n num den off (pre ++ post)
  = Ok (blit (lowBytes n (num / den)) off pre ++ post).
Proof.
  intros [Hlo Hhi] Hle. unfold writeUIntLE.
  destruct (Z.ltb_spec num 0); [lia|].
  destruct (Z.ltb_spec (den * (2 ^ (8 * Z.of_nat n) - 1)) num); [lia|].
  simpl orb. cbv iota.
  rewrite length_app.
  destruct (Nat.leb_spec (off + n) (List.length pre + List.length post)); [|lia].
  rewrite blit_app_l by (rewrite lowBytes_length; lia).
  reflexivity.
Qed.

(** A value outside the field's range is refused whatever the buffer. *)
Lemma writeUInt32LE_out_of_range v off buf :
  4294967295 < v -> writeUInt32LE v off buf = Throw RangeError.
Proof.
  intros Hv. unfold writeUInt32LE, writeUIntLE.
  destruct (Z.ltb_spec v 0); [lia|].
  change (1 * (2 ^ (8 * Z.of_nat 4) - 1)) with 4294967295.
  destruct (Z.ltb_spec 4294967295 v); [reflexivity | lia].
Qed.

Lemma zOfByte_range b : 0 <= zOfByte b < 256.
Proof.
  unfold zOfByte. pose proof (Byte.to_N_bounded b). lia.
Qed.

Lemma zOfByte_byteOfZ z : zOfByte (byteOfZ z) = z mod 256.
Proof.
  unfold byteOfZ, zOfByte.
  pose proof (Z.mod_pos_bound z 256 ltac:(lia)) as Hm.
  destruct (Byte.of_N (Z.to_N (z mod 256))) as [b|] eqn:E.
  - apply Byte.to_of_N in E. rewrite E. lia.
  - apply Byte.of_N_None_iff in E. lia.
Qed.

Lemma byteOfZ_zOfByte b : byteOfZ (zOfByte b) = b.
Proof.
  unfold byteOfZ. pose proof (zOfByte_range b) as Hr.
  rewrite Z.mod_small by exact Hr.
  unfold zOfByte. rewrite N2Z.id, Byte.of_to_N. reflexivity.
Qed.

Lemma byteOfZ_mod z : byteOfZ (z mod 256) = byteOfZ z.
Proof. unfold byteOfZ. rewrite Z.mod_mod by lia. reflexivity. Qed.

Lemma lowBytes4_le32 v :
  0 <= v -> lowBytes 4 v = map byteOfZ (Wav.le32 v).
Proof.
  intros Hv. unfold Wav.le32. cbn [lowBytes map].
  rewrite !Z.shiftr_div_pow2 by lia.
  change (2 ^ 8) with 256.
  rewrite !Z.div_div by lia.
  rewrite !byteOfZ_mod.
  reflexivity.
Qed.

Lemma littleEndian_le32 v :
  0 <= v < 4294967296 -> littleEndian (map byteOfZ (Wav.le32 v)) = v.
Proof.
  intros Hv. unfold Wav.le32. cbn [littleEndian map].
  rewrite !zOfByte_byteOfZ, !Z.mod_mod by lia.
  replace (v / 65536) with (v / 256 / 256)
    by (rewrite Z.div_div by lia; reflexivity).
  replace (v / 16777216) with (v / 256 / 256 / 256)
    by (rewrite !Z.div_div by lia; reflexivity).
  assert (Hq : v / 256 / 256 / 256 / 256 = 0).
  { rewrite !Z.div_div by lia. apply Z.div_small. lia. }
  pose proof (Z.div_mod v 256 ltac:(lia)) as H1.
  pose proof (Z.div_mod (v / 256) 256 ltac:(lia)) as H2.
  pose proof (Z.div_mod (v / 256 / 256) 256 ltac:(lia)) as H3.
  pose proof (Z.div_mod (v / 256 / 256 / 256) 256 ltac:(lia)) as H4.
  rewrite Hq in H4.
  lia.
Qed.

End BufferFacts.

(* ===================================================================== *)
(** * pcmToWav *)
(* ===================================================================== *)

Section WavFacts.

Import NodeBuffer Wav.
Local Open Scope Z_scope.

(** The size field does not fit 32 bits: the encoder throws. *)
Lemma pcmToWav_too_long pcm :
  4294967295 < 36 + Z.of_nat (List.length pcm) ->
  pcmToWav pcm mono16at24k = Throw RangeError.
Proof.
  intros Hlen. unfold pcmToWav.
  unfold write at 1. cbn [Nat.leb bind].
  rewrite writeUInt32LE_out_of_range by exact Hlen.
  reflexivity.
Qed.

Lemma pcmToWav_bytes pcm :
  Z.of_nat (List.length pcm) + 44 < 2147483648 ->
  pcmToWav pcm mono16at24k
  = Ok (canonicalHeader (Z.of_nat (List.length pcm)) ++ pcm).
Proof.
  intros Hlen. unfold pcmToWav, mono16at24k, writeUInt32LE, writeUInt16LE.
  cbn [numChannels sampleRate bitDepth orDefault].
  set (n := List.length pcm) in *.
  set (size := Z.of_nat n) in *.
  set (total := 36 + size) in *.
  unfold alloc. rewrite repeat_app.
  set (tail := repeat x00 n).
  set (zeros := repeat x00 44).
  assert (Hz : List.length zeros = 44%nat) by reflexivity.
  assert (Ht : List.length tail = n) by apply repeat_length.
  repeat first
    [ rewrite write_app by
        (first [ rewrite ?blit_length, Hz; simpl; lia
               | rewrite ?blit_length, Hz, Ht; unfold size in *; lia ])
    | rewrite writeUIntLE_app by
        (first [ rewrite ?blit_length, Hz; simpl; lia
               | simpl; unfold total, size in *; lia ])
    | progress cbn [bind] ].
  unfold copy.
  match goal with
  | |- Ok (blit pcm 44 (?hdr ++ tail)) = _ =>
      replace 44%nat with (List.length hdr)
        by (now rewrite ?blit_length);
      rewrite (blit_app_r pcm hdr tail)
  end.
  rewrite (blit_exact pcm tail)
    by (unfold tail; now rewrite repeat_length).
  f_equal. f_equal.
  unfold canonicalHeader. fold total.
  rewrite !Z.div_1_r.
  rewrite (lowBytes4_le32 total) by (unfold total, size; lia).
  rewrite (lowBytes4_le32 size) by (unfold size; lia).
  unfold le32. cbn [map app].
  generalize (byteOfZ (total mod 256)) (byteOfZ ((total / 256) mod 256))
             (byteOfZ ((total / 65536) mod 256))
             (byteOfZ ((total / 16777216) mod 256))
             (byteOfZ (size mod 256)) (byteOfZ ((size / 256) mod 256))
             (byteOfZ ((size / 65536) mod 256))
             (byteOfZ ((size / 16777216) mod 256)).
  intros a0 a1 a2 a3 c0 c1 c2 c3.
  vm_compute. reflexivity.
Qed.

End WavFacts.

Section WavHeader.

Import NodeBuffer Wav Spec.
Local Open Scope Z_scope.

(** C2, as amended.  For a PCM buffer of N bytes whose WAV buffer stays
    below 2^31 bytes (N + 44 < 2147483648), [pcmToWav] at mono, 16 bit,
    24000 Hz returns a buffer of N + 44 bytes: the canonical header
    ("RIFF", 36 + N, "WAVE", "fmt ", 16, format tag 1, 1 channel,
    24000 Hz, byte rate 48000, block align 2, 16 bits, "data", N, each at
    its canonical offset) followed by the PCM bytes unchanged.  From
    2^31 bytes on [buf.write] no longer stores the tags. *)
Theorem pcmToWav_canonical (pcm : Buffer) :
  Z.of_nat (List.length pcm) + 44 < 2147483648 ->
  exists wav,
    pcmToWav pcm mono16at24k = Ok wav /\
    List.length wav = (List.length pcm + 44)%nat /\
    firstn 44 wav = canonicalHeader (Z.of_nat (List.length pcm)) /\
    skipn 44 wav = pcm /\
    bytesAt 0 4 wav = list_byte_of_string "RIFF" /\
    readUIntLE 4 4 wav = 36 + Z.of_nat (List.length pcm) /\
    bytesAt 8 4 wav = list_byte_of_string "WAVE" /\
    bytesAt 12 4 wav = list_byte_of_string "fmt " /\
    readUIntLE 4 16 wav = 16 /\
    readUIntLE 2 20 wav = 1 /\
    readUIntLE 2 22 wav = 1 /\
    readUIntLE 4 24 wav = 24000 /\
    readUIntLE 4 28 wav = 48000 /\
    readUIntLE 2 32 wav = 2 /\
    readUIntLE 2 34 wav = 16 /\
    bytesAt 36 4 wav = list_byte_of_string "data" /\
    readUIntLE 4 40 wav = Z.of_nat (List.length pcm).
Proof.
  intros Hlen.
  exists (canonicalHeader (Z.of_nat (List.length pcm)) ++ pcm).
  split; [now apply pcmToWav_bytes|].
  set (size := Z.of_nat (List.length pcm)) in *.
  assert (Hsize : 0 <= size < 4294967296) by (unfold size; lia).
  assert (Htotal : 0 <= 36 + size < 4294967296) by lia.
  pose proof (littleEndian_le32 _ Hsize) as Hs.
  pose proof (littleEndian_le32 _ Htotal) as Ht.
  unfold canonicalHeader, readUIntLE, bytesAt in *.
  unfold le32 in *. cbn [map app] in *.
  revert Hs Ht.
  generalize (byteOfZ ((36 + size) mod 256)) (byteOfZ (((36 + size) / 256) mod 256))
             (byteOfZ (((36 + size) / 65536) mod 256))
             (byteOfZ (((36 + size) / 16777216) mod 256))
             (byteOfZ (size mod 256)) (byteOfZ ((size / 256) mod 256))
             (byteOfZ ((size / 65536) mod 256))
             (byteOfZ ((size / 16777216) mod 256)).
  intros a0 a1 a2 a3 c0 c1 c2 c3 Hs Ht.
  repeat split; try reflexivity; try assumption.
  cbn [List.length app]. lia.
Qed.

Lemma pcmToWav_canonical_witness :
  Z.of_nat (List.length [x01; x02]) + 44 < 2147483648 /\
  exists wav,
    pcmToWav [x01; x02] mono16at24k = Ok wav /\
    List.length wav = (List.length [x01; x02] + 44)%nat /\
    firstn 44 wav = canonicalHeader (Z.of_nat (List.length [x01; x02])) /\
    skipn 44 wav = [x01; x02] /\
    bytesAt 0 4 wav = list_byte_of_string "RIFF" /\
    readUIntLE 4 4 wav = 36 + Z.of_nat (List.length [x01; x02]) /\
    bytesAt 8 4 wav = list_byte_of_string "WAVE" /\
    bytesAt 12 4 wav = list_byte_of_string "fmt " /\
    readUIntLE 4 16 wav = 16 /\
    readUIntLE 2 20 wav = 1 /\
    readUIntLE 2 22 wav = 1 /\
    readUIntLE 4 24 wav = 24000 /\
    readUIntLE 4 28 wav = 48000 /\
    readUIntLE 2 32 wav = 2 /\
    readUIntLE 2 34 wav = 16 /\
    bytesAt 36 4 wav = list_byte_of_string "data" /\
    readUIntLE 4 40 wav = Z.of_nat (List.length [x01; x02]).
Proof.
  split.
  - simpl. lia.
  - apply (@pcmToWav_canonical [x01; x02]). simpl. lia.
Defined.

(** C2, as stated, fails: a PCM buffer of 4294967260 bytes makes the
    RIFF size field 36 + N = 2^32, which [writeUInt32LE] refuses, so no
    WAV buffer is produced at all. *)
Lemma pcmToWav_rejects_oversized :
  pcmToWav (repeat x00 (Z.to_nat 4294967260)) mono16at24k = Throw RangeError.
Proof.
  apply pcmToWav_too_long.
  rewrite repeat_length, Z2Nat.id by (intro H; discriminate H).
  reflexivity.
Qed.

End WavHeader.

(* ===================================================================== *)
(** * The service: how the primitives act on the state *)
(* ===================================================================== *)

Section WorldFacts.

Import JsString NodeBuffer Provider Stt Spec.
Local Open Scope Z_scope.

Lemma channel_update_same who f w :
  channel who (update who f w) = f (channel who w).
Proof. destruct who; reflexivity. Qed.

Lemma channel_update_other who who' f w :
  who <> who' -> channel who' (update who f w) = channel who' w.
Proof. destruct who, who'; intros H; try reflexivity; now elim H. Qed.

Lemma modelInfo_update who f w :
  modelInfo (svc (update who f w)) = modelInfo (svc w).
Proof. destruct who; reflexivity. Qed.

Lemma onTranscriptionComplete_update who f w :
  onTranscriptionComplete (svc (update who f w)) = onTranscriptionComplete (svc w).
Proof. destruct who; reflexivity. Qed.

Lemma onStatusUpdate_update who f w :
  onStatusUpdate (svc (update who f w)) = onStatusUpdate (svc w).
Proof. destruct who; reflexivity. Qed.

Lemma systemAudioProc_update who f w :
  systemAudioProc (svc (update who f w)) = systemAudioProc (svc w).
Proof. destruct who; reflexivity. Qed.

Lemma transcriptEvents_app l1 l2 :
  transcriptEvents (l1 ++ l2) = transcriptEvents l1 ++ transcriptEvents l2.
Proof. apply filter_app. Qed.

Lemma finalEvents_app l1 l2 :
  finalEvents (l1 ++ l2) = finalEvents l1 ++ finalEvents l2.
Proof. apply filter_app. Qed.

Lemma transcribeCalls_app l1 l2 :
  transcribeCalls (l1 ++ l2) = transcribeCalls l1 ++ transcribeCalls l2.
Proof. apply filter_app. Qed.

Lemma meteringChunks_app l1 l2 :
  meteringChunks (l1 ++ l2) = meteringChunks l1 ++ meteringChunks l2.
Proof. apply flat_map_app. Qed.

(** The completion callback and the status callback never produce a
    transcript event or a transcription request. *)
Lemma notifyComplete_effects who text w :
  exists l, effects (notifyComplete who text w) = effects w ++ l /\
            transcriptEvents l = [] /\ transcribeCalls l = [] /\
            meteringChunks l = [].
Proof.
  unfold notifyComplete. destruct (onTranscriptionComplete (svc w)).
  - eexists. split; [reflexivity|]. repeat split.
  - exists []. rewrite app_nil_r. repeat split.
Qed.

Lemma notifyStatus_effects status w :
  exists l, effects (notifyStatus status w) = effects w ++ l /\
            transcriptEvents l = [] /\ transcribeCalls l = [] /\
            meteringChunks l = [].
Proof.
  unfold notifyStatus. destruct (onStatusUpdate (svc w)).
  - eexists. split; [reflexivity|]. repeat split.
  - exists []. rewrite app_nil_r. repeat split.
Qed.

Lemma notifyComplete_frame who text w :
  svc (notifyComplete who text w) = svc w /\
  timers (notifyComplete who text w) = timers w /\
  nextTimer (notifyComplete who text w) = nextTimer w /\
  now (notifyComplete who text w) = now w /\
  capture (notifyComplete who text w) = capture w.
Proof. unfold notifyComplete. destruct (onTranscriptionComplete (svc w)); repeat split. Qed.

Lemma notifyStatus_frame status w :
  svc (notifyStatus status w) = svc w /\
  timers (notifyStatus status w) = timers w /\
  nextTimer (notifyStatus status w) = nextTimer w /\
  now (notifyStatus status w) = now w /\
  capture (notifyStatus status w) = capture w.
Proof. unfold notifyStatus. destruct (onStatusUpdate (svc w)); repeat split. Qed.

End WorldFacts.

(* ===================================================================== *)
(** * The batch path: results and failures *)
(* ===================================================================== *)

Section BatchResults.

Import JsString NodeBuffer Provider Stt Spec.
Local Open Scope Z_scope.

(** C10.  The batch path tests the result for emptiness before it strips
    annotations: the result "[music]" is not blank, so a final transcript
    event is emitted, and after stripping its text is the empty
    string. *)
Theorem annotation_only_result_emits_empty_final :
  exists text : string,
    truthy (trim text) = true /\
    stripDelimited "[" "]" false text = EmptyString /\
    forall who w,
      transcriptEvents (effects (transcribeAudioSettled who (Ok (Some text)) w))
      = transcriptEvents (effects w) ++ [SttUpdate who "" false true (now w)].
Proof.
  exists "[music]"%string. split; [reflexivity|]. split; [reflexivity|].
  intros who w. unfold transcribeAudioSettled.
  change (truthy "[music]" && truthy (trim "[music]")) with true. cbv iota.
  change (trim (trim (stripDelimited "(" ")" false
                        (stripDelimited "[" "]" false "[music]"))))
    with EmptyString.
  destruct (notifyComplete_effects who (trim "[music]") w) as (l1 & E1 & T1 & _).
  destruct (notifyComplete_frame who (trim "[music]") w) as (S1 & _ & _ & N1 & _).
  set (w1 := notifyComplete who (trim "[music]") w) in *.
  set (w2 := emit (SttUpdate who "" false true (now w1)) w1).
  destruct (notifyStatus_effects "Listening..." w2) as (l2 & E2 & T2 & _).
  cbn [effects update withSvc].
  rewrite E2. subst w2. cbn [effects emit]. rewrite E1, N1.
  rewrite !transcriptEvents_app, T1, T2, !app_nil_r. reflexivity.
Qed.

(** The window timer's callback, up to the submission: it takes the
    buffer, clears buffer and handle, and logs at most one effect, either
    the request or an error. *)
Lemma sendBufferedAudio_shape who w :
  exists l,
    sendBufferedAudio who w
    = emitAll l (update who (setAudioTimer None) (update who (setAudioBuffer []) w)) /\
    transcriptEvents l = [] /\ meteringChunks l = [] /\
    (transcribeCalls l = [] \/
     exists wav, Wav.pcmToWav (concat (audioBuffer (channel who w))) Wav.mono16at24k = Ok wav /\
                 l = [TranscribeAudio who wav]).
Proof.
  unfold sendBufferedAudio.
  set (w' := update who (setAudioTimer None) (update who (setAudioBuffer []) w)).
  assert (Hnil : w' = emitAll [] w').
  { unfold emitAll. rewrite app_nil_r. destruct w'; reflexivity. }
  destruct (0 <? _)%nat.
  2:{ exists []. repeat split; auto. }
  destruct (Wav.pcmToWav _ _) as [wav|err] eqn:E.
  2:{ eexists. split; [reflexivity|]. repeat split; auto. }
  destruct (sttSession (channel who w')) as [s|].
  2:{ eexists. split; [reflexivity|]. repeat split; auto. }
  destruct (hasTranscribeAudio s).
  - eexists. split; [reflexivity|]. repeat split; eauto.
  - eexists. split; [reflexivity|]. repeat split; auto.
Qed.

Lemma sendBufferedAudio_clears who w :
  audioBuffer (channel who (sendBufferedAudio who w)) = [] /\
  audioTimer (channel who (sendBufferedAudio who w)) = None.
Proof.
  destruct (sendBufferedAudio_shape who w) as (l & -> & _).
  destruct who; split; reflexivity.
Qed.

(** C8.  The window timer's callback empties the pending buffer and
    clears the handle before it submits.  A submission that then fails
    only logs: the state is untouched, no transcript event appears, no
    second request is made.  The next audio that arrives opens a window
    of its own: it is alone in the buffer, under a newly armed 5000 ms
    timer. *)
Theorem batch_failure_leaves_clean_state
    who w e data mimeType fetched session mi :
  sttSession (channel who w) = Some session ->
  modelInfo (svc w) = Some mi ->
  provider mi = "gaia"%string ->
  let w1 := sendBufferedAudio who w in
  let w2 := transcribeAudioSettled who (Throw e) w1 in
  audioBuffer (channel who w1) = [] /\
  audioTimer (channel who w1) = None /\
  svc w2 = svc w1 /\
  timers w2 = timers w1 /\
  transcriptEvents (effects w2) = transcriptEvents (effects w) /\
  transcribeCalls (effects w2) = transcribeCalls (effects w1) /\
  exists w3,
    sendAudio who data mimeType fetched w2 = Ok w3 /\
    audioBuffer (channel who w3) = [data] /\
    audioTimer (channel who w3) = Some (nextTimer w2) /\
    timers w3 = timers w2 ++ [{| tid := nextTimer w2;
                                 due := now w2 + 5000;
                                 callback := SendBufferedAudio who |}].
Proof.
  intros Hs Hm Hp w1 w2.
  destruct (sendBufferedAudio_clears who w) as [Hb Ht].
  destruct (sendBufferedAudio_shape who w) as (l & Hw1 & Tl & _).
  fold w1 in Hb, Ht, Hw1.
  assert (Hsvc : svc w2 = svc w1) by reflexivity.
  assert (Hs1 : sttSession (channel who w1) = Some session).
  { rewrite Hw1. destruct who; exact Hs. }
  assert (Hm1 : modelInfo (svc w1) = Some mi).
  { rewrite Hw1. destruct who; exact Hm. }
  assert (Hc : forall A (f : Channel -> A), f (channel who w2) = f (channel who w1)).
  { intros A f. destruct who; reflexivity. }
  repeat split; try assumption; try reflexivity.
  - subst w2. cbn [effects transcribeAudioSettled emit].
    rewrite transcriptEvents_app. cbn. rewrite app_nil_r.
    rewrite Hw1. cbn [effects emitAll]. rewrite transcriptEvents_app, Tl.
    rewrite app_nil_r. destruct who; reflexivity.
  - subst w2. cbn [effects transcribeAudioSettled emit].
    rewrite transcribeCalls_app. cbn. apply app_nil_r.
  - unfold sendAudio.
    rewrite (Hc _ sttSession), Hs1, Hsvc, Hm1, Hp.
    change (String.eqb "gaia" "gaia") with true. cbv iota.
    rewrite channel_update_same. cbn [audioTimer setAudioBuffer].
    rewrite (Hc _ audioTimer), Ht, (Hc _ audioBuffer), Hb.
    eexists. split; [reflexivity|].
    rewrite channel_update_same.
    cbn [snd fst setTimeout].
    repeat split.
    destruct who; reflexivity.
Qed.

End BatchResults.

(* ===================================================================== *)
(** * Downmix and capture chunking *)
(* ===================================================================== *)

Section Downmix.

Import JsString NodeBuffer Provider Stt Spec.
Local Open Scope Z_scope.

Lemma byteOfZ_congr v b : v mod 256 = zOfByte b -> byteOfZ v = b.
Proof.
  intros H. rewrite <- byteOfZ_mod, H. apply byteOfZ_zOfByte.
Qed.

(** Reading a 16-bit sample and writing it back stores the same two
    bytes. *)
Lemma readInt16LE_at pre a b rest :
  readInt16LE (List.length pre) (pre ++ a :: b :: rest)
  = Ok (let u := zOfByte a + 256 * zOfByte b in
        if 32768 <=? u then u - 65536 else u).
Proof.
  unfold readInt16LE.
  rewrite skipn_app, skipn_all, Nat.sub_diag. reflexivity.
Qed.

Lemma writeInt16LE_sample mpre m0 m1 mrest a b :
  writeInt16LE (let u := zOfByte a + 256 * zOfByte b in
                if 32768 <=? u then u - 65536 else u)
               (List.length mpre) (mpre ++ m0 :: m1 :: mrest)
  = Ok (mpre ++ a :: b :: mrest).
Proof.
  pose proof (zOfByte_range a) as Ha. pose proof (zOfByte_range b) as Hb.
  cbv zeta. set (u := zOfByte a + 256 * zOfByte b).
  set (v := if 32768 <=? u then u - 65536 else u).
  assert (Hv : -32768 <= v <= 32767 /\ exists k, v = zOfByte a + 256 * (zOfByte b + 256 * k)).
  { unfold v. destruct (Z.leb_spec 32768 u); (split; [unfold u in *; lia|]).
    - exists (-1). unfold u. lia.
    - exists 0. unfold u. lia. }
  destruct Hv as [Hr [k Hk]].
  unfold writeInt16LE.
  destruct (Z.ltb_spec v (-32768)); [lia|].
  destruct (Z.ltb_spec 32767 v); [lia|].
  cbn [orb]. rewrite length_app. cbn [List.length].
  destruct (Nat.leb_spec (List.length mpre + 2)
              (List.length mpre + S (S (List.length mrest)))); [|lia].
  rewrite blit_app_r. cbn [lowBytes blit].
  assert (E0 : byteOfZ v = a).
  { apply byteOfZ_congr. rewrite Hk.
    rewrite Z.mul_comm, Z_mod_plus_full. apply Z.mod_small. exact Ha. }
  assert (E1 : byteOfZ (Z.shiftr v 8) = b).
  { apply byteOfZ_congr. rewrite Z.shiftr_div_pow2 by lia.
    change (2 ^ 8) with 256.
    replace v with (zOfByte a + (zOfByte b + 256 * k) * 256) by lia.
    rewrite Z_div_plus_full by lia.
    rewrite (Z.div_small (zOfByte a)) by exact Ha.
    rewrite Z.add_0_l, Z.mul_comm, Z_mod_plus_full. apply Z.mod_small. exact Hb. }
  rewrite E0, E1. rewrite blit_nil. reflexivity.
Qed.

Lemma copyLeftSamples_spec count :
  forall i pre body tail mpre mbody,
    List.length pre = (i * 4)%nat ->
    List.length mpre = (i * 2)%nat ->
    List.length body = (count * 4)%nat ->
    List.length mbody = (count * 2)%nat ->
    copyLeftSamples count i (pre ++ body ++ tail) (mpre ++ mbody)
    = Ok (mpre ++ leftChannel body).
Proof.
  induction count as [|k IH]; intros i pre body tail mpre mbody Hp Hm Hb Hmb.
  - destruct body; [|discriminate]. destruct mbody; [|discriminate]. reflexivity.
  - destruct body as [|a [|b [|c [|d body']]]]; try discriminate.
    destruct mbody as [|m0 [|m1 mbody']]; try discriminate.
    cbn [copyLeftSamples].
    rewrite <- Hp. cbn [app].
    rewrite readInt16LE_at. cbn [bind].
    rewrite <- Hm. rewrite writeInt16LE_sample. cbn [bind].
    change (a :: b :: c :: d :: body' ++ tail) with ([a; b; c; d] ++ body' ++ tail).
    change (a :: b :: mbody') with ([a; b] ++ mbody').
    rewrite !app_assoc. rewrite <- (app_assoc pre [a; b; c; d]).
    rewrite <- !app_assoc. rewrite (app_assoc pre), (app_assoc mpre).
    rewrite (IH (S i)).
    + rewrite <- app_assoc. reflexivity.
    + rewrite length_app. cbn [List.length]. lia.
    + rewrite length_app. cbn [List.length]. lia.
    + cbn [List.length] in Hb. lia.
    + cbn [List.length] in Hmb. lia.
Qed.

(** On whole frames the downmix succeeds and keeps the left-channel
    sample of every frame. *)
Lemma convertStereoToMono_frames stereo k :
  List.length stereo = (k * 4)%nat ->
  convertStereoToMono stereo = Ok (leftChannel stereo).
Proof.
  intros Hlen. unfold convertStereoToMono.
  rewrite Hlen, Nat.div_mul, Nat.Div0.mod_mul by lia.
  pose proof (@copyLeftSamples_spec k 0%nat [] stereo [] [] (alloc (k * 2))) as H.
  cbn [app List.length] in H. rewrite app_nil_r in H.
  rewrite H; try reflexivity; try assumption.
  unfold alloc. apply repeat_length.
Qed.

End Downmix.

Section CaptureChunking.

Import JsString NodeBuffer Provider Stt Spec.
Local Open Scope Z_scope.

Lemma CHUNK_SIZE_value : CHUNK_SIZE = 9600.
Proof. reflexivity. Qed.

Lemma chunk_frames : chunkBytes = (2400 * 4)%nat.
Proof. vm_compute. reflexivity. Qed.

Lemma chunkBytes_value : Z.of_nat chunkBytes = 9600.
Proof. unfold chunkBytes. apply Z2Nat.id. discriminate. Qed.

Local Opaque chunkBytes.

Lemma emitAll_nil w : emitAll [] w = w.
Proof. unfold emitAll. rewrite app_nil_r. destruct w; reflexivity. Qed.

Lemma emitAll_emitAll l1 l2 w : emitAll l2 (emitAll l1 w) = emitAll (l1 ++ l2) w.
Proof. unfold emitAll. cbn. now rewrite app_assoc. Qed.

Lemma emit_emitAll e w : emit e w = emitAll [e] w.
Proof. reflexivity. Qed.

(** One round of the loop on a buffer that holds a whole chunk: the
    chunk is cut off the front, its left channel goes out for metering,
    and nothing else of interest is logged. *)
Lemma forwardChunk_ok cap w :
  CHUNK_SIZE <= Z.of_nat (List.length (captureAudioBuffer cap)) ->
  exists l,
    forwardChunk cap w
    = Ok (setCaptureAudioBuffer (skipn (chunkBytes) (captureAudioBuffer cap)) cap,
          emitAll (SystemAudioData
                     (leftChannel (firstn (chunkBytes) (captureAudioBuffer cap)))
                   :: l) w) /\
    meteringChunks l = [] /\ transcriptEvents l = [] /\ transcribeCalls l = [].
Proof.
  intros Hlen. unfold forwardChunk.
  change (CHANNELS =? 2) with true. cbv iota.
  unfold sliceTo, sliceFrom.
  rewrite (@convertStereoToMono_frames _ 2400).
  2:{ rewrite length_firstn, <- chunk_frames.
      pose proof chunkBytes_value. rewrite CHUNK_SIZE_value in *. lia. }
  cbn [bind].
  set (mono := leftChannel (firstn chunkBytes (captureAudioBuffer cap))).
  destruct (sttSession (channel Them (emit (SystemAudioData mono) w))) as [s|].
  - destruct (hasSendRealtimeInput s).
    + rewrite !emit_emitAll, emitAll_emitAll. cbn [app].
      eexists. split; [reflexivity|]. repeat split.
    + rewrite !emit_emitAll, emitAll_emitAll. cbn [app].
      eexists. split; [reflexivity|]. repeat split.
  - exists []. split; [reflexivity|]. repeat split.
Qed.

(** The loop cuts the buffer into whole chunks and a rest shorter than
    a chunk. *)
Lemma drainChunks_spec cap w :
  exists chunks leftover l,
    captureAudioBuffer cap = List.concat chunks ++ leftover /\
    Forall (fun ch => List.length ch = chunkBytes) chunks /\
    (List.length leftover < chunkBytes)%nat /\
    drainChunks cap w = (setCaptureAudioBuffer leftover cap, emitAll l w) /\
    meteringChunks l = map leftChannel chunks /\
    transcriptEvents l = [] /\ transcribeCalls l = [].
Proof.
  apply (drainChunks_elim
           (fun cap w r =>
              exists chunks leftover l,
                captureAudioBuffer cap = List.concat chunks ++ leftover /\
                Forall (fun ch => List.length ch = chunkBytes) chunks /\
                (List.length leftover < chunkBytes)%nat /\
                r = (setCaptureAudioBuffer leftover cap, emitAll l w) /\
                meteringChunks l = map leftChannel chunks /\
                transcriptEvents l = [] /\ transcribeCalls l = [])).
  - (* fewer bytes than a chunk *)
    clear cap w. intros cap Hn w _.
    exists [], (captureAudioBuffer cap), [].
    rewrite emitAll_nil. repeat split; auto.
    + pose proof chunkBytes_value. rewrite CHUNK_SIZE_value in *. lia.
    + destruct cap; reflexivity.
  - (* a whole chunk, then the rest *)
    clear cap w. intros cap Hl w next IH Hnext _.
    destruct (forwardChunk_ok cap w Hl) as (l0 & Hfw & M0 & T0 & C0).
    rewrite Hfw in Hnext. injection Hnext as <-.
    destruct IH as (chunks & leftover & l & Hbuf & Hall & Hlt & Hr & Hm & Ht & Hc).
    cbn [snd captureAudioBuffer setCaptureAudioBuffer] in *.
    unfold sliceFrom in *.
    exists (firstn chunkBytes (captureAudioBuffer cap) :: chunks), leftover,
           ((SystemAudioData (leftChannel (firstn chunkBytes (captureAudioBuffer cap))) :: l0)
              ++ l).
    repeat split; auto.
    + cbn [List.concat]. rewrite <- app_assoc, <- Hbuf. symmetry. apply firstn_skipn.
    + constructor; [|exact Hall]. rewrite length_firstn.
      pose proof chunkBytes_value. rewrite CHUNK_SIZE_value in *. lia.
    + rewrite Hr. rewrite emitAll_emitAll. reflexivity.
    + rewrite meteringChunks_app. cbn [meteringChunks flat_map app map].
      fold (meteringChunks l0). rewrite M0, Hm. reflexivity.
    + rewrite transcriptEvents_app. cbn. fold (transcriptEvents l0).
      now rewrite T0, Ht.
    + rewrite transcribeCalls_app. cbn. fold (transcribeCalls l0).
      now rewrite C0, Hc.
  - (* the downmix cannot fail on a whole chunk *)
    clear cap w. intros cap Hl w e Hthrow _.
    destruct (forwardChunk_ok cap w Hl) as (l0 & Hfw & _).
    rewrite Hfw in Hthrow. discriminate.
Qed.

(** The same round, with all it logs. *)
Lemma forwardChunk_exact cap w :
  CHUNK_SIZE <= Z.of_nat (List.length (captureAudioBuffer cap)) ->
  forwardChunk cap w
  = Ok (setCaptureAudioBuffer (skipn chunkBytes (captureAudioBuffer cap)) cap,
        emitAll (chunkEffects (sttSession (channel Them w)) (captureModelInfo cap)
                   (firstn chunkBytes (captureAudioBuffer cap))) w).
Proof.
  intros Hlen. unfold forwardChunk.
  change (CHANNELS =? 2) with true. cbv iota.
  unfold sliceTo, sliceFrom.
  rewrite (@convertStereoToMono_frames _ 2400).
  2:{ rewrite length_firstn, <- chunk_frames.
      pose proof chunkBytes_value. rewrite CHUNK_SIZE_value in *. lia. }
  cbn [bind]. unfold chunkEffects.
  set (mono := leftChannel (firstn chunkBytes (captureAudioBuffer cap))).
  change (sttSession (channel Them (emit (SystemAudioData mono) w)))
    with (sttSession (channel Them w)).
  cbn [captureModelInfo setCaptureAudioBuffer].
  destruct (sttSession (channel Them w)) as [s|]; [|reflexivity].
  destruct (hasSendRealtimeInput s);
    rewrite !emit_emitAll, emitAll_emitAll; reflexivity.
Qed.

(** The loop, with all it logs: the effects of its chunks, one chunk
    after the other. *)
Lemma drainChunks_exact cap w :
  exists chunks leftover,
    captureAudioBuffer cap = List.concat chunks ++ leftover /\
    Forall (fun ch => List.length ch = chunkBytes) chunks /\
    (List.length leftover < chunkBytes)%nat /\
    drainChunks cap w
    = (setCaptureAudioBuffer leftover cap,
       emitAll (flat_map (chunkEffects (sttSession (channel Them w))
                            (captureModelInfo cap)) chunks) w).
Proof.
  apply (drainChunks_elim
           (fun cap w r =>
              exists chunks leftover,
                captureAudioBuffer cap = List.concat chunks ++ leftover /\
                Forall (fun ch => List.length ch = chunkBytes) chunks /\
                (List.length leftover < chunkBytes)%nat /\
                r = (setCaptureAudioBuffer leftover cap,
                     emitAll (flat_map (chunkEffects (sttSession (channel Them w))
                                          (captureModelInfo cap)) chunks) w))).
  - clear cap w. intros cap Hn w _.
    exists [], (captureAudioBuffer cap).
    cbn [flat_map]. rewrite emitAll_nil. repeat split; auto.
    + pose proof chunkBytes_value. rewrite CHUNK_SIZE_value in *. lia.
    + destruct cap; reflexivity.
  - clear cap w. intros cap Hl w next IH Hnext _.
    rewrite (forwardChunk_exact cap w Hl) in Hnext. injection Hnext as <-.
    destruct IH as (chunks & leftover & Hbuf & Hall & Hlt & Hr).
    cbn [snd captureAudioBuffer captureModelInfo setCaptureAudioBuffer] in *.
    unfold sliceFrom in *.
    exists (firstn chunkBytes (captureAudioBuffer cap) :: chunks), leftover.
    repeat split; auto.
    + cbn [List.concat]. rewrite <- app_assoc, <- Hbuf. symmetry. apply firstn_skipn.
    + constructor; [|exact Hall]. rewrite length_firstn.
      pose proof chunkBytes_value. rewrite CHUNK_SIZE_value in *. lia.
    + rewrite Hr. cbn [flat_map]. rewrite emitAll_emitAll. reflexivity.
  - clear cap w. intros cap Hl w e Hthrow _.
    rewrite (forwardChunk_exact cap w Hl) in Hthrow. discriminate.
Qed.

(** All reads in turn, with all they log. *)
Lemma readAll_exact reads :
  forall w cap done,
    capture w = Some cap ->
    Forall (fun ch => List.length ch = chunkBytes) done ->
    exists chunks leftover,
      List.concat done ++ captureAudioBuffer cap ++ List.concat reads
      = List.concat chunks ++ leftover /\
      Forall (fun ch => List.length ch = chunkBytes) chunks /\
      (List.length (captureAudioBuffer cap) < chunkBytes ->
       List.length leftover < chunkBytes)%nat /\
      effects (readAll reads w)
      = effects w
        ++ flat_map (chunkEffects (sttSession (channel Them w)) (captureModelInfo cap))
             (skipn (List.length done) chunks) /\
      firstn (List.length done) chunks = done /\
      option_map captureAudioBuffer (capture (readAll reads w)) = Some leftover.
Proof.
  induction reads as [|d reads IH]; intros w cap done Hcap Hdone.
  - exists done, (captureAudioBuffer cap).
    cbn [List.concat readAll fold_left]. rewrite app_nil_r, skipn_all, firstn_all.
    cbn [flat_map]. rewrite app_nil_r, Hcap. repeat split; auto.
  - cbn [readAll fold_left]. fold (readAll reads (onCaptureData d w)).
    set (w1 := onCaptureData d w).
    destruct (drainChunks_exact
                (setCaptureAudioBuffer (concat [captureAudioBuffer cap; d]) cap) w)
      as (chunks1 & leftover1 & Hbuf1 & Hall1 & Hlt1 & Hd1).
    cbn [captureAudioBuffer captureModelInfo setCaptureAudioBuffer concat List.concat]
      in Hbuf1, Hd1.
    rewrite app_nil_r in Hbuf1.
    assert (Hw1 : w1 = setCapture (Some (setCaptureAudioBuffer leftover1 cap))
                         (emitAll (flat_map (chunkEffects (sttSession (channel Them w))
                                               (captureModelInfo cap)) chunks1) w)).
    { unfold w1, onCaptureData. rewrite Hcap. cbv beta iota zeta.
      cbn [concat List.concat]. rewrite Hd1. reflexivity. }
    assert (Hcap1 : capture w1 = Some (setCaptureAudioBuffer leftover1 cap))
      by (rewrite Hw1; reflexivity).
    assert (Hs1 : sttSession (channel Them w1) = sttSession (channel Them w))
      by (rewrite Hw1; reflexivity).
    assert (Hdone1 : Forall (fun ch => List.length ch = chunkBytes)
                       (done ++ chunks1))
      by (apply Forall_app; split; assumption).
    destruct (IH w1 _ (done ++ chunks1) Hcap1 Hdone1)
      as (chunks & leftover & Hbuf & Hall & Hlt & Hm & Hfirst & Hleft).
    cbn [captureAudioBuffer captureModelInfo setCaptureAudioBuffer] in Hbuf, Hlt, Hm.
    exists chunks, leftover.
    assert (Hsplit : chunks = done ++ chunks1 ++ skipn (List.length (done ++ chunks1)) chunks).
    { rewrite <- (firstn_skipn (List.length (done ++ chunks1)) chunks) at 1.
      rewrite Hfirst, <- app_assoc. reflexivity. }
    repeat split; auto.
    + rewrite <- Hbuf. cbn [List.concat].
      rewrite concat_app, <- !app_assoc. f_equal.
      rewrite !app_assoc, Hbuf1. reflexivity.
    + rewrite Hm, Hs1, Hw1. cbn [effects setCapture emitAll].
      rewrite <- app_assoc. f_equal.
      rewrite <- flat_map_app. f_equal.
      rewrite Hsplit at 2.
      rewrite skipn_app, skipn_all, Nat.sub_diag. reflexivity.
    + rewrite Hsplit. rewrite firstn_app, firstn_all, Nat.sub_diag.
      cbn [firstn]. apply app_nil_r.
Qed.

Lemma meteringChunks_chunkEffects session mi chunks :
  meteringChunks (flat_map (chunkEffects session mi) chunks) = map leftChannel chunks.
Proof.
  induction chunks as [|ch chunks IH]; [reflexivity|].
  cbn [flat_map map]. rewrite meteringChunks_app, IH. f_equal.
  unfold chunkEffects. destruct session as [s|]; [|reflexivity].
  now destruct (hasSendRealtimeInput s).
Qed.

Lemma sessionInputs_app who l1 l2 :
  sessionInputs who (l1 ++ l2) = sessionInputs who l1 ++ sessionInputs who l2.
Proof. unfold sessionInputs. apply flat_map_app. Qed.

(** The stdout listener never touches the service's fields or the
    pending timers: what it reads is handed to [sendRealtimeInput] only,
    never to the batching buffer of [sendSystemAudioContent]. *)
Lemma onCaptureData_frame (data : Buffer) w :
  svc (onCaptureData data w) = svc w /\
  timers (onCaptureData data w) = timers w /\
  transcribeCalls (effects (onCaptureData data w)) = transcribeCalls (effects w).
Proof.
  unfold onCaptureData. destruct (capture w) as [cap|]; [|repeat split].
  cbv zeta.
  destruct (drainChunks_spec
              (setCaptureAudioBuffer (concat [captureAudioBuffer cap; data]) cap) w)
    as (chunks & leftover & l & _ & _ & _ & Hd & _ & _ & Hc).
  rewrite Hd.
  cbn. rewrite transcribeCalls_app, Hc, app_nil_r. repeat split.
Qed.

Lemma onCaptureData_spec (data : Buffer) w cap :
  capture w = Some cap ->
  exists chunks leftover l,
    captureAudioBuffer cap ++ data = List.concat chunks ++ leftover /\
    Forall (fun ch => List.length ch = chunkBytes) chunks /\
    (List.length leftover < chunkBytes)%nat /\
    onCaptureData data w
    = setCapture (Some (setCaptureAudioBuffer leftover cap)) (emitAll l w) /\
    meteringChunks l = map leftChannel chunks.
Proof.
  intros Hcap. unfold onCaptureData. rewrite Hcap. cbv beta iota zeta.
  destruct (drainChunks_spec
              (setCaptureAudioBuffer (concat [captureAudioBuffer cap; data]) cap) w)
    as (chunks & leftover & l & Hbuf & Hall & Hlt & Hd & Hm & _).
  exists chunks, leftover, l. rewrite Hd.
  cbn [captureAudioBuffer setCaptureAudioBuffer concat List.concat] in Hbuf.
  rewrite app_nil_r in Hbuf.
  repeat split; auto.
Qed.

(** Cutting a stream that already is chunks and a short rest, after more
    bytes arrive. *)
Lemma readAll_spec reads :
  forall w cap done,
    capture w = Some cap ->
    Forall (fun ch => List.length ch = chunkBytes) done ->
    exists chunks leftover,
      List.concat done ++ captureAudioBuffer cap ++ List.concat reads
      = List.concat chunks ++ leftover /\
      Forall (fun ch => List.length ch = chunkBytes) chunks /\
      (List.length (captureAudioBuffer cap) < chunkBytes ->
       List.length leftover < chunkBytes)%nat /\
      meteringChunks (effects (readAll reads w))
      = meteringChunks (effects w) ++ map leftChannel (skipn (List.length done) chunks) /\
      firstn (List.length done) chunks = done /\
      option_map captureAudioBuffer (capture (readAll reads w)) = Some leftover.
Proof.
  induction reads as [|d reads IH]; intros w cap done Hcap Hdone.
  - exists done, (captureAudioBuffer cap).
    cbn [List.concat readAll fold_left]. rewrite app_nil_r, skipn_all, firstn_all.
    cbn [map]. rewrite app_nil_r, Hcap. repeat split; auto.
  - destruct (onCaptureData_spec d w cap Hcap)
      as (chunks1 & leftover1 & l1 & Hbuf1 & Hall1 & Hlt1 & Hw1 & Hm1).
    cbn [readAll fold_left]. fold (readAll reads (onCaptureData d w)).
    set (w1 := onCaptureData d w) in *.
    assert (Hcap1 : capture w1 = Some (setCaptureAudioBuffer leftover1 cap))
      by (rewrite Hw1; reflexivity).
    assert (Hdone1 : Forall (fun ch => List.length ch = chunkBytes)
                       (done ++ chunks1))
      by (apply Forall_app; split; assumption).
    destruct (IH w1 _ (done ++ chunks1) Hcap1 Hdone1)
      as (chunks & leftover & Hbuf & Hall & Hlt & Hm & Hfirst & Hleft).
    cbn [captureAudioBuffer setCaptureAudioBuffer] in Hbuf, Hlt.
    exists chunks, leftover.
    assert (Hsplit : chunks = done ++ chunks1 ++ skipn (List.length (done ++ chunks1)) chunks).
    { rewrite <- (firstn_skipn (List.length (done ++ chunks1)) chunks) at 1.
      rewrite Hfirst, <- app_assoc. reflexivity. }
    repeat split; auto.
    + rewrite <- Hbuf. cbn [List.concat].
      rewrite concat_app, <- !app_assoc. f_equal.
      rewrite !app_assoc, Hbuf1. reflexivity.
    + rewrite Hm, Hw1. cbn [effects setCapture emitAll].
      rewrite meteringChunks_app, Hm1, <- app_assoc. f_equal.
      rewrite <- map_app. f_equal.
      rewrite Hsplit at 2.
      rewrite skipn_app, skipn_all, Nat.sub_diag. reflexivity.
    + rewrite Hsplit. rewrite firstn_app, firstn_all, Nat.sub_diag.
      cbn [firstn]. apply app_nil_r.
Qed.

(** The [k]-th of equally long pieces of a stream is the stream's bytes
    from offset [k * c]. *)
Lemma nth_uniform_concat c chunks :
  Forall (fun ch => List.length ch = c) chunks ->
  forall k leftover,
    (k < List.length chunks)%nat ->
    nth k chunks [] = bytesAt (k * c) c (List.concat chunks ++ leftover).
Proof.
  induction 1 as [|ch chunks Hch Hall IH]; intros k leftover Hk.
  - cbn in Hk. lia.
  - destruct k as [|k]; cbn [nth List.concat].
    + unfold bytesAt. cbn [Nat.mul skipn].
      rewrite <- app_assoc, firstn_app, Hch, Nat.sub_diag.
      rewrite <- Hch at 1. rewrite firstn_all. cbn [firstn]. symmetry. apply app_nil_r.
    + rewrite (IH k leftover) by (cbn in Hk; lia).
      unfold bytesAt. f_equal.
      rewrite <- app_assoc.
      symmetry. rewrite (skipn_app (S k * c) ch).
      rewrite (@skipn_all2 _ (S k * c) ch) by (rewrite Hch; simpl; lia).
      rewrite Hch. cbn [app]. f_equal. simpl. lia.
Qed.

Lemma length_uniform_concat c (chunks : list Buffer) :
  Forall (fun ch => List.length ch = c) chunks ->
  List.length (List.concat chunks) = (List.length chunks * c)%nat.
Proof.
  induction 1 as [|ch chunks Hch Hall IH]; [reflexivity|].
  cbn [List.concat List.length]. rewrite length_app, IH, Hch. lia.
Qed.

(** C6.  Whatever the capture process writes, in whatever pieces, the
    listener forwards floor(total / 9600) chunks and keeps the remaining
    total mod 9600 bytes (at most 9599).  The forwarded chunks are
    consecutive 9600-byte pieces of the stream, the [k]-th starting at
    byte [9600 k], a multiple of the 4-byte frame.  Each goes out as the
    left channel of its 2400 frames: to the renderer, and then to
    [sendRealtimeInput] of the session, wrapped with the mime type on
    gemini and bare otherwise; this is all the listener does, so a
    session with [sendRealtimeInput] receives exactly one input per
    chunk, in order, and one without it none (each attempt is logged as
    an error). *)
Theorem capture_chunking (reads : list Buffer) (w : World) (cap : Capture) :
  capture w = Some cap ->
  captureAudioBuffer cap = [] ->
  let stream := List.concat reads in
  let total := Z.of_nat (List.length stream) in
  exists chunks leftover,
    stream = List.concat chunks ++ leftover /\
    effects (readAll reads w)
    = effects w
      ++ flat_map (chunkEffects (sttSession (channel Them w)) (captureModelInfo cap))
           chunks /\
    meteringChunks (effects (readAll reads w))
    = meteringChunks (effects w) ++ map leftChannel chunks /\
    (forall session,
        sttSession (channel Them w) = Some session ->
        sessionInputs Them (effects (readAll reads w))
        = sessionInputs Them (effects w)
          ++ (if hasSendRealtimeInput session
              then map (fun ch =>
                          if String.eqb (provider (captureModelInfo cap)) "gemini"
                          then GeminiAudio (leftChannel ch) "audio/pcm;rate=24000"
                          else RawAudio (leftChannel ch)) chunks
              else [])) /\
    option_map captureAudioBuffer (capture (readAll reads w)) = Some leftover /\
    Z.of_nat (List.length chunks) = total / 9600 /\
    Z.of_nat (List.length leftover) = total mod 9600 /\
    Z.of_nat (List.length leftover) <= 9599 /\
    Z.of_nat chunkBytes = 9600 /\
    forall k, (k < List.length chunks)%nat ->
      nth k chunks [] = bytesAt (k * chunkBytes) chunkBytes stream /\
      Z.of_nat (List.length (nth k chunks [])) = 9600 /\
      Z.of_nat (k * chunkBytes) mod 4 = 0.
Proof.
  intros Hcap Hempty stream total.
  destruct (@readAll_exact reads w cap [] Hcap (Forall_nil _))
    as (chunks & leftover & Hbuf & Hall & Hlt & He & _ & Hleft).
  rewrite Hempty in Hbuf, Hlt. cbn [List.concat app List.length skipn] in *.
  assert (Hm : meteringChunks (effects (readAll reads w))
               = meteringChunks (effects w) ++ map leftChannel chunks)
    by (now rewrite He, meteringChunks_app, meteringChunks_chunkEffects).
  assert (Hs : forall session,
             sttSession (channel Them w) = Some session ->
             sessionInputs Them (effects (readAll reads w))
             = sessionInputs Them (effects w)
               ++ (if hasSendRealtimeInput session
                   then map (fun ch =>
                               if String.eqb (provider (captureModelInfo cap)) "gemini"
                               then GeminiAudio (leftChannel ch) "audio/pcm;rate=24000"
                               else RawAudio (leftChannel ch)) chunks
                   else [])).
  { intros session Hsess. rewrite He, Hsess, sessionInputs_app. f_equal.
    clear. induction chunks as [|ch chunks IH].
    - now destruct (hasSendRealtimeInput session).
    - cbn [flat_map]. rewrite sessionInputs_app, IH.
      unfold chunkEffects. now destruct (hasSendRealtimeInput session). }
  fold stream in Hbuf.
  pose proof chunkBytes_value as Hcz.
  assert (Hlt' : (List.length leftover < chunkBytes)%nat) by (apply Hlt; lia).
  assert (Htotal : total = 9600 * Z.of_nat (List.length chunks)
                           + Z.of_nat (List.length leftover)).
  { unfold total. rewrite Hbuf, length_app, (length_uniform_concat _ _ Hall).
    rewrite Nat2Z.inj_add, Nat2Z.inj_mul, Hcz. lia. }
  exists chunks, leftover.
  split; [exact Hbuf|]. split; [exact He|]. split; [exact Hm|].
  split; [exact Hs|]. split; [exact Hleft|].
  split; [|split; [|split; [|split; [exact Hcz|]]]].
  - apply (Z.div_unique_pos total 9600 _ (Z.of_nat (List.length leftover))); lia.
  - apply (Z.mod_unique_pos total 9600 (Z.of_nat (List.length chunks))); lia.
  - lia.
  - intros k Hk. split; [|split].
    + rewrite Hbuf. apply (nth_uniform_concat _ _ Hall). assumption.
    + rewrite Forall_forall in Hall. rewrite (Hall (nth k chunks [])); [exact Hcz|].
      apply nth_In. assumption.
    + rewrite Nat2Z.inj_mul, Hcz.
      replace (Z.of_nat k * 9600) with (Z.of_nat k * 2400 * 4) by lia.
      apply Z_mod_mult.
Qed.

End CaptureChunking.

(* ===================================================================== *)
(** * The invariant of the timer bookkeeping *)
(* ===================================================================== *)

Section Bookkeeping.

Import JsString NodeBuffer Provider Stt Spec.
Local Open Scope Z_scope.

Lemma consistent_same w w' : sameBooks w w' -> consistent w -> consistent w'.
Proof.
  intros (Ht & Hn & Hc) [F N C A B].
  constructor; rewrite ?Ht, ?Hn; auto.
  - intros who x Hx Hcb. destruct (Hc who) as (-> & _ & _). now apply C.
  - intros who x Hx Hcb. destruct (Hc who) as (_ & -> & _). now apply A.
  - intros who. destruct (Hc who) as (_ & -> & ->). apply B.
Qed.

Lemma sameBooks_refl w : sameBooks w w.
Proof. repeat split. Qed.

Lemma sameBooks_trans w1 w2 w3 : sameBooks w1 w2 -> sameBooks w2 w3 -> sameBooks w1 w3.
Proof.
  intros (Ht & Hn & Hc) (Ht' & Hn' & Hc'). split; [congruence|]. split; [congruence|].
  intros who. destruct (Hc who) as (? & ? & ?), (Hc' who) as (? & ? & ?).
  repeat split; congruence.
Qed.

Lemma sameBooks_emit e w : sameBooks w (emit e w).
Proof. repeat split. Qed.

Lemma sameBooks_emitAll l w : sameBooks w (emitAll l w).
Proof. repeat split. Qed.

Lemma sameBooks_setNow t w : sameBooks w (setNow t w).
Proof. repeat split. Qed.

Lemma sameBooks_setCapture c w : sameBooks w (setCapture c w).
Proof. repeat split. Qed.

Lemma sameBooks_setModelInfo v w : sameBooks w (setModelInfo v w).
Proof. repeat split; destruct who; reflexivity. Qed.

Lemma sameBooks_setSystemAudioProc v w : sameBooks w (setSystemAudioProc v w).
Proof. repeat split; destruct who; reflexivity. Qed.

Lemma sameBooks_setCallbacks a b w : sameBooks w (setCallbacks a b w).
Proof. repeat split; destruct who; reflexivity. Qed.

Lemma sameBooks_setCurrentUtterance who v w :
  sameBooks w (update who (setCurrentUtterance v) w).
Proof. repeat split; destruct who, who0; reflexivity. Qed.

Lemma sameBooks_setCompletionBuffer who v w :
  sameBooks w (update who (setCompletionBuffer v) w).
Proof. repeat split; destruct who, who0; reflexivity. Qed.

Lemma sameBooks_setSttSession who v w :
  sameBooks w (update who (setSttSession v) w).
Proof. repeat split; destruct who, who0; reflexivity. Qed.

Lemma sameBooks_notifyComplete who text w : sameBooks w (notifyComplete who text w).
Proof.
  unfold notifyComplete. destruct (onTranscriptionComplete (svc w));
    [apply sameBooks_emit | apply sameBooks_refl].
Qed.

Lemma sameBooks_notifyStatus status w : sameBooks w (notifyStatus status w).
Proof.
  unfold notifyStatus. destruct (onStatusUpdate (svc w));
    [apply sameBooks_emit | apply sameBooks_refl].
Qed.

Lemma sameBooks_logMessageError who m w : sameBooks w (logMessageError who m w).
Proof.
  unfold logMessageError. destruct (error m);
    [apply sameBooks_emit | apply sameBooks_refl].
Qed.

(** *** Cancelling *)

Lemma NoDup_map_filter {A B} (f : A -> B) (p : A -> bool) l :
  NoDup (map f l) -> NoDup (map f (filter p l)).
Proof.
  induction l as [|a l IH]; cbn; intros H; [constructor|].
  inversion H as [|? ? Hnotin Hnd]; subst.
  destruct (p a); cbn; auto.
  constructor; auto.
  intros Hin. apply Hnotin.
  apply in_map_iff in Hin. destruct Hin as (y & Hy & Hiny).
  apply filter_In in Hiny. apply in_map_iff. exists y. tauto.
Qed.

Lemma consistent_clearTimeout id w : consistent w -> consistent (clearTimeout id w).
Proof.
  intros [F N C A B]. constructor; cbn [timers nextTimer clearTimeout].
  - rewrite Forall_forall in *. intros x Hx. apply filter_In in Hx. now apply F.
  - now apply NoDup_map_filter.
  - intros who x Hx Hcb. apply filter_In in Hx.
    exact (C who x (proj1 Hx) Hcb).
  - intros who x Hx Hcb. apply filter_In in Hx.
    exact (A who x (proj1 Hx) Hcb).
  - intros who. exact (B who).
Qed.

Lemma quietCompletion_clearTimeout who x w :
  consistent w -> In x (timers w) -> callback x = FlushCompletion who ->
  quietCompletion who (clearTimeout (tid x) w).
Proof.
  intros [F N C A B] Hx Hcb y Hy Hcy.
  cbn [timers clearTimeout] in Hy. apply filter_In in Hy. destruct Hy as [Hy Hne].
  pose proof (C who x Hx Hcb) as H1. pose proof (C who y Hy Hcy) as H2.
  rewrite H1 in H2. injection H2 as H2. rewrite H2, Nat.eqb_refl in Hne. discriminate.
Qed.

Lemma quietAudio_clearTimeout who x w :
  consistent w -> In x (timers w) -> callback x = SendBufferedAudio who ->
  quietAudio who (clearTimeout (tid x) w).
Proof.
  intros [F N C A B] Hx Hcb y Hy Hcy.
  cbn [timers clearTimeout] in Hy. apply filter_In in Hy. destruct Hy as [Hy Hne].
  pose proof (A who x Hx Hcb) as H1. pose proof (A who y Hy Hcy) as H2.
  rewrite H1 in H2. injection H2 as H2. rewrite H2, Nat.eqb_refl in Hne. discriminate.
Qed.

(** After [if (timer) clearTimeout(timer)] no timer of the channel is
    pending. *)
Lemma quietCompletion_clearIfArmed who w :
  consistent w ->
  quietCompletion who (clearIfArmed (completionTimer (channel who w)) w).
Proof.
  intros Hw. destruct (completionTimer (channel who w)) as [id|] eqn:E; cbn [clearIfArmed].
  - intros y Hy Hcy. cbn [timers clearTimeout] in Hy.
    apply filter_In in Hy. destruct Hy as [Hy Hne].
    pose proof (completion_handle w Hw who y Hy Hcy) as H. rewrite E in H.
    injection H as H. rewrite H, Nat.eqb_refl in Hne. discriminate.
  - intros y Hy Hcy. pose proof (completion_handle w Hw who y Hy Hcy) as H.
    rewrite E in H. discriminate.
Qed.

Lemma quietAudio_clearIfArmed who w :
  consistent w ->
  quietAudio who (clearIfArmed (audioTimer (channel who w)) w).
Proof.
  intros Hw. destruct (audioTimer (channel who w)) as [id|] eqn:E; cbn [clearIfArmed].
  - intros y Hy Hcy. cbn [timers clearTimeout] in Hy.
    apply filter_In in Hy. destruct Hy as [Hy Hne].
    pose proof (audio_handle w Hw who y Hy Hcy) as H. rewrite E in H.
    injection H as H. rewrite H, Nat.eqb_refl in Hne. discriminate.
  - intros y Hy Hcy. pose proof (audio_handle w Hw who y Hy Hcy) as H.
    rewrite E in H. discriminate.
Qed.

Lemma consistent_clearIfArmed h w : consistent w -> consistent (clearIfArmed h w).
Proof. destruct h; cbn; [apply consistent_clearTimeout | auto]. Qed.

Lemma quietCompletion_same who w w' :
  timers w' = timers w -> quietCompletion who w -> quietCompletion who w'.
Proof. unfold quietCompletion. intros ->. auto. Qed.

Lemma quietAudio_same who w w' :
  timers w' = timers w -> quietAudio who w -> quietAudio who w'.
Proof. unfold quietAudio. intros ->. auto. Qed.

(** *** Assigning the handles *)

Lemma consistent_setCompletionTimer who v w :
  consistent w -> quietCompletion who w ->
  consistent (update who (setCompletionTimer v) w).
Proof.
  intros [F N C A B] Hq. constructor; cbn [timers nextTimer update withSvc]; auto.
  - intros who' x Hx Hcb. destruct who, who'; cbn;
      try exact (C _ x Hx Hcb); elim (Hq x Hx); assumption.
  - intros who' x Hx Hcb. destruct who, who'; exact (A _ x Hx Hcb).
  - intros who'. destruct who, who'; first [exact (B Me) | exact (B Them)].
Qed.

Lemma consistent_clearAudio who w :
  consistent w -> quietAudio who w ->
  consistent (update who (setAudioTimer None) (update who (setAudioBuffer []) w)).
Proof.
  intros [F N C A B] Hq. constructor; cbn [timers nextTimer update withSvc]; auto.
  - intros who' x Hx Hcb. destruct who, who'; exact (C _ x Hx Hcb).
  - intros who' x Hx Hcb. destruct who, who'; cbn;
      try exact (A _ x Hx Hcb); elim (Hq x Hx); assumption.
  - intros who'. destruct who, who'; cbn; auto; try apply (B Me); try apply (B Them).
Qed.

Lemma consistent_pushAudio who b id w :
  consistent w -> audioTimer (channel who w) = Some id ->
  consistent (update who (setAudioBuffer b) w).
Proof.
  intros [F N C A B] Hid. constructor; cbn [timers nextTimer update withSvc]; auto.
  - intros who' x Hx Hcb. destruct who, who'; exact (C _ x Hx Hcb).
  - intros who' x Hx Hcb. destruct who, who'; exact (A _ x Hx Hcb).
  - intros who'. destruct who, who'; cbn in *; intros E;
      try (rewrite Hid in E; discriminate); try apply (B Me E); try apply (B Them E).
Qed.

(** *** Arming *)

Lemma NoDup_map_snoc (l : list Timer) x :
  NoDup (map tid l) -> Forall (fun y => (tid y < tid x)%nat) l ->
  NoDup (map tid (l ++ [x])).
Proof.
  intros Hnd Hlt. rewrite map_app. cbn [map].
  apply NoDup_app; [assumption | repeat constructor; intros [] |].
  intros a Ha [Hb|[]]. subst a. apply in_map_iff in Ha.
  destruct Ha as (y & Hy & Hin). rewrite Forall_forall in Hlt.
  specialize (Hlt y Hin). lia.
Qed.

Lemma consistent_armCompletion who delay w :
  consistent w -> quietCompletion who w ->
  consistent (update who (setCompletionTimer (Some (fst (setTimeout (FlushCompletion who) delay w))))
                (snd (setTimeout (FlushCompletion who) delay w))).
Proof.
  intros [F N C A B] Hq.
  constructor; cbn [timers nextTimer update withSvc setTimeout fst snd].
  - apply Forall_app. split.
    + eapply Forall_impl; [|exact F]. cbn. intros; lia.
    + repeat constructor.
  - apply NoDup_map_snoc; assumption.
  - intros who' x Hx Hcb. apply in_app_iff in Hx. destruct Hx as [Hx|[<-|[]]].
    + destruct who, who'; cbn; try exact (C _ x Hx Hcb); elim (Hq x Hx); assumption.
    + cbn in Hcb. injection Hcb as <-. destruct who; reflexivity.
  - intros who' x Hx Hcb. apply in_app_iff in Hx. destruct Hx as [Hx|[<-|[]]].
    + destruct who, who'; exact (A _ x Hx Hcb).
    + discriminate.
  - intros who'. destruct who, who'; first [exact (B Me) | exact (B Them)].
Qed.

Lemma consistent_armAudio who delay b w :
  consistent w -> audioTimer (channel who w) = None ->
  let w1 := update who (setAudioBuffer b) w in
  consistent (update who (setAudioTimer (Some (fst (setTimeout (SendBufferedAudio who) delay w1))))
                (snd (setTimeout (SendBufferedAudio who) delay w1))).
Proof.
  intros [F N C A B] Hnone w1.
  assert (Hq : quietAudio who w).
  { intros x Hx Hcb. pose proof (A who x Hx Hcb) as H. rewrite Hnone in H. discriminate. }
  constructor; cbn [timers nextTimer update withSvc setTimeout fst snd w1].
  - apply Forall_app. split.
    + eapply Forall_impl; [|exact F]. cbn. intros; lia.
    + repeat constructor.
  - apply NoDup_map_snoc; assumption.
  - intros who' x Hx Hcb. apply in_app_iff in Hx. destruct Hx as [Hx|[<-|[]]].
    + destruct who, who'; exact (C _ x Hx Hcb).
    + discriminate.
  - intros who' x Hx Hcb. apply in_app_iff in Hx. destruct Hx as [Hx|[<-|[]]].
    + destruct who, who'; cbn; try exact (A _ x Hx Hcb); elim (Hq x Hx); assumption.
    + cbn in Hcb. injection Hcb as <-. destruct who; reflexivity.
  - intros who'. destruct who, who'; cbn; try discriminate;
      try apply (B Me); try apply (B Them).
Qed.

End Bookkeeping.

(* ===================================================================== *)
(** * Every handler keeps the bookkeeping consistent *)
(* ===================================================================== *)

Section Preservation.

Import JsString NodeBuffer Provider Stt Spec.
Local Open Scope Z_scope.

(** Chains of operations that leave timers, handles and audio buffers
    alone. *)
Ltac same_step :=
  lazymatch goal with
  | |- sameBooks _ (emit _ _) => apply sameBooks_emit
  | |- sameBooks _ (emitAll _ _) => apply sameBooks_emitAll
  | |- sameBooks _ (setNow _ _) => apply sameBooks_setNow
  | |- sameBooks _ (setCapture _ _) => apply sameBooks_setCapture
  | |- sameBooks _ (setModelInfo _ _) => apply sameBooks_setModelInfo
  | |- sameBooks _ (setSystemAudioProc _ _) => apply sameBooks_setSystemAudioProc
  | |- sameBooks _ (setCallbacks _ _ _) => apply sameBooks_setCallbacks
  | |- sameBooks _ (update _ (setCurrentUtterance _) _) =>
      apply sameBooks_setCurrentUtterance
  | |- sameBooks _ (update _ (setCompletionBuffer _) _) =>
      apply sameBooks_setCompletionBuffer
  | |- sameBooks _ (update _ (setSttSession _) _) => apply sameBooks_setSttSession
  | |- sameBooks _ (notifyComplete _ _ _) => apply sameBooks_notifyComplete
  | |- sameBooks _ (notifyStatus _ _) => apply sameBooks_notifyStatus
  | |- sameBooks _ (logMessageError _ _ _) => apply sameBooks_logMessageError
  end.

Ltac same_books :=
  repeat first [ apply sameBooks_refl
               | eapply sameBooks_trans; [| same_step ] ].

Ltac keep := eapply consistent_same; [ same_step |].

Lemma sameBooks_timers w w' : sameBooks w w' -> timers w' = timers w.
Proof. intros (H & _). exact H. Qed.

Lemma quietCompletion_incl who w w' :
  incl (timers w') (timers w) -> quietCompletion who w -> quietCompletion who w'.
Proof. intros Hi Hq x Hx. apply Hq, Hi, Hx. Qed.

Lemma quietAudio_incl who w w' :
  incl (timers w') (timers w) -> quietAudio who w -> quietAudio who w'.
Proof. intros Hi Hq x Hx. apply Hq, Hi, Hx. Qed.

Lemma incl_clearTimeout id w : incl (timers (clearTimeout id w)) (timers w).
Proof. intros x Hx. cbn in Hx. apply filter_In in Hx. tauto. Qed.

(** *** flushCompletion *)

Lemma timers_flushCompletion who w : timers (flushCompletion who w) = timers w.
Proof.
  unfold flushCompletion. destruct (modelInfo (svc w)); [|reflexivity].
  destruct (negb _); [reflexivity|].
  destruct (notifyStatus_frame "Listening..."
              (update who (setCurrentUtterance "")
                 (update who (setCompletionTimer None)
                    (update who (setCompletionBuffer "")
                       (emit (SttUpdate who
                                (trim (completionBuffer (channel who w)
                                        ++ currentUtterance (channel who w))%string)
                                false true
                                (now (notifyComplete who
                                        (trim (completionBuffer (channel who w)
                                                ++ currentUtterance (channel who w))%string) w)))
                             (notifyComplete who
                                (trim (completionBuffer (channel who w)
                                        ++ currentUtterance (channel who w))%string) w))))))
    as (_ & -> & _).
  cbn [timers update withSvc emit].
  apply notifyComplete_frame.
Qed.

Lemma consistent_flushCompletion who w :
  consistent w -> quietCompletion who w -> consistent (flushCompletion who w).
Proof.
  intros Hw Hq. unfold flushCompletion.
  destruct (modelInfo (svc w)); [|exact Hw].
  destruct (negb _); [exact Hw|].
  keep. keep. apply consistent_setCompletionTimer.
  - keep. keep. keep. exact Hw.
  - eapply quietCompletion_same; [|exact Hq].
    apply sameBooks_timers. same_books.
Qed.

(** *** debounceCompletion *)

Lemma consistent_debounceCompletion who text w :
  consistent w -> consistent (debounceCompletion who text w).
Proof.
  intros Hw. unfold debounceCompletion.
  set (w1 := if isGemini (modelInfo (svc w)) then _ else _).
  assert (H1 : consistent w1).
  { subst w1. destruct (isGemini _); (keep; exact Hw). }
  apply consistent_armCompletion.
  - apply consistent_clearIfArmed, H1.
  - apply quietCompletion_clearIfArmed, H1.
Qed.

(** *** handleMessage *)

Lemma consistent_handleMessage who m w :
  consistent w -> consistent (handleMessage who m w).
Proof.
  intros Hw. unfold handleMessage.
  destruct (modelInfo (svc w)) as [mi|]; [|exact Hw].
  destruct (String.eqb (provider mi) "gemini").
  - destruct (match serverContent m with Some c => turnComplete c | None => false end).
    + destruct (completionTimer (channel who w)) as [id|] eqn:E; [|exact Hw].
      apply consistent_flushCompletion.
      * apply consistent_clearTimeout, Hw.
      * pose proof (quietCompletion_clearIfArmed who w Hw) as Hq.
        rewrite E in Hq. exact Hq.
    + destruct (match serverContent m with Some c => inputTranscription c | None => None end)
        as [textChunk|]; [|exact Hw].
      destruct (negb (truthy textChunk)); [exact Hw|].
      destruct (negb (truthy (trim textChunk)) || String.eqb (trim textChunk) "<noise>");
        [exact Hw|].
      keep. keep. apply consistent_debounceCompletion, Hw.
  - keep.
    destruct (String.eqb (type m) "conversation.item.input_audio_transcription.delta").
    + assert (H3 : consistent
                     (update who
                        (setCurrentUtterance
                           (currentUtterance
                              (channel who
                                 (update who (setCompletionTimer None)
                                    (clearIfArmed (completionTimer (channel who w)) w)))
                            ++ messageText m)%string)
                        (update who (setCompletionTimer None)
                           (clearIfArmed (completionTimer (channel who w)) w)))).
      { keep. apply consistent_setCompletionTimer.
        - apply consistent_clearIfArmed, Hw.
        - apply quietCompletion_clearIfArmed, Hw. }
      cbv zeta.
      destruct (truthy (messageText m) && negb (includes (messageText m) "vq_lbr_audio_"));
        [keep|]; exact H3.
    + destruct (String.eqb (type m) "conversation.item.input_audio_transcription.completed");
        [|exact Hw].
      destruct (truthy (messageText m) && truthy (trim (messageText m))); [|exact Hw].
      apply consistent_debounceCompletion. keep. exact Hw.
Qed.

(** *** The batch path *)

Lemma consistent_sendBufferedAudio who w :
  consistent w -> quietAudio who w -> consistent (sendBufferedAudio who w).
Proof.
  intros Hw Hq. destruct (sendBufferedAudio_shape who w) as (l & -> & _).
  keep. apply consistent_clearAudio; assumption.
Qed.

Lemma timers_sendBufferedAudio who w : timers (sendBufferedAudio who w) = timers w.
Proof. destruct (sendBufferedAudio_shape who w) as (l & -> & _). reflexivity. Qed.

Lemma consistent_transcribeAudioSettled who outcome w :
  consistent w -> consistent (transcribeAudioSettled who outcome w).
Proof.
  intros Hw. unfold transcribeAudioSettled.
  destruct outcome as [[text|]|e]; [| exact Hw | keep; exact Hw].
  destruct (truthy text && truthy (trim text)); [|exact Hw].
  keep. keep. keep. keep. keep. exact Hw.
Qed.

Lemma consistent_sendAudio who data mimeType fetched w w' :
  consistent w -> sendAudio who data mimeType fetched w = Ok w' -> consistent w'.
Proof.
  intros Hw. unfold sendAudio.
  destruct (sttSession (channel who w)) as [session|]; [|discriminate].
  destruct (match modelInfo (svc w) with Some mi => Some mi | None => fetched end)
    as [mi|]; [|discriminate].
  destruct (String.eqb (provider mi) "gaia").
  - rewrite channel_update_same. cbn [audioTimer setAudioBuffer].
    destruct (audioTimer (channel who w)) as [id|] eqn:E; intros H; injection H as <-.
    + eapply consistent_pushAudio; eassumption.
    + apply consistent_armAudio; assumption.
  - destruct (hasSendRealtimeInput session); [|discriminate].
    intros H; injection H as <-. keep. exact Hw.
Qed.

(** *** Initialisation and capture *)

Lemma consistent_initializeSttSessions fetched created w :
  consistent w -> consistent (fst (initializeSttSessions fetched created w)).
Proof.
  intros Hw. unfold initializeSttSessions.
  destruct fetched as [mi|]; [|exact Hw].
  destruct (negb (truthy (apiKey mi))); [exact Hw|].
  destruct created as [[mine theirs]|e]; [|cbn [fst]; keep; exact Hw].
  destruct (String.eqb (provider mi) "gaia"); [|destruct (_ || _)];
    cbn [fst]; keep; keep; keep; exact Hw.
Qed.

Lemma consistent_startMacOSAudioCapture platform spawned fetched w :
  consistent w -> consistent (fst (startMacOSAudioCapture platform spawned fetched w)).
Proof.
  intros Hw. unfold startMacOSAudioCapture.
  destruct (negb (String.eqb platform "darwin")); [exact Hw|].
  destruct (sttSession (channel Them w)); [|exact Hw].
  destruct (pid spawned); [|cbn [fst]; keep; keep; keep; exact Hw].
  destruct (match modelInfo (svc (setSystemAudioProc (Some spawned) (emit Pkill w))) with
            | Some mi => Some mi | None => fetched end);
    cbn [fst]; [keep|]; keep; keep; exact Hw.
Qed.

Lemma consistent_onCaptureData (data : Buffer) w :
  consistent w -> consistent (onCaptureData data w).
Proof.
  intros Hw. destruct (capture w) as [cap|] eqn:E.
  - destruct (onCaptureData_spec data w cap E) as (chunks & leftover & l & _ & _ & _ & -> & _).
    keep. keep. exact Hw.
  - unfold onCaptureData. rewrite E. exact Hw.
Qed.

Lemma consistent_stopMacOSAudioCapture w :
  consistent w -> consistent (stopMacOSAudioCapture w).
Proof.
  intros Hw. unfold stopMacOSAudioCapture.
  destruct (systemAudioProc (svc w)); [keep; keep|]; exact Hw.
Qed.

(** *** closeSessions *)

Lemma consistent_clearCompletionTimer who w :
  consistent w ->
  consistent (clearCompletionTimer who w) /\
  quietCompletion who (clearCompletionTimer who w) /\
  incl (timers (clearCompletionTimer who w)) (timers w).
Proof.
  intros Hw. unfold clearCompletionTimer.
  pose proof (quietCompletion_clearIfArmed who w Hw) as Hq.
  destruct (completionTimer (channel who w)) as [id|] eqn:E; cbn [clearIfArmed] in Hq.
  - split; [|split].
    + apply consistent_setCompletionTimer; [apply consistent_clearTimeout, Hw | exact Hq].
    + exact Hq.
    + apply incl_clearTimeout.
  - split; [exact Hw|]. split; [exact Hq|]. apply incl_refl.
Qed.

Lemma consistent_clearAudioTimer who w :
  consistent w ->
  consistent (clearAudioTimer who w) /\
  quietAudio who (clearAudioTimer who w) /\
  incl (timers (clearAudioTimer who w)) (timers w).
Proof.
  intros Hw. unfold clearAudioTimer.
  pose proof (quietAudio_clearIfArmed who w Hw) as Hq.
  destruct (audioTimer (channel who w)) as [id|] eqn:E; cbn [clearIfArmed] in Hq.
  - split; [|split].
    + pose proof (consistent_clearAudio who _ (consistent_clearTimeout id w Hw) Hq) as [F N C A B].
      constructor; auto.
      * intros who' x Hx Hcb. specialize (C who' x Hx Hcb).
        destruct who, who'; exact C.
      * intros who' x Hx Hcb. specialize (A who' x Hx Hcb).
        destruct who, who'; exact A.
      * intros who'. specialize (B who'). destruct who, who'; exact B.
    + exact Hq.
    + apply incl_clearTimeout.
  - split; [exact Hw|]. split; [exact Hq|]. apply incl_refl.
Qed.

Lemma sameBooks_closeSession who w : sameBooks w (closeSession who w).
Proof.
  unfold closeSession. destruct (sttSession (channel who w)); [|apply sameBooks_refl].
  same_books.
Qed.

Lemma sameBooks_stopMacOSAudioCapture w : sameBooks w (stopMacOSAudioCapture w).
Proof.
  unfold stopMacOSAudioCapture. destruct (systemAudioProc (svc w)); [|apply sameBooks_refl].
  same_books.
Qed.

(** After the synchronous part of [closeSessions] the bookkeeping is
    consistent and no timer at all is pending. *)
Lemma closeSessionsBegin_cancels w :
  consistent w ->
  consistent (closeSessionsBegin w) /\ timers (closeSessionsBegin w) = [].
Proof.
  intros Hw. unfold closeSessionsBegin.
  set (w0 := stopMacOSAudioCapture w).
  assert (H0 : consistent w0)
    by (eapply consistent_same; [apply sameBooks_stopMacOSAudioCapture | exact Hw]).
  destruct (consistent_clearCompletionTimer Me _ H0) as (H1 & Q1 & _).
  set (w1 := clearCompletionTimer Me w0) in *.
  destruct (consistent_clearCompletionTimer Them _ H1) as (H2 & Q2 & I2).
  set (w2 := clearCompletionTimer Them w1) in *.
  destruct (consistent_clearAudioTimer Me _ H2) as (H3 & Q3 & I3).
  set (w3 := clearAudioTimer Me w2) in *.
  destruct (consistent_clearAudioTimer Them _ H3) as (H4 & Q4 & I4).
  set (w4 := clearAudioTimer Them w3) in *.
  assert (Hs : sameBooks w4 (closeSession Them (closeSession Me w4))).
  { eapply sameBooks_trans; apply sameBooks_closeSession. }
  split; [eapply consistent_same; [exact Hs | exact H4]|].
  rewrite (sameBooks_timers _ _ Hs).
  assert (Hnone : forall x, In x (timers w4) -> False).
  { intros x Hx. destruct (callback x) as [[|]|[|]] eqn:Ecb.
    - apply (Q1 x); [apply I2, I3, I4, Hx | exact Ecb].
    - apply (Q2 x); [apply I3, I4, Hx | exact Ecb].
    - apply (Q3 x); [apply I4, Hx | exact Ecb].
    - apply (Q4 x); [exact Hx | exact Ecb]. }
  destruct (timers w4) as [|x rest]; [reflexivity|].
  elim (Hnone x). left. reflexivity.
Qed.

Lemma consistent_closeSessionsEnd w : consistent w -> consistent (closeSessionsEnd w).
Proof. intros Hw. unfold closeSessionsEnd. keep. keep. keep. keep. keep. exact Hw. Qed.

(** *** The event loop *)

Lemma nextDue_In t ts x : nextDue t ts = Some x -> In x ts.
Proof.
  revert x; induction ts as [|y rest IH]; cbn; intros x; [discriminate|].
  destruct (due y <=? t).
  - destruct (nextDue t rest) as [z|].
    + destruct (due y <=? due z); intros H; injection H as <-; auto.
    + intros H; injection H as <-; auto.
  - auto.
Qed.

Lemma timers_runCallback cb w : timers (runCallback cb w) = timers w.
Proof.
  destruct cb; [apply timers_flushCompletion | apply timers_sendBufferedAudio].
Qed.

Lemma consistent_fire x w :
  consistent w -> In x (timers w) ->
  consistent (runCallback (callback x)
                (setNow (Z.max (now w) (due x)) (clearTimeout (tid x) w))).
Proof.
  intros Hw Hx.
  assert (Hc : consistent (setNow (Z.max (now w) (due x)) (clearTimeout (tid x) w)))
    by (keep; apply consistent_clearTimeout, Hw).
  destruct (callback x) as [who|who] eqn:Ecb; cbn [runCallback].
  - apply consistent_flushCompletion; [exact Hc|].
    exact (quietCompletion_clearTimeout who x w Hw Hx Ecb).
  - apply consistent_sendBufferedAudio; [exact Hc|].
    exact (quietAudio_clearTimeout who x w Hw Hx Ecb).
Qed.

Lemma consistent_fireDue fuel t : forall w, consistent w -> consistent (fireDue fuel t w).
Proof.
  induction fuel as [|k IH]; intros w Hw; cbn [fireDue]; [exact Hw|].
  destruct (nextDue t (timers w)) as [x|] eqn:E; [|exact Hw].
  apply IH, consistent_fire; [exact Hw | exact (nextDue_In _ _ _ E)].
Qed.

Lemma consistent_advance t w : consistent w -> consistent (advance t w).
Proof. intros Hw. unfold advance. keep. apply consistent_fireDue, Hw. Qed.

Lemma consistent_handle ev w : consistent w -> consistent (handle ev w).
Proof.
  intros Hw. destruct ev; cbn [handle].
  - keep. exact Hw.
  - apply consistent_initializeSttSessions, Hw.
  - apply consistent_handleMessage, Hw.
  - destruct (sendAudio who data mimeType fetched w) as [w'|e] eqn:E; [|exact Hw].
    exact (consistent_sendAudio _ _ _ _ _ _ Hw E).
  - apply consistent_transcribeAudioSettled, Hw.
  - apply consistent_startMacOSAudioCapture, Hw.
  - apply consistent_onCaptureData, Hw.
  - unfold onCaptureExit. keep. keep. exact Hw.
  - apply consistent_stopMacOSAudioCapture, Hw.
  - apply closeSessionsBegin_cancels, Hw.
  - apply consistent_closeSessionsEnd, Hw.
  - exact Hw.
Qed.

Lemma consistent_boot : consistent boot.
Proof.
  constructor; cbn; try constructor; try contradiction.
  intros who _. destruct who; reflexivity.
Qed.

(** Every state the service can get into is consistent. *)
Lemma reachable_consistent w : reachable w -> consistent w.
Proof.
  induction 1 as [|t ev w Hr IH]; [apply consistent_boot|].
  apply consistent_handle, consistent_advance, IH.
Qed.

(** *** One round per pending timer is enough *)

Lemma filter_length_lt {A} (p : A -> bool) l x :
  In x l -> p x = false -> (List.length (filter p l) < List.length l)%nat.
Proof.
  induction l as [|a l IH]; cbn; [contradiction|].
  intros [->|Hin] Hp.
  - rewrite Hp. pose proof (filter_length_le p l). lia.
  - specialize (IH Hin Hp). destruct (p a); cbn; lia.
Qed.

Lemma nextDue_none_nil t : nextDue t [] = None.
Proof. reflexivity. Qed.

Lemma fireDue_complete fuel t :
  forall w, (List.length (timers w) <= fuel)%nat ->
            nextDue t (timers (fireDue fuel t w)) = None.
Proof.
  induction fuel as [|k IH]; intros w Hlen; cbn [fireDue].
  - destruct (timers w); [reflexivity | cbn in Hlen; lia].
  - destruct (nextDue t (timers w)) as [x|] eqn:E; [|exact E].
    apply IH. rewrite timers_runCallback. cbn [timers setNow clearTimeout].
    pose proof (@filter_length_lt _ (fun y => negb (tid y =? tid x)%nat) (timers w) x
                  (nextDue_In _ _ _ E)) as H.
    cbv beta in H. rewrite Nat.eqb_refl in H. specialize (H eq_refl). lia.
Qed.

(** [advance] leaves no timer that is due. *)
Lemma advance_complete t w : nextDue t (timers (advance t w)) = None.
Proof. unfold advance. cbn [timers setNow]. apply fireDue_complete. lia. Qed.

End Preservation.

(* ===================================================================== *)
(** * The window timer, closing, and the capture path *)
(* ===================================================================== *)

Section WindowAndClose.

Import JsString NodeBuffer Provider Stt Spec Samples.
Local Open Scope Z_scope.

Lemma reachable_run evs : forall w, reachable w -> reachable (run evs w).
Proof.
  induction evs as [|[t ev] rest IH]; intros w Hw; cbn [run]; [exact Hw|].
  apply IH. now constructor.
Qed.

Lemma isCallback_true cb x : isCallback cb x = true -> callback x = cb.
Proof.
  unfold isCallback. destruct (callback x) as [[|]|[|]], cb as [[|]|[|]];
    intros H; try reflexivity; discriminate.
Qed.

(** Timers with distinct handles of which any two carry the same handle:
    there is at most one. *)
Lemma at_most_one (l : list Timer) :
  NoDup (map tid l) ->
  (forall x y, In x l -> In y l -> tid x = tid y) ->
  (List.length l <= 1)%nat.
Proof.
  destruct l as [|a [|b rest]]; cbn; intros Hnd Hsame; try lia.
  exfalso. inversion Hnd as [|? ? Hnotin _]; subst.
  apply Hnotin. left. symmetry. apply Hsame; auto.
Qed.










(** C4, at the input on which the code departs from it: a gaia session
    and one 9600-byte read.  The listener sends the mono chunk out for
    metering, then calls [sendRealtimeInput], which a gaia session does
    not have; the error is caught and logged, and the remote channel's
    batch buffer and window timer stay untouched.  The same chunk given
    to [sendSystemAudioContent] is buffered under a newly armed window
    timer. *)
Theorem capture_bypasses_audio_batcher :
  let chunk := repeat x00 chunkBytes in
  let mono := repeat x00 (chunkBytes / 2) in
  let w' := onCaptureData chunk gaiaCapturing in
  effects w' = effects gaiaCapturing
               ++ [SystemAudioData mono; ConsoleError "Error sending system audio"] /\
  audioBuffer (channel Them w') = [] /\
  audioTimer (channel Them w') = None /\
  timers w' = [] /\
  exists w'',
    sendSystemAudioContent mono "" None gaiaCapturing = Ok w'' /\
    audioBuffer (channel Them w'') = [mono] /\
    audioTimer (channel Them w'') = Some 0%nat /\
    timers w'' = [{| tid := 0; due := 5000; callback := SendBufferedAudio Them |}].
Proof.
  vm_compute. repeat split. eexists. repeat split.
Qed.

(** The theorem at a streaming service whose capture process writes
    14400 bytes in three reads: one chunk of 9600 bytes is forwarded,
    to the renderer and to the session, and 4800 bytes are kept. *)
Lemma capture_chunking_witness :
  capture openaiCapturing
  = Some {| captureAudioBuffer := []; captureModelInfo := openaiInfo |} /\
  let reads := [repeat x01 4800; repeat x02 4800; repeat x03 4800] in
  let stream := List.concat reads in
  exists chunks leftover,
    stream = List.concat chunks ++ leftover /\
    effects (readAll reads openaiCapturing)
    = effects openaiCapturing
      ++ flat_map (chunkEffects (Some realtimeSession) openaiInfo) chunks /\
    meteringChunks (effects (readAll reads openaiCapturing))
    = meteringChunks (effects openaiCapturing) ++ map leftChannel chunks /\
    (forall session,
        Some realtimeSession = Some session ->
        sessionInputs Them (effects (readAll reads openaiCapturing))
        = sessionInputs Them (effects openaiCapturing)
          ++ (if hasSendRealtimeInput session
              then map (fun ch => RawAudio (leftChannel ch)) chunks
              else [])) /\
    option_map captureAudioBuffer (capture (readAll reads openaiCapturing))
    = Some leftover /\
    Z.of_nat (List.length chunks) = 1 /\
    Z.of_nat (List.length leftover) = 4800 /\
    Z.of_nat (List.length leftover) <= 9599 /\
    Z.of_nat chunkBytes = 9600 /\
    forall k, (k < List.length chunks)%nat ->
      nth k chunks [] = bytesAt (k * chunkBytes) chunkBytes stream /\
      Z.of_nat (List.length (nth k chunks [])) = 9600 /\
      Z.of_nat (k * chunkBytes) mod 4 = 0.
Proof.
  split; [reflexivity|].
  exact (capture_chunking [repeat x01 4800; repeat x02 4800; repeat x03 4800] openaiCapturing
           {| captureAudioBuffer := []; captureModelInfo := openaiInfo |}
           eq_refl eq_refl).
Defined.

Lemma batch_failure_leaves_clean_state_witness :
  sttSession (channel Me gaiaBuffering) = Some gaiaCreateSTT /\
  modelInfo (svc gaiaBuffering) = Some gaiaInfo /\
  provider gaiaInfo = "gaia"%string /\
  let w1 := sendBufferedAudio Me gaiaBuffering in
  let w2 := transcribeAudioSettled Me (Throw (GenericError "Whisper API error")) w1 in
  audioBuffer (channel Me w1) = [] /\
  audioTimer (channel Me w1) = None /\
  svc w2 = svc w1 /\
  timers w2 = timers w1 /\
  transcriptEvents (effects w2) = transcriptEvents (effects gaiaBuffering) /\
  transcribeCalls (effects w2) = transcribeCalls (effects w1) /\
  exists w3,
    sendAudio Me [x03] "" None w2 = Ok w3 /\
    audioBuffer (channel Me w3) = [[x03]] /\
    audioTimer (channel Me w3) = Some (nextTimer w2) /\
    timers w3 = timers w2 ++ [{| tid := nextTimer w2;
                                 due := now w2 + 5000;
                                 callback := SendBufferedAudio Me |}].
Proof.
  split; [reflexivity|]. split; [reflexivity|]. split; [reflexivity|].
  apply (batch_failure_leaves_clean_state Me gaiaBuffering
           (GenericError "Whisper API error") [x03] "" None gaiaCreateSTT gaiaInfo);
    reflexivity.
Defined.

End WindowAndClose.

(* ===================================================================== *)
(** * Strings: trimming and joining *)
(* ===================================================================== *)

Section Strings.

Import JsString Spec.
Local Open Scope string_scope.


Lemma append_empty_r s : s ++ "" = s.
Proof. induction s as [|c s IH]; cbn; [reflexivity | now rewrite IH]. Qed.

Lemma append_assoc a b c : (a ++ b) ++ c = a ++ b ++ c.
Proof. induction a as [|x a IH]; cbn; [reflexivity | now rewrite IH]. Qed.



















Lemma concat_snoc_adjacent acc text :
  String.concat "" (acc ++ [text]) = String.concat "" acc ++ text.
Proof.
  induction acc as [|a acc IH]; [reflexivity|].
  destruct acc as [|b acc].
  - cbn. reflexivity.
  - change (String.concat "" ((a :: b :: acc) ++ [text]))
      with (a ++ "" ++ String.concat "" ((b :: acc) ++ [text])).
    rewrite IH.
    change (String.concat "" (a :: b :: acc))
      with (a ++ "" ++ String.concat "" (b :: acc)).
    cbn [append]. now rewrite append_assoc.
Qed.


End Strings.

(* ===================================================================== *)
(** * Runs of fragments in time *)
(* ===================================================================== *)

Section TimedRuns.

Import JsString NodeBuffer Provider Stt Spec Samples.
Local Open Scope Z_scope.

Local Arguments trim : simpl never.
Local Arguments String.append : simpl never.
Local Arguments String.eqb : simpl never.
Local Arguments String.concat : simpl never.
Local Arguments truthy : simpl never.
Local Arguments includes : simpl never.
Local Arguments Z.add : simpl never.
Local Arguments Z.max : simpl never.
Local Arguments Z.leb : simpl never.

(** *** The clock *)

Lemma nextDue_later t ts : Forall (fun x => t < due x) ts -> nextDue t ts = None.
Proof.
  induction 1 as [|x rest Hx _ IH]; [reflexivity|].
  cbn [nextDue]. destruct (Z.leb_spec (due x) t); [lia | exact IH].
Qed.

(** Nothing is due: only the clock moves. *)
Lemma advance_waits t w :
  Forall (fun x => t < due x) (timers w) ->
  advance t w = setNow (Z.max (now w) t) w.
Proof.
  intros H. unfold advance.
  assert (E : fireDue (List.length (timers w)) t w = w).
  { destruct (List.length (timers w)); cbn [fireDue]; [reflexivity|].
    now rewrite nextDue_later. }
  now rewrite E.
Qed.



Lemma logMessageError_finals who m w :
  finalEvents (effects (logMessageError who m w)) = finalEvents (effects w).
Proof.
  unfold logMessageError. destruct (error m); [|reflexivity].
  cbn [effects emit]. rewrite finalEvents_app. apply app_nil_r.
Qed.

Lemma logMessageError_frame who m w :
  svc (logMessageError who m w) = svc w /\
  timers (logMessageError who m w) = timers w /\
  now (logMessageError who m w) = now w.
Proof. unfold logMessageError. destruct (error m); repeat split. Qed.


Lemma clearIfArmed_frame h w :
  svc (clearIfArmed h w) = svc w /\
  effects (clearIfArmed h w) = effects w /\
  now (clearIfArmed h w) = now w /\
  nextTimer (clearIfArmed h w) = nextTimer w.
Proof. destruct h; repeat split. Qed.


(** *** Delta-streaming fragments *)



(** *** Flushing *)

Lemma notifyComplete_finals who text w :
  finalEvents (effects (notifyComplete who text w)) = finalEvents (effects w).
Proof.
  unfold notifyComplete. destruct (onTranscriptionComplete (svc w)); [|reflexivity].
  cbn [effects emit]. rewrite finalEvents_app. apply app_nil_r.
Qed.

Lemma notifyStatus_finals status w :
  finalEvents (effects (notifyStatus status w)) = finalEvents (effects w).
Proof.
  unfold notifyStatus. destruct (onStatusUpdate (svc w)); [|reflexivity].
  cbn [effects emit]. rewrite finalEvents_app. apply app_nil_r.
Qed.



(** *** Runs of delta-streaming messages *)

Lemma isDelta_not_completed m : isDelta m = true -> isCompleted m = false.
Proof.
  unfold isDelta, isCompleted. intros H. apply String.eqb_eq in H.
  rewrite H. reflexivity.
Qed.





(** *** Turn-based fragments *)






Lemma concat_adjacent_app a b :
  String.concat "" (a ++ b) = (String.concat "" a ++ String.concat "" b)%string.
Proof.
  induction b as [|x b IH] using rev_ind.
  - rewrite app_nil_r. cbn [String.concat]. now rewrite append_empty_r.
  - rewrite app_assoc, !concat_snoc_adjacent, IH. now rewrite append_assoc.
Qed.



End TimedRuns.

(* ===================================================================== *)
(** * Turns of a delta-streaming provider *)
(* ===================================================================== *)

Section StreamingTurns.

Import JsString NodeBuffer Provider Stt Spec Samples.
Local Open Scope Z_scope.




End StreamingTurns.

(* ===================================================================== *)
(** * Turns of the turn-based provider *)
(* ===================================================================== *)

Section TurnBasedTurns.

Import JsString NodeBuffer Provider Stt Spec Samples.
Local Open Scope Z_scope.




End TurnBasedTurns.

(* ===================================================================== *)
(** * The batch window *)
(* ===================================================================== *)

Section BatchWindow.

Import JsString NodeBuffer Provider Stt Spec Samples.
Local Open Scope Z_scope.

Local Arguments Z.add : simpl never.
Local Arguments Z.max : simpl never.
Local Arguments String.eqb : simpl never.








End BatchWindow.

(* ===================================================================== *)
(** * Edges of the service *)
(* ===================================================================== *)

Section ServiceEdges.

Import JsString NodeBuffer Provider Stt Spec Samples.
Local Open Scope Z_scope.

Local Arguments trim : simpl never.
Local Arguments String.append : simpl never.
Local Arguments String.eqb : simpl never.
Local Arguments truthy : simpl never.
Local Arguments includes : simpl never.

(** After a flush that emitted, nothing is left to flush. *)
Lemma flushCompletion_drained who w :
  flushCompletion who w = w \/
  (completionBuffer (channel who (flushCompletion who w)) = EmptyString /\
   currentUtterance (channel who (flushCompletion who w)) = EmptyString /\
   exists mi text,
     modelInfo (svc w) = Some mi /\
     effects (flushCompletion who w)
     = effects (notifyStatus "Listening..."
                  (emit (SttUpdate who text false true (now w))
                     (notifyComplete who text w)))).
Proof.
  unfold flushCompletion.
  destruct (modelInfo (svc w)) as [mi|] eqn:Hm; [|now left].
  destruct (truthy (trim _)) eqn:Ht; cbn [negb]; [|now left].
  right. unfold notifyStatus, notifyComplete.
  destruct who; destruct (onTranscriptionComplete (svc w)) eqn:Hc;
    cbn [svc update withSvc emit onStatusUpdate onTranscriptionComplete];
    destruct (onStatusUpdate (svc w)) eqn:Hst;
    (split; [reflexivity|]; split; [reflexivity|];
     exists mi; eexists; split; reflexivity).
Qed.

(** A second flush with nothing in between does nothing, whatever the
    state: a flush emits at most one final event, and none the second
    time. *)
Theorem flushCompletion_idempotent (who : Speaker) (w : World) :
  flushCompletion who (flushCompletion who w) = flushCompletion who w /\
  (List.length (finalEvents (effects (flushCompletion who w)))
   <= S (List.length (finalEvents (effects w))))%nat.
Proof.
  destruct (flushCompletion_drained who w) as [Hsame | (Hb & Hu & mi & text & Hm & He)].
  - rewrite !Hsame. split; [reflexivity | lia].
  - split.
    + unfold flushCompletion at 1. rewrite Hb, Hu.
      destruct (modelInfo (svc (flushCompletion who w))); reflexivity.
    + rewrite He, notifyStatus_finals. cbn [effects emit].
      rewrite finalEvents_app, notifyComplete_finals, length_app. cbn. lia.
Qed.

(** Messages that reach a service without model info are dropped. *)
Lemma run_closed who ms :
  forall w,
    modelInfo (svc w) = None -> timers w = [] ->
    effects (run (messagesTo who ms) w) = effects w /\
    svc (run (messagesTo who ms) w) = svc w /\
    timers (run (messagesTo who ms) w) = [].
Proof.
  induction ms as [|[t m] rest IH]; intros w Hm Ht; [now cbn|].
  cbn [messagesTo map fst snd run]. fold (messagesTo who rest).
  assert (Hd : deliver t (ProviderMessage who m) w = setNow (Z.max (now w) t) w).
  { unfold deliver. rewrite advance_waits by (rewrite Ht; constructor).
    cbn [handle]. unfold handleMessage. cbn [svc setNow]. now rewrite Hm. }
  rewrite Hd. destruct (IH (setNow (Z.max (now w) t) w) Hm Ht) as (H1 & H2 & H3).
  auto.
Qed.

(** A transcription that is not blank is reported whatever the state of
    the service. *)
Lemma transcribeAudioSettled_reports who text w :
  truthy text && truthy (trim text) = true ->
  transcriptEvents (effects (transcribeAudioSettled who (Ok (Some text)) w))
  = transcriptEvents (effects w)
    ++ [SttUpdate who
          (trim (trim (stripDelimited "(" ")" false (stripDelimited "[" "]" false text))))
          false true (now w)].
Proof.
  intros Ht. unfold transcribeAudioSettled. rewrite Ht.
  set (clean := trim (trim (stripDelimited "(" ")" false
                              (stripDelimited "[" "]" false text)))).
  destruct (notifyComplete_effects who (trim text) w) as (l1 & E1 & T1 & _).
  destruct (notifyComplete_frame who (trim text) w) as (S1 & _ & _ & N1 & _).
  set (w1 := notifyComplete who (trim text) w) in *.
  set (w2 := emit (SttUpdate who clean false true (now w1)) w1).
  destruct (notifyStatus_effects "Listening..." w2) as (l2 & E2 & T2 & _).
  cbn [effects update withSvc].
  rewrite E2. subst w2. cbn [effects emit]. rewrite E1, N1.
  rewrite !transcriptEvents_app, T1, T2, !app_nil_r. reflexivity.
Qed.

(** A read that completes a chunk is forwarded to the renderer whatever
    the state of the service. *)
Lemma onCaptureData_forwards data w cap :
  capture w = Some cap ->
  (chunkBytes <= List.length (captureAudioBuffer cap ++ data))%nat ->
  exists sent,
    sent <> [] /\
    meteringChunks (effects (onCaptureData data w)) = meteringChunks (effects w) ++ sent.
Proof.
  intros Hcap Hlen.
  destruct (onCaptureData_spec data w cap Hcap)
    as (chunks & leftover & l & Hbuf & Hall & Hlt & Hw & Hm).
  exists (map leftChannel chunks). split.
  - destruct chunks as [|ch chunks]; [|discriminate].
    cbn [List.concat app] in Hbuf. rewrite Hbuf in Hlen. lia.
  - rewrite Hw. cbn [effects setCapture emitAll].
    now rewrite meteringChunks_app, Hm.
Qed.

(** [closeSessions], when nothing runs during its await and the
    [close()] calls resolve, leaves the service closed: no model info,
    no session.  In a closed state no session counts as active, a
    provider message changes nothing, a flush changes nothing, audio is
    refused with an error, and the macOS capture does not start.  Two
    things still get through: a [transcribeAudio] result that settles
    then and is not blank is emitted as a final transcript event, and a
    read of the capture process that completes a chunk, as long as its
    listener is attached, is sent to the renderer. *)
Theorem closed_service_behaviour :
  (forall w, closed (closeSessions w)) /\
  (forall w, closed w ->
     isSessionActive w = false /\
     (forall who m, handleMessage who m w = w) /\
     (forall who ms, timers w = [] ->
                     effects (run (messagesTo who ms) w) = effects w) /\
     (forall who, flushCompletion who w = w) /\
     (forall who data mimeType fetched,
         exists msg, sendAudio who data mimeType fetched w = Throw (GenericError msg)) /\
     (forall platform spawned fetched,
         startMacOSAudioCapture platform spawned fetched w = (w, Ok false)) /\
     (forall who text,
         truthy text && truthy (trim text) = true ->
         exists final,
           transcriptEvents (effects (transcribeAudioSettled who (Ok (Some text)) w))
           = transcriptEvents (effects w) ++ [SttUpdate who final false true (now w)]) /\
     (forall cap data,
         capture w = Some cap ->
         (chunkBytes <= List.length (captureAudioBuffer cap ++ data))%nat ->
         exists sent,
           sent <> [] /\
           meteringChunks (effects (onCaptureData data w))
           = meteringChunks (effects w) ++ sent)).
Proof.
  split.
  - intros w. unfold closed, closeSessions, closeSessionsBegin.
    split; [reflexivity|].
    generalize (clearAudioTimer Them
                  (clearAudioTimer Me
                     (clearCompletionTimer Them
                        (clearCompletionTimer Me (stopMacOSAudioCapture w))))).
    intros w0.
    change (sttSession (channel Me (closeSession Them (closeSession Me w0))) = None /\
            sttSession (channel Them (closeSession Them (closeSession Me w0))) = None).
    unfold closeSession.
    destruct w0 as [[[s1 u1 b1 t1 a1 at1] [s2 u2 b2 t2 a2 at2] p c1 c2 mi] cap ts nx nw ef].
    destruct s1, s2; split; reflexivity.
  - intros w (Hm & Hme & Hthem).
    assert (Hs : forall who, sttSession (channel who w) = None)
      by (intros [|]; assumption).
    split; [unfold isSessionActive; now rewrite Hme|].
    split; [intros who m; unfold handleMessage; now rewrite Hm|].
    split; [intros who ms Ht; apply (run_closed who ms w Hm Ht)|].
    split; [intros who; unfold flushCompletion; now rewrite Hm|].
    split.
    { intros who data mimeType fetched. unfold sendAudio. rewrite Hs. eauto. }
    split.
    { intros platform spawned fetched. unfold startMacOSAudioCapture.
      rewrite Hthem. now destruct (negb (String.eqb platform "darwin")). }
    split.
    { intros who text Ht. eexists. exact (transcribeAudioSettled_reports who text w Ht). }
    intros cap data Hcap Hlen. exact (onCaptureData_forwards data w cap Hcap Hlen).
Qed.

(** The theorem at a gaia service closed while its capture process was
    running: the result "hi" of an earlier submission and a read of one
    chunk still get through. *)
Lemma closed_service_behaviour_witness :
  let w := closeSessions gaiaCapturing in
  closed w /\
  capture w = Some {| captureAudioBuffer := []; captureModelInfo := gaiaInfo |} /\
  isSessionActive w = false /\
  (forall who m, handleMessage who m w = w) /\
  (forall who ms, timers w = [] ->
                  effects (run (messagesTo who ms) w) = effects w) /\
  (forall who, flushCompletion who w = w) /\
  (forall who data mimeType fetched,
      exists msg, sendAudio who data mimeType fetched w = Throw (GenericError msg)) /\
  (forall platform spawned fetched,
      startMacOSAudioCapture platform spawned fetched w = (w, Ok false)) /\
  (exists final,
      transcriptEvents (effects (transcribeAudioSettled Me (Ok (Some "hi"%string)) w))
      = transcriptEvents (effects w) ++ [SttUpdate Me final false true (now w)]) /\
  (exists sent,
      sent <> [] /\
      meteringChunks (effects (onCaptureData (repeat x00 chunkBytes) w))
      = meteringChunks (effects w) ++ sent).
Proof.
  intros w.
  assert (Hc : closed w) by exact (proj1 closed_service_behaviour gaiaCapturing).
  assert (Hcap : capture w
                 = Some {| captureAudioBuffer := []; captureModelInfo := gaiaInfo |})
    by (vm_compute; reflexivity).
  destruct (proj2 closed_service_behaviour w Hc)
    as (H1 & H2 & H3 & H4 & H5 & H6 & H7 & H8).
  split; [exact Hc|]. split; [exact Hcap|].
  split; [exact H1|]. split; [exact H2|]. split; [exact H3|]. split; [exact H4|].
  split; [exact H5|]. split; [exact H6|].
  split; [exact (H7 Me "hi"%string eq_refl)|].
  apply (H8 {| captureAudioBuffer := []; captureModelInfo := gaiaInfo |}
            (repeat x00 chunkBytes) Hcap).
  cbn [captureAudioBuffer app]. rewrite repeat_length. apply Nat.le_refl.
Defined.

(** On gemini a message that neither completes the turn nor carries a
    fragment (no transcription, an empty one, one that is blank or the
    noise marker once trimmed) is dropped: the state is exactly what it
    was, so no event is emitted, nothing is buffered, no timer is armed,
    and not even its error field is logged. *)
Theorem gemini_drops_what_is_no_fragment
    (who : Speaker) (mi : ModelInfo) (m : Message) (w : World) :
  modelInfo (svc w) = Some mi ->
  provider mi = "gemini"%string ->
  isTurnComplete m = false ->
  turnFragment m = None ->
  handleMessage who m w = w /\
  forall t, deliver t (ProviderMessage who m) w = advance t w.
Proof.
  intros Hm Hp Hc Hf.
  assert (H : forall x, modelInfo (svc x) = Some mi -> handleMessage who m x = x).
  { intros x Hx. unfold handleMessage. rewrite Hx, Hp.
    change (String.eqb "gemini" "gemini") with true. cbv iota.
    unfold isTurnComplete in Hc. unfold turnFragment in Hf.
    destruct (serverContent m) as [c|]; [|reflexivity].
    rewrite Hc in Hf |- *.
    destruct (inputTranscription c) as [text|]; [|reflexivity].
    destruct (truthy text) eqn:Ht; [|reflexivity]. cbn [negb].
    destruct (truthy (trim text)) eqn:Htt; [|reflexivity]. cbn [negb orb andb] in Hf |- *.
    destruct (String.eqb (trim text) "<noise>"); [reflexivity | discriminate]. }
  split; [exact (H w Hm)|].
  intros t. unfold deliver. cbn [handle]. apply H.
  unfold advance. cbn [svc setNow].
  generalize (List.length (timers w)). intros n. revert w Hm.
  induction n as [|n IH]; intros w Hm; cbn [fireDue]; [exact Hm|].
  destruct (nextDue t (timers w)) as [x|]; [|exact Hm].
  apply IH.
  destruct (callback x) as [who'|who']; cbn [runCallback].
  - unfold flushCompletion. cbn [svc setNow clearTimeout]. rewrite Hm.
    destruct (negb _); [exact Hm|].
    match goal with
    | |- modelInfo (svc (notifyStatus ?s ?x)) = _ =>
        destruct (notifyStatus_frame s x) as (-> & _)
    end.
    rewrite !modelInfo_update. cbn [svc emit].
    match goal with
    | |- modelInfo (svc (notifyComplete ?a ?b ?x)) = _ =>
        destruct (notifyComplete_frame a b x) as (-> & _)
    end.
    exact Hm.
  - destruct (sendBufferedAudio_shape who'
                (setNow (Z.max (now w) (due x)) (clearTimeout (tid x) w)))
      as (l & -> & _).
    cbn [svc emitAll]. rewrite !modelInfo_update. exact Hm.
Qed.

(** The theorem at a blank transcription and at the noise marker. *)
Lemma gemini_drops_what_is_no_fragment_witness :
  (handleMessage Me (transcriptionMessage "  ") geminiListening = geminiListening /\
   forall t, deliver t (ProviderMessage Me (transcriptionMessage "  ")) geminiListening
             = advance t geminiListening) /\
  (handleMessage Me (transcriptionMessage " <noise> ") geminiListening = geminiListening /\
   forall t, deliver t (ProviderMessage Me (transcriptionMessage " <noise> ")) geminiListening
             = advance t geminiListening).
Proof.
  split.
  - exact (gemini_drops_what_is_no_fragment Me geminiInfo (transcriptionMessage "  ")
             geminiListening eq_refl eq_refl eq_refl eq_refl).
  - exact (gemini_drops_what_is_no_fragment Me geminiInfo (transcriptionMessage " <noise> ")
             geminiListening eq_refl eq_refl eq_refl eq_refl).
Defined.

Lemma transcriptEvents_logMessageError who m w :
  transcriptEvents (effects (logMessageError who m w)) = transcriptEvents (effects w).
Proof.
  unfold logMessageError. destruct (error m); [|reflexivity].
  cbn [effects emit]. rewrite transcriptEvents_app. apply app_nil_r.
Qed.

(** A delta of a delta-streaming provider: its text is appended to the
    running utterance whatever it is; the completion buffer is left
    alone; the channel's quiet-period timer is cancelled and none is
    armed; no final event is emitted; and one partial event with the
    buffer and the utterance joined by a space is emitted, unless the
    text is empty or carries the marker [vq_lbr_audio_], in which case
    nothing is emitted although the text has been accumulated. *)
Theorem delta_accumulates_and_cancels
    (who : Speaker) (mi : ModelInfo) (m : Message) (w : World) :
  modelInfo (svc w) = Some mi ->
  String.eqb (provider mi) "gemini" = false ->
  isDelta m = true ->
  let w' := handleMessage who m w in
  let buffer := completionBuffer (channel who w) in
  let utterance := (currentUtterance (channel who w) ++ messageText m)%string in
  currentUtterance (channel who w') = utterance /\
  completionBuffer (channel who w') = buffer /\
  completionTimer (channel who w') = None /\
  timers w' = timers (clearIfArmed (completionTimer (channel who w)) w) /\
  finalEvents (effects w') = finalEvents (effects w) /\
  transcriptEvents (effects w')
  = transcriptEvents (effects w)
    ++ (if truthy (messageText m) && negb (includes (messageText m) "vq_lbr_audio_")
        then [SttUpdate who (buffer ++ (if truthy buffer then " " else "") ++ utterance)
                true false (now w)]
        else []).
Proof.
  intros Hm Hp Hty w' buffer utterance.
  apply String.eqb_eq in Hty.
  subst w'. unfold handleMessage. rewrite Hm, Hp, Hty.
  change (String.eqb deltaType "conversation.item.input_audio_transcription.delta")
    with true.
  cbv iota zeta.
  destruct (clearIfArmed_frame (completionTimer (channel who w)) w)
    as (Hs1 & He1 & Hn1 & _).
  set (w1 := clearIfArmed (completionTimer (channel who w)) w) in *.
  assert (Hc1 : channel who w1 = channel who w) by (unfold channel; now rewrite Hs1).
  rewrite !channel_update_same.
  cbn [completionBuffer currentUtterance completionTimer
       setCurrentUtterance setCompletionTimer].
  rewrite Hc1. fold buffer utterance.
  set (w3 := update who (setCurrentUtterance utterance)
               (update who (setCompletionTimer None) w1)).
  assert (Hc3 : channel who w3
                = setCurrentUtterance utterance (setCompletionTimer None (channel who w))).
  { subst w3. now rewrite !channel_update_same, Hc1. }
  assert (He3 : effects w3 = effects w) by exact He1.
  assert (Hn3 : now w3 = now w) by exact Hn1.
  assert (Ht3 : timers w3 = timers w1) by reflexivity.
  assert (Hlog : forall x,
             channel who (logMessageError who m x) = channel who x /\
             timers (logMessageError who m x) = timers x).
  { intros x. destruct (logMessageError_frame who m x) as (Hs & Ht & _).
    unfold channel. now rewrite Hs, Ht. }
  destruct (truthy (messageText m) && negb (includes (messageText m) "vq_lbr_audio_")).
  - destruct (Hlog (emit (SttUpdate who (buffer ++ (if truthy buffer then " " else "")
                                         ++ utterance)%string true false (now w3)) w3))
      as (-> & ->).
    rewrite logMessageError_finals, transcriptEvents_logMessageError.
    cbn [effects emit timers]. rewrite finalEvents_app, transcriptEvents_app, He3, Hn3.
    change (channel who (emit ?e w3)) with (channel who w3). rewrite Hc3.
    cbn. rewrite app_nil_r. repeat split; reflexivity.
  - destruct (Hlog w3) as (-> & ->).
    rewrite logMessageError_finals, transcriptEvents_logMessageError, He3, Hc3.
    cbn. rewrite app_nil_r. repeat split; reflexivity.
Qed.

(** The theorem at a delta that carries the marker, arriving while a
    completed utterance waits for its quiet period. *)
Lemma delta_accumulates_and_cancels_witness :
  let m := deltaMessage "vq_lbr_audio_7" in
  let w' := handleMessage Me m openaiPending in
  currentUtterance (channel Me w') = "vq_lbr_audio_7"%string /\
  completionBuffer (channel Me w') = "hello"%string /\
  completionTimer (channel Me w') = None /\
  timers w' = [] /\
  finalEvents (effects w') = finalEvents (effects openaiPending) /\
  transcriptEvents (effects w') = transcriptEvents (effects openaiPending) ++ [].
Proof.
  exact (delta_accumulates_and_cancels Me openaiInfo (deltaMessage "vq_lbr_audio_7")
           openaiPending eq_refl eq_refl eq_refl).
Defined.

(** When [initializeSttSessions] resolves: exactly when model info with
    a key that is not empty was found, both [createSTT] calls resolved,
    and either the provider is gaia, for which the sessions are not
    looked at, or both sessions have [sendRealtimeInput].  And it is not
    atomic: when it rejects after the model info was found, the model
    info stays set, and when it rejects because a session lacks
    [sendRealtimeInput], both sessions stay assigned. *)
Theorem initializeSttSessions_outcomes
    (fetched : option ModelInfo)
    (created : result (option Session * option Session)) (w : World) :
  let realtime (s : option Session) :=
    match s with Some x => hasSendRealtimeInput x | None => false end in
  let out := initializeSttSessions fetched created w in
  (snd out = Ok true <->
   exists mi mine theirs,
     fetched = Some mi /\ truthy (apiKey mi) = true /\
     created = Ok (mine, theirs) /\
     (provider mi = "gaia"%string \/ (realtime mine = true /\ realtime theirs = true))) /\
  (forall b, snd out = Ok b -> b = true) /\
  (fetched = None -> out = (w, Throw (GenericError "AI model or API key is not configured."))) /\
  (forall mi, fetched = Some mi -> truthy (apiKey mi) = false ->
              out = (w, Throw (GenericError "AI model or API key is not configured."))) /\
  (forall mi e, fetched = Some mi -> truthy (apiKey mi) = true -> created = Throw e ->
                out = (setModelInfo (Some mi) w, Throw e)) /\
  (forall mi mine theirs e,
      fetched = Some mi -> created = Ok (mine, theirs) -> snd out = Throw e ->
      truthy (apiKey mi) = true ->
      modelInfo (svc (fst out)) = Some mi /\
      sttSession (channel Me (fst out)) = mine /\
      sttSession (channel Them (fst out)) = theirs).
Proof.
  intros realtime out. subst out. unfold initializeSttSessions.
  split; [|split; [|split; [|split; [|split]]]].
  - split.
    + destruct fetched as [mi|]; [|discriminate].
      destruct (truthy (apiKey mi)) eqn:Hk; cbn [negb]; [|discriminate].
      destruct created as [[mine theirs]|e]; [|discriminate].
      destruct (String.eqb (provider mi) "gaia") eqn:Hp.
      * intros _. exists mi, mine, theirs. apply String.eqb_eq in Hp. auto.
      * fold (realtime mine) (realtime theirs).
        destruct (realtime mine) eqn:R1, (realtime theirs) eqn:R2;
          cbn [negb orb snd]; try discriminate.
        intros _. exists mi, mine, theirs. auto 6.
    + intros (mi & mine & theirs & -> & Hk & -> & Hor). rewrite Hk. cbn [negb].
      destruct Hor as [Hp | [R1 R2]].
      * rewrite Hp. reflexivity.
      * fold (realtime mine) (realtime theirs). rewrite R1, R2.
        now destruct (String.eqb (provider mi) "gaia").
  - intros b. destruct fetched as [mi|]; [|discriminate].
    destruct (negb (truthy (apiKey mi))); [discriminate|].
    destruct created as [[mine theirs]|e]; [|discriminate].
    destruct (String.eqb (provider mi) "gaia"); [now intros [= <-]|].
    destruct (negb _ || negb _); [discriminate | now intros [= <-]].
  - now intros ->.
  - intros mi -> Hk. now rewrite Hk.
  - intros mi e -> Hk ->. now rewrite Hk.
  - intros mi mine theirs e -> -> Hthrow Hk. rewrite Hk in Hthrow |- *.
    cbn [negb] in Hthrow |- *.
    destruct (String.eqb (provider mi) "gaia"); [discriminate|].
    destruct (negb _ || negb _); [|discriminate].
    cbn [fst]. repeat split; reflexivity.
Qed.

(** On a provider other than gaia, with a session that has
    [sendRealtimeInput], audio is passed on as it arrives and never
    buffered: after any run of calls, each with its data and its mime
    type, the session has received one realtime input per call, in
    order (on gemini the data wrapped with the call's mime type, or
    with [audio/pcm;rate=24000] when none was given; the bare data
    otherwise), nothing else was emitted, the pending buffer and the
    window timer's handle are as before, and no timer is pending. *)
Theorem streaming_audio_is_forwarded_at_once
    (who : Speaker) (mi : ModelInfo) (session : Session)
    (calls : list AudioCall) (w : World) :
  modelInfo (svc w) = Some mi ->
  String.eqb (provider mi) "gaia" = false ->
  sttSession (channel who w) = Some session ->
  hasSendRealtimeInput session = true ->
  timers w = [] ->
  let payload (c : AudioCall) :=
    if String.eqb (provider mi) "gemini"
    then GeminiAudio (callData c)
           (if truthy (callMime c) then callMime c else "audio/pcm;rate=24000")
    else RawAudio (callData c) in
  let w' := run (audioCalls who calls) w in
  effects w' = effects w ++ map (fun c => RealtimeInput who (payload c)) calls /\
  sessionInputs who (effects w') = sessionInputs who (effects w) ++ map payload calls /\
  audioBuffer (channel who w') = audioBuffer (channel who w) /\
  audioTimer (channel who w') = audioTimer (channel who w) /\
  timers w' = [].
Proof.
  intros Hm Hp Hs Hrt Ht payload.
  assert (Hin : forall l, sessionInputs who (map (fun c => RealtimeInput who (payload c)) l)
                          = map payload l).
  { induction l as [|c l IH]; [reflexivity|].
    cbn [map]. unfold sessionInputs in *. cbn [flat_map]. rewrite IH.
    now destruct who. }
  revert w Hm Hs Ht.
  induction calls as [|c rest IH]; intros w Hm Hs Ht w'.
  - cbn. rewrite !app_nil_r. auto.
  - subst w'. cbn [audioCalls map run]. fold (audioCalls who rest).
    assert (Hd : deliver (callTime c)
                   (AudioContent who (callData c) (callMime c) (callFetched c)) w
                 = emit (RealtimeInput who (payload c))
                     (setNow (Z.max (now w) (callTime c)) w)).
    { unfold deliver. rewrite advance_waits by (rewrite Ht; constructor).
      cbn [handle]. unfold sendAudio.
      change (channel who (setNow (Z.max (now w) (callTime c)) w)) with (channel who w).
      cbn [svc setNow]. rewrite Hs, Hm, Hp, Hrt. unfold payload, orElse.
      destruct (String.eqb (provider mi) "gemini"); reflexivity. }
    rewrite Hd.
    destruct (IH (emit (RealtimeInput who (payload c))
                    (setNow (Z.max (now w) (callTime c)) w))
                Hm Hs Ht) as (H1 & _ & H3 & H4 & H5).
    assert (He : effects (run (audioCalls who rest)
                            (emit (RealtimeInput who (payload c))
                               (setNow (Z.max (now w) (callTime c)) w)))
                 = effects w ++ map (fun c => RealtimeInput who (payload c)) (c :: rest)).
    { rewrite H1. cbn [effects emit setNow map]. now rewrite <- app_assoc. }
    split; [exact He|]. split.
    { rewrite He. unfold sessionInputs at 1. rewrite flat_map_app.
      fold (sessionInputs who (effects w)).
      fold (sessionInputs who (map (fun c => RealtimeInput who (payload c)) (c :: rest))).
      now rewrite Hin. }
    rewrite H3, H4, H5. repeat split; reflexivity.
Qed.

(** The theorem at two calls on the remote channel of a gemini
    service, one with a mime type and one without. *)
Lemma streaming_audio_is_forwarded_at_once_witness :
  let calls :=
    [{| callTime := 10; callData := [x01; x02]; callMime := "audio/x";
        callFetched := None |};
     {| callTime := 20; callData := [x03]; callMime := "";
        callFetched := Some openaiInfo |}] in
  let w' := run (audioCalls Them calls) geminiListening in
  effects w'
  = effects geminiListening
    ++ [RealtimeInput Them (GeminiAudio [x01; x02] "audio/x");
        RealtimeInput Them (GeminiAudio [x03] "audio/pcm;rate=24000")] /\
  sessionInputs Them (effects w')
  = sessionInputs Them (effects geminiListening)
    ++ [GeminiAudio [x01; x02] "audio/x"; GeminiAudio [x03] "audio/pcm;rate=24000"] /\
  audioBuffer (channel Them w') = audioBuffer (channel Them geminiListening) /\
  audioTimer (channel Them w') = audioTimer (channel Them geminiListening) /\
  timers w' = [].
Proof.
  exact (streaming_audio_is_forwarded_at_once Them geminiInfo realtimeSession
           [{| callTime := 10; callData := [x01; x02]; callMime := "audio/x";
               callFetched := None |};
            {| callTime := 20; callData := [x03]; callMime := "";
               callFetched := Some openaiInfo |}] geminiListening
           eq_refl eq_refl eq_refl eq_refl eq_refl).
Defined.

Lemma copyLeftSamples_error count :
  forall i stereo mono e,
    copyLeftSamples count i stereo mono = Throw e -> e = RangeError.
Proof.
  induction count as [|k IH]; intros i stereo mono e; cbn [copyLeftSamples];
    [discriminate|].
  unfold readInt16LE.
  destruct (skipn (i * 4) stereo) as [|lo [|hi rest]]; cbn [bind];
    try (now intros [= <-]).
  unfold writeInt16LE.
  destruct (_ || _); cbn [bind]; [now intros [= <-]|].
  destruct (_ <=? _)%nat; cbn [bind]; [|now intros [= <-]].
  apply IH.
Qed.

Lemma leftChannel_length k :
  forall stereo, List.length stereo = (k * 4)%nat ->
                 List.length (leftChannel stereo) = (k * 2)%nat.
Proof.
  induction k as [|k IH]; intros stereo Hlen.
  - destruct stereo; [reflexivity | discriminate].
  - destruct stereo as [|a [|b [|c [|d rest]]]]; try discriminate.
    cbn [leftChannel List.length]. rewrite (IH rest); [lia|].
    cbn in Hlen. lia.
Qed.

(** [convertStereoToMono] on a buffer of whole four-byte frames returns
    the first two bytes of every frame, half as many bytes as it was
    given; on a buffer whose length is not a multiple of four it
    throws a [RangeError]. *)
Theorem convertStereoToMono_keeps_left_channel (stereo : Buffer) :
  ((List.length stereo mod 4 = 0)%nat ->
   convertStereoToMono stereo = Ok (leftChannel stereo) /\
   (2 * List.length (leftChannel stereo) = List.length stereo)%nat) /\
  ((List.length stereo mod 4 <> 0)%nat ->
   convertStereoToMono stereo = Throw RangeError).
Proof.
  split.
  - intros Hmod.
    assert (Hlen : List.length stereo = (List.length stereo / 4 * 4)%nat).
    { pose proof (Nat.div_mod_eq (List.length stereo) 4). lia. }
    split.
    + exact (convertStereoToMono_frames stereo _ Hlen).
    + rewrite (leftChannel_length _ stereo Hlen). lia.
  - intros Hmod. unfold convertStereoToMono.
    destruct (copyLeftSamples _ _ _ _) as [mono|e] eqn:E; cbn [bind].
    + destruct (Nat.eqb_spec (List.length stereo mod 4) 0); [contradiction | reflexivity].
    + now rewrite (copyLeftSamples_error _ _ _ _ _ E).
Qed.

Lemma convertStereoToMono_keeps_left_channel_witness :
  (convertStereoToMono [x01; x02; x03; x04; x05; x06; x07; x08]
   = Ok [x01; x02; x05; x06] /\
   (2 * List.length (leftChannel [x01; x02; x03; x04; x05; x06; x07; x08]) = 8)%nat) /\
  convertStereoToMono [x01; x02; x03; x04; x05; x06] = Throw RangeError.
Proof.
  split.
  - exact (proj1 (convertStereoToMono_keeps_left_channel
                    [x01; x02; x03; x04; x05; x06; x07; x08]) eq_refl).
  - exact (proj2 (convertStereoToMono_keeps_left_channel
                    [x01; x02; x03; x04; x05; x06]) ltac:(discriminate)).
Defined.

Lemma armed_partition l :
  List.length l
  = (List.length (filter (isCallback (FlushCompletion Me)) l)
     + List.length (filter (isCallback (FlushCompletion Them)) l)
     + List.length (filter (isCallback (SendBufferedAudio Me)) l)
     + List.length (filter (isCallback (SendBufferedAudio Them)) l))%nat.
Proof.
  induction l as [|x l IH]; [reflexivity|].
  cbn [filter List.length]. rewrite IH. unfold isCallback.
  destruct (callback x) as [[|]|[|]]; cbn [List.length]; lia.
Qed.

(** In every state the service can reach, at most one timer of each
    kind is pending (one quiet-period timer and one window timer per
    channel), so at most four timers in all, and each pending timer is
    the one its channel's handle names. *)
Theorem pending_timers_are_bounded (w : World) :
  reachable w ->
  (forall cb, (List.length (armed cb w) <= 1)%nat) /\
  (List.length (timers w) <= 4)%nat /\
  (forall x, In x (timers w) ->
             match callback x with
             | FlushCompletion who => completionTimer (channel who w) = Some (tid x)
             | SendBufferedAudio who => audioTimer (channel who w) = Some (tid x)
             end).
Proof.
  intros Hr. pose proof (reachable_consistent w Hr) as Hw.
  assert (Hone : forall cb, (List.length (armed cb w) <= 1)%nat).
  { intros cb. unfold armed. apply at_most_one.
    - apply NoDup_map_filter, (ids_distinct w Hw).
    - intros x y Hx Hy. apply filter_In in Hx, Hy.
      destruct Hx as [Hx Hcx], Hy as [Hy Hcy].
      apply isCallback_true in Hcx, Hcy.
      destruct cb as [who|who].
      + pose proof (completion_handle w Hw who x Hx Hcx) as H1.
        pose proof (completion_handle w Hw who y Hy Hcy) as H2.
        congruence.
      + pose proof (audio_handle w Hw who x Hx Hcx) as H1.
        pose proof (audio_handle w Hw who y Hy Hcy) as H2.
        congruence. }
  split; [exact Hone|]. split.
  - rewrite (armed_partition (timers w)).
    pose proof (Hone (FlushCompletion Me)). pose proof (Hone (FlushCompletion Them)).
    pose proof (Hone (SendBufferedAudio Me)). pose proof (Hone (SendBufferedAudio Them)).
    unfold armed in *. lia.
  - intros x Hx. destruct (callback x) as [who|who] eqn:E.
    + exact (completion_handle w Hw who x Hx E).
    + exact (audio_handle w Hw who x Hx E).
Qed.

(** The theorem at a state with a window timer pending. *)
Lemma pending_timers_are_bounded_witness :
  reachable gaiaBuffering /\
  (forall cb, (List.length (armed cb gaiaBuffering) <= 1)%nat) /\
  (List.length (timers gaiaBuffering) <= 4)%nat /\
  (forall x, In x (timers gaiaBuffering) ->
             match callback x with
             | FlushCompletion who =>
                 completionTimer (channel who gaiaBuffering) = Some (tid x)
             | SendBufferedAudio who =>
                 audioTimer (channel who gaiaBuffering) = Some (tid x)
             end).
Proof.
  assert (H : reachable gaiaBuffering) by (apply reachable_run; constructor).
  split; [exact H|].
  exact (pending_timers_are_bounded gaiaBuffering H).
Defined.

End ServiceEdges.

Section CaptureStart.

Import JsString NodeBuffer Provider Stt Spec Samples.
Local Open Scope Z_scope.

(** [startMacOSAudioCapture] returns true exactly when the platform is
    darwin, the session of the other side is open, the spawned process
    has a pid and model info is at hand, its own or fetched.  Off darwin
    or without that session it does nothing.  Past that guard it always
    runs [pkill] first and assigns the spawned process to
    [systemAudioProc], also when it then returns false or throws; the
    listener on the output is attached only when it returns true; and a
    following [stopMacOSAudioCapture] kills the process once and clears
    the field. *)
Theorem startMacOSAudioCapture_outcomes
    (platform : string) (spawned : Proc) (fetched : option ModelInfo) (w : World) :
  let out := startMacOSAudioCapture platform spawned fetched w in
  (snd out = Ok true <->
   platform = "darwin"%string /\ sttSession (channel Them w) <> None /\
   pid spawned <> None /\ (modelInfo (svc w) <> None \/ fetched <> None)) /\
  (platform <> "darwin"%string \/ sttSession (channel Them w) = None ->
   out = (w, Ok false)) /\
  (platform = "darwin"%string -> sttSession (channel Them w) <> None ->
   systemAudioProc (svc (fst out)) = Some spawned /\
   (exists rest, effects (fst out) = effects w ++ Pkill :: rest) /\
   (snd out <> Ok true -> capture (fst out) = capture w) /\
   (snd out = Ok true -> exists cap, capture (fst out) = Some cap /\
                                     captureAudioBuffer cap = []) /\
   effects (stopMacOSAudioCapture (fst out)) = effects (fst out) ++ [KillCapture] /\
   systemAudioProc (svc (stopMacOSAudioCapture (fst out))) = None /\
   stopMacOSAudioCapture (stopMacOSAudioCapture (fst out))
   = stopMacOSAudioCapture (fst out)).
Proof.
  intros out. subst out. unfold startMacOSAudioCapture.
  destruct (String.eqb platform "darwin") eqn:P; cbn [negb].
  2:{ apply String.eqb_neq in P. split; [|split].
      - split; [discriminate | now intros [? _]].
      - reflexivity.
      - intros E. now elim P. }
  apply String.eqb_eq in P.
  destruct (sttSession (channel Them w)) as [session|] eqn:S.
  2:{ split; [|split].
      - split; [discriminate | now intros (_ & C & _)].
      - reflexivity.
      - intros _ C. now elim C. }
  set (w1 := setSystemAudioProc (Some spawned) (emit Pkill w)).
  assert (M1 : modelInfo (svc w1) = modelInfo (svc w)) by reflexivity.
  assert (E1 : effects w1 = effects w ++ [Pkill]) by reflexivity.
  assert (A1 : systemAudioProc (svc w1) = Some spawned) by reflexivity.
  assert (C1 : capture w1 = capture w) by reflexivity.
  assert (Hstop : forall x, systemAudioProc (svc x) = Some spawned ->
            effects (stopMacOSAudioCapture x) = effects x ++ [KillCapture] /\
            systemAudioProc (svc (stopMacOSAudioCapture x)) = None /\
            stopMacOSAudioCapture (stopMacOSAudioCapture x) = stopMacOSAudioCapture x).
  { intros x Hx.
    assert (Hx' : stopMacOSAudioCapture x = setSystemAudioProc None (emit KillCapture x)).
    { unfold stopMacOSAudioCapture. now rewrite Hx. }
    rewrite Hx'. repeat split. }
  split; [|split].
  - destruct (pid spawned) as [n|].
    + rewrite M1. destruct (modelInfo (svc w)) as [mi|].
      * cbn [snd]. split; [|reflexivity]. intros _.
        repeat split; try discriminate; auto. left. discriminate.
      * destruct fetched as [mi|]; cbn [snd].
        -- split; [|reflexivity]. intros _.
           repeat split; try discriminate; auto. right. discriminate.
        -- split; [discriminate|]. intros (_ & _ & _ & [C | C]); now elim C.
    + cbn [snd]. split; [discriminate|]. intros (_ & _ & C & _). now elim C.
  - intros [C | C]; [now elim C | discriminate].
  - intros _ _.
    destruct (pid spawned) as [n|].
    + rewrite M1.
      destruct (match modelInfo (svc w) with Some mi => Some mi | None => fetched end)
        as [mi|]; cbn [fst snd].
      * split; [exact A1|]. split; [exists []; exact E1|].
        split; [intros C; now elim C|].
        split; [intros _; eexists; split; reflexivity|].
        apply Hstop. exact A1.
      * split; [exact A1|]. split; [exists []; exact E1|].
        split; [intros _; exact C1|].
        split; [discriminate|].
        apply Hstop. exact A1.
    + cbn [fst snd].
      split; [exact A1|].
      split; [exists [ConsoleError "Failed to start SystemAudioDump"]; cbn; now rewrite <- app_assoc|].
      split; [intros _; exact C1|].
      split; [discriminate|].
      apply Hstop. exact A1.
Qed.

End CaptureStart.

(* ===================================================================== *)
(** * The WAV header for any options *)
(* ===================================================================== *)

Section WavRoundTrip.

Import NodeBuffer Wav Spec.
Local Open Scope Z_scope.

Lemma littleEndian_lowBytes n :
  forall v, 0 <= v -> littleEndian (lowBytes n v) = v mod 2 ^ (8 * Z.of_nat n).
Proof.
  induction n as [|k IH]; intros v Hv.
  - cbn. now rewrite Z.mod_1_r.
  - cbn [lowBytes littleEndian].
    rewrite zOfByte_byteOfZ, Z.shiftr_div_pow2 by lia.
    change (2 ^ 8) with 256.
    rewrite IH by (apply Z.div_pos; lia).
    replace (2 ^ (8 * Z.of_nat (S k))) with (256 * 2 ^ (8 * Z.of_nat k)).
    + rewrite Z.rem_mul_r by lia. reflexivity.
    + rewrite Nat2Z.inj_succ.
      replace (8 * Z.succ (Z.of_nat k)) with (8 + 8 * Z.of_nat k) by lia.
      rewrite Z.pow_add_r by lia. reflexivity.
Qed.

(** The field of [n] bytes that follows [off] bytes reads back as the
    value stored in it. *)
Lemma readUIntLE_field n off pre v post :
  List.length pre = off ->
  0 <= v < 2 ^ (8 * Z.of_nat n) ->
  readUIntLE n off (pre ++ lowBytes n v ++ post) = v.
Proof.
  intros Hoff Hv. unfold readUIntLE.
  rewrite skipn_app, <- Hoff, skipn_all, Nat.sub_diag. cbn [skipn app].
  rewrite firstn_app, lowBytes_length, Nat.sub_diag, firstn_O, app_nil_r.
  rewrite firstn_all2 by (rewrite lowBytes_length; lia).
  rewrite littleEndian_lowBytes by lia. apply Z.mod_small, Hv.
Qed.

(** Split a chain of appended pieces after its first [k] pieces. *)
Ltac split_pieces k l :=
  lazymatch k with
  | O => constr:((@nil byte, l))
  | S ?k' =>
      lazymatch l with
      | ?a ++ ?b =>
          let r := split_pieces k' b in
          lazymatch r with
          | (?pre, ?post) => constr:((a ++ pre, post))
          end
      end
  end.

(** Read the field that is the piece number [k] of the buffer. *)
Ltac field_at k :=
  lazymatch goal with
  | |- readUIntLE ?n ?off ?l = ?v =>
      let r := split_pieces k l in
      lazymatch r with
      | (?pre, lowBytes _ _ ++ ?post) =>
          exact (readUIntLE_field n off pre v post eq_refl ltac:(lia))
      end
  end.

Lemma pcmToWav_layout pcm options :
  let c := orDefault (numChannels options) 1 in
  let r := orDefault (sampleRate options) 24000 in
  let d := orDefault (bitDepth options) 16 in
  Z.of_nat (List.length pcm) + 44 < 2147483648 ->
  0 <= c <= 65535 ->
  0 <= r <= 4294967295 ->
  0 <= d <= 65535 ->
  0 <= r * c * d <= 8 * 4294967295 ->
  0 <= c * d <= 8 * 65535 ->
  pcmToWav pcm options = Ok (wavLayout pcm c r d).
Proof.
  intros c r d Hlen Hc Hr Hd Hrate Halign.
  unfold pcmToWav, writeUInt32LE, writeUInt16LE. fold c r d.
  set (n := List.length pcm) in *.
  set (size := Z.of_nat n) in *.
  unfold alloc. rewrite repeat_app.
  set (tail := repeat x00 n).
  set (zeros := repeat x00 44).
  assert (Hz : List.length zeros = 44%nat) by reflexivity.
  assert (Ht : List.length tail = n) by apply repeat_length.
  repeat first
    [ rewrite write_app by
        (first [ rewrite ?blit_length, Hz; simpl; lia
               | rewrite ?blit_length, Hz, Ht; unfold size in *; lia ])
    | rewrite writeUIntLE_app by
        (first [ rewrite ?blit_length, Hz; simpl; lia
               | change (2 ^ (8 * Z.of_nat 4) - 1) with 4294967295;
                 change (2 ^ (8 * Z.of_nat 2) - 1) with 65535;
                 unfold size in *; lia ])
    | progress cbn [bind] ].
  unfold copy.
  match goal with
  | |- Ok (blit pcm 44 (?hdr ++ tail)) = _ =>
      replace 44%nat with (List.length hdr)
        by (now rewrite ?blit_length);
      rewrite (blit_app_r pcm hdr tail)
  end.
  rewrite (blit_exact pcm tail)
    by (unfold tail; now rewrite repeat_length).
  f_equal. unfold wavLayout. fold n size.
  rewrite !Z.div_1_r.
  cbn [lowBytes].
  repeat match goal with
         | |- context [byteOfZ ?z] =>
             let b := fresh "b" in generalize (byteOfZ z); intros b
         end.
  vm_compute. reflexivity.
Qed.

(** [pcmToWav] for any options, absent or zero fields taking their
    defaults (1 channel, 24000 Hz, 16 bits).  When the WAV buffer stays
    below 2^31 bytes (N + 44 < 2147483648) and every header field fits
    its width, the result has 44 bytes more than the PCM data, and
    its header read back as little-endian unsigned numbers gives the
    values that went in: total size 36 + N, format chunk size 16, format
    tag 1, the channel count, the sample rate, the byte rate and the
    block align (the integer parts of rate * channels * bits / 8 and of
    channels * bits / 8), the bit depth and the data size N, between the
    four tags; the PCM data follows unchanged. *)
Theorem pcmToWav_header_reads_back (pcm : Buffer) (options : Options) :
  let c := orDefault (numChannels options) 1 in
  let r := orDefault (sampleRate options) 24000 in
  let d := orDefault (bitDepth options) 16 in
  let N := Z.of_nat (List.length pcm) in
  N + 44 < 2147483648 ->
  0 <= c <= 65535 ->
  0 <= r <= 4294967295 ->
  0 <= d <= 65535 ->
  0 <= r * c * d <= 8 * 4294967295 ->
  0 <= c * d <= 8 * 65535 ->
  exists wav,
    pcmToWav pcm options = Ok wav /\
    Z.of_nat (List.length wav) = N + 44 /\
    skipn 44 wav = pcm /\
    bytesAt 0 4 wav = list_byte_of_string "RIFF" /\
    readUIntLE 4 4 wav = 36 + N /\
    bytesAt 8 4 wav = list_byte_of_string "WAVE" /\
    bytesAt 12 4 wav = list_byte_of_string "fmt " /\
    readUIntLE 4 16 wav = 16 /\
    readUIntLE 2 20 wav = 1 /\
    readUIntLE 2 22 wav = c /\
    readUIntLE 4 24 wav = r /\
    readUIntLE 4 28 wav = r * c * d / 8 /\
    readUIntLE 2 32 wav = c * d / 8 /\
    readUIntLE 2 34 wav = d /\
    bytesAt 36 4 wav = list_byte_of_string "data" /\
    readUIntLE 4 40 wav = N.
Proof.
  intros c r d N Hlen Hc Hr Hd Hrate Halign.
  exists (wavLayout pcm c r d).
  split; [exact (pcmToWav_layout pcm options Hlen Hc Hr Hd Hrate Halign)|].
  fold N in Hlen.
  assert (H4 : 2 ^ (8 * Z.of_nat 4) = 4294967296) by reflexivity.
  assert (H2 : 2 ^ (8 * Z.of_nat 2) = 65536) by reflexivity.
  assert (Hbr : 0 <= r * c * d / 8 < 4294967296).
  { split; [apply Z.div_pos; lia|]. apply Z.div_lt_upper_bound; lia. }
  assert (Hba : 0 <= c * d / 8 < 65536).
  { split; [apply Z.div_pos; lia|]. apply Z.div_lt_upper_bound; lia. }
  unfold wavLayout. fold N.
  set (riff := list_byte_of_string "RIFF").
  set (wave := list_byte_of_string "WAVE").
  set (fmt := list_byte_of_string "fmt ").
  set (data := list_byte_of_string "data").
  assert (Lr : List.length riff = 4%nat) by reflexivity.
  assert (Lw : List.length wave = 4%nat) by reflexivity.
  assert (Lf : List.length fmt = 4%nat) by reflexivity.
  assert (Ld : List.length data = 4%nat) by reflexivity.
  split.
  { rewrite !length_app, !lowBytes_length, Lr, Lw, Lf, Ld. unfold N. lia. }
  split.
  { rewrite !app_assoc.
    match goal with
    | |- skipn 44 (?hdr ++ pcm) = pcm =>
        replace 44%nat with (List.length hdr)
          by (rewrite !length_app, !lowBytes_length, Lr, Lw, Lf, Ld; reflexivity);
        rewrite skipn_app, skipn_all, Nat.sub_diag; reflexivity
    end. }
  split; [reflexivity|].
  split; [field_at 1%nat|].
  split; [reflexivity|].
  split; [reflexivity|].
  split; [field_at 4%nat|].
  split; [field_at 5%nat|].
  split; [field_at 6%nat|].
  split; [field_at 7%nat|].
  split; [field_at 8%nat|].
  split; [field_at 9%nat|].
  split; [field_at 10%nat|].
  split; [reflexivity|].
  field_at 12%nat.
Qed.

(** The theorem at stereo, 44100 Hz, 16 bits. *)
Lemma pcmToWav_header_reads_back_witness :
  let options := {| numChannels := Some 2; sampleRate := Some 44100; bitDepth := None |} in
  exists wav,
    pcmToWav [x01; x02; x03; x04] options = Ok wav /\
    Z.of_nat (List.length wav) = 4 + 44 /\
    skipn 44 wav = [x01; x02; x03; x04] /\
    bytesAt 0 4 wav = list_byte_of_string "RIFF" /\
    readUIntLE 4 4 wav = 36 + 4 /\
    bytesAt 8 4 wav = list_byte_of_string "WAVE" /\
    bytesAt 12 4 wav = list_byte_of_string "fmt " /\
    readUIntLE 4 16 wav = 16 /\
    readUIntLE 2 20 wav = 1 /\
    readUIntLE 2 22 wav = 2 /\
    readUIntLE 4 24 wav = 44100 /\
    readUIntLE 4 28 wav = 44100 * 2 * 16 / 8 /\
    readUIntLE 2 32 wav = 2 * 16 / 8 /\
    readUIntLE 2 34 wav = 16 /\
    bytesAt 36 4 wav = list_byte_of_string "data" /\
    readUIntLE 4 40 wav = 4.
Proof.
  exact (pcmToWav_header_reads_back [x01; x02; x03; x04]
           {| numChannels := Some 2; sampleRate := Some 44100; bitDepth := None |}
           ltac:(cbn; lia) ltac:(cbn; lia) ltac:(cbn; lia) ltac:(cbn; lia)
           ltac:(cbn; lia) ltac:(cbn; lia)).
Defined.

End WavRoundTrip.

(* ===================================================================== *)
(** * URLs and chat messages of the gaia provider *)
(* ===================================================================== *)

Section Suffixes.

Import JsString JsText.
Local Open Scope string_scope.

Lemma length_append a b : String.length (a ++ b) = (String.length a + String.length b)%nat.
Proof. induction a as [|c a IH]; cbn; [reflexivity | now rewrite IH]. Qed.

Lemma substring_whole s : substring 0 (String.length s) s = s.
Proof. induction s as [|c s IH]; cbn; [reflexivity | now rewrite IH]. Qed.

Lemma substring_app_l a b : substring 0 (String.length a) (a ++ b) = a.
Proof.
  induction a as [|c a IH]; cbn; [now destruct b | now rewrite IH].
Qed.

Lemma substring_app_r a b :
  substring (String.length a) (String.length b) (a ++ b) = b.
Proof.
  induction a as [|c a IH]; cbn; [apply substring_whole | exact IH].
Qed.

(** A string that has [suffix] appended ends with it. *)
Lemma endsWith_app a suffix : endsWith (a ++ suffix) suffix = true.
Proof.
  unfold endsWith. rewrite length_append.
  replace (String.length a + String.length suffix - String.length suffix)%nat
    with (String.length a) by lia.
  rewrite substring_app_r, String.eqb_refl.
  destruct (Nat.leb_spec (String.length suffix)
              (String.length a + String.length suffix)); [reflexivity | lia].
Qed.

Lemma substring_split n s :
  (n <= String.length s)%nat ->
  s = substring 0 n s ++ substring n (String.length s - n) s.
Proof.
  revert n. induction s as [|c s IH]; intros [|n] Hn; cbn in *;
    try reflexivity; try lia.
  - now rewrite substring_whole.
  - f_equal. apply IH. lia.
Qed.

(** A string that ends with [suffix] is something followed by it. *)
Lemma endsWith_inv s suffix :
  endsWith s suffix = true -> s = dropEnd (String.length suffix) s ++ suffix.
Proof.
  unfold endsWith, dropEnd. intros H.
  apply andb_true_iff in H. destruct H as [Hle Heq].
  apply Nat.leb_le in Hle. apply String.eqb_eq in Heq.
  rewrite (substring_split (String.length s - String.length suffix) s) at 1 by lia.
  f_equal. rewrite <- Heq at 3. f_equal. lia.
Qed.

Lemma dropEnd_app a suffix : dropEnd (String.length suffix) (a ++ suffix) = a.
Proof.
  unfold dropEnd. rewrite length_append.
  replace (String.length a + String.length suffix - String.length suffix)%nat
    with (String.length a) by lia.
  apply substring_app_l.
Qed.

Lemma list_ascii_of_append a b :
  list_ascii_of_string (a ++ b) = (list_ascii_of_string a ++ list_ascii_of_string b)%list.
Proof. induction a as [|c a IH]; cbn; [reflexivity | now rewrite IH]. Qed.

Lemma last_char_of_append a c :
  last (list_ascii_of_string (a ++ String c "")) Ascii.zero = c.
Proof.
  rewrite list_ascii_of_append. cbn [list_ascii_of_string].
  apply last_last.
Qed.

(** A string whose last character is not the last character of
    [suffix] does not end with it. *)
Lemma endsWith_last a c suffix d :
  c <> d -> endsWith (a ++ String c "") (suffix ++ String d "") = false.
Proof.
  intros Hne. destruct (endsWith _ _) eqn:E; [|reflexivity].
  apply endsWith_inv in E.
  set (b := dropEnd _ _) in E.
  assert (H : last (list_ascii_of_string (a ++ String c "")) Ascii.zero
              = last (list_ascii_of_string (b ++ suffix ++ String d "")) Ascii.zero)
    by now rewrite <- E.
  rewrite last_char_of_append in H.
  replace (b ++ suffix ++ String d "") with ((b ++ suffix) ++ String d "") in H
    by (clear; induction b; cbn; [reflexivity | now f_equal]).
  rewrite last_char_of_append in H. contradiction.
Qed.

End Suffixes.

Section GaiaRequests.

Import JsString JsText Gaia.
Local Open Scope string_scope.

(** The URL [streamChat] posts to always ends with
    [/v1/chat/completions]; a URL that already ends so is used as it
    is, so computing the URL again changes nothing; otherwise the path
    is appended, after one trailing slash, if there is one, has been
    dropped. *)
Theorem finalApiUrl_ends_with_path (apiUrl : string) :
  endsWith (finalApiUrl apiUrl) "/v1/chat/completions" = true /\
  finalApiUrl (finalApiUrl apiUrl) = finalApiUrl apiUrl /\
  finalApiUrl (apiUrl ++ "/v1/chat/completions") = apiUrl ++ "/v1/chat/completions" /\
  finalApiUrl (apiUrl ++ "/") = apiUrl ++ "/v1/chat/completions" /\
  (endsWith apiUrl "/v1/chat/completions" = false ->
   endsWith apiUrl "/" = false ->
   finalApiUrl apiUrl = apiUrl ++ "/v1/chat/completions").
Proof.
  assert (Hfix : forall u, endsWith u "/v1/chat/completions" = true -> finalApiUrl u = u).
  { intros u H. unfold finalApiUrl. now rewrite H. }
  assert (Hends : endsWith (finalApiUrl apiUrl) "/v1/chat/completions" = true).
  { unfold finalApiUrl. destruct (endsWith apiUrl "/v1/chat/completions") eqn:E;
      [exact E | apply endsWith_app]. }
  split; [exact Hends|]. split; [exact (Hfix _ Hends)|].
  split; [apply Hfix, endsWith_app|]. split.
  - unfold finalApiUrl.
    change (endsWith (apiUrl ++ "/") "/v1/chat/completions")
      with (endsWith (apiUrl ++ "/") ("/v1/chat/completion" ++ "s")).
    rewrite (endsWith_last apiUrl "/" "/v1/chat/completion" "s") by discriminate.
    rewrite (endsWith_app apiUrl "/").
    change (dropEnd 1 (apiUrl ++ "/")) with (dropEnd (String.length "/") (apiUrl ++ "/")).
    now rewrite (dropEnd_app apiUrl "/").
  - intros H1 H2. unfold finalApiUrl. now rewrite H1, H2.
Qed.

Lemma includes_not_empty text sub :
  truthy sub = true -> includes text sub = true -> truthy text = true.
Proof. destruct text; [destruct sub; discriminate | reflexivity]. Qed.

Lemma collectParts_spec parts :
  ~ In NullPart parts ->
  forall systemPrompt userContent,
    collectParts parts systemPrompt userContent
    = Ok (if truthy systemPrompt then systemPrompt
          else match systemOf parts with Some text => text | None => "" end,
          (userContent ++ contentsOf (truthy systemPrompt) parts)%list).
Proof.
  induction parts as [|part rest IH]; intros Hnull systemPrompt userContent.
  - cbn. rewrite app_nil_r. now destruct systemPrompt.
  - assert (Hrest : ~ In NullPart rest) by (intros H; apply Hnull; now right).
    destruct part as [text|mimeType data| |]; cbn [collectParts systemOf contentsOf].
    + destruct systemPrompt as [|c sp].
      * cbn [String.eqb truthy negb andb].
        destruct (includes text "You are") eqn:E.
        -- rewrite (IH Hrest).
           rewrite (includes_not_empty text "You are" eq_refl E). reflexivity.
        -- rewrite (IH Hrest). cbn [truthy]. now rewrite <- app_assoc.
      * cbn [String.eqb truthy negb andb].
        rewrite (IH Hrest). cbn [truthy]. now rewrite <- app_assoc.
    + rewrite (IH Hrest). now rewrite <- app_assoc.
    + apply (IH Hrest).
    + elim Hnull. now left.
Qed.

Lemma collectParts_null parts :
  In NullPart parts ->
  forall systemPrompt userContent,
    collectParts parts systemPrompt userContent = Throw TypeError.
Proof.
  induction parts as [|part rest IH]; intros Hin systemPrompt userContent; [elim Hin|].
  destruct part as [text|mimeType data| |]; cbn [collectParts];
    try (destruct Hin as [Hin|Hin]; [discriminate|]).
  - destruct (_ && _); now apply IH.
  - now apply IH.
  - now apply IH.
  - reflexivity.
Qed.

Lemma contentsOf_length parts :
  forall taken,
    (List.length (contentsOf taken parts)
     + (if taken then 0 else match systemOf parts with Some _ => 1 | None => 0 end)
     = List.length (filter isContentPart parts))%nat.
Proof.
  induction parts as [|part rest IH]; intros taken; [now destruct taken|].
  destruct part as [text|mimeType data| |];
    cbn [contentsOf systemOf filter isContentPart List.length].
  - destruct taken; cbn [negb andb].
    + cbn [List.length]. rewrite <- (IH true). lia.
    + destruct (includes text "You are").
      * rewrite <- (IH true). lia.
      * cbn [List.length]. rewrite <- (IH false). lia.
  - cbn [List.length]. rewrite <- (IH taken). lia.
  - apply IH.
  - apply IH.
Qed.

(** The messages [generateContent] sends.  If some part is [null] the
    call throws a [TypeError].  Otherwise there is a system message
    exactly when some string part includes ["You are"], holding the
    first such string; it is followed by one user message holding every
    other string and every inline image, in the order given, unless
    there is none; parts of any other kind are dropped.  So at most two
    messages are sent, and no string or image is lost. *)
Theorem chatMessages_shape (parts : list Part) :
  (In NullPart parts -> chatMessages parts = Throw TypeError) /\
  (~ In NullPart parts ->
   let system := match systemOf parts with
                 | Some text => [SystemMessage text]
                 | None => []
                 end in
   let user := match contentsOf false parts with
               | [] => []
               | contents => [UserMessage contents]
               end in
   chatMessages parts = Ok (system ++ user)%list /\
   (List.length (system ++ user) <= 2)%nat /\
   (List.length (contentsOf false parts) + List.length system
    = List.length (filter isContentPart parts))%nat).
Proof.
  split.
  - intros Hin. unfold chatMessages. now rewrite (collectParts_null parts Hin).
  - intros Hnull system user. split; [|split].
    + unfold chatMessages. rewrite (collectParts_spec parts Hnull "" []).
      cbn [bind fst snd truthy app]. subst system user.
      destruct (systemOf parts) as [text|] eqn:Hs.
      * assert (Ht : truthy text = true).
        { clear - Hs. induction parts as [|[t|m d| |] rest IH]; cbn in Hs;
            try discriminate; try now apply IH.
          destruct (includes t "You are") eqn:E; [|now apply IH].
          injection Hs as <-. exact (includes_not_empty t "You are" eq_refl E). }
        rewrite Ht. now destruct (contentsOf false parts).
      * cbn [truthy]. now destruct (contentsOf false parts).
    + subst system user.
      destruct (systemOf parts), (contentsOf false parts); cbn; lia.
    + subst system. rewrite <- (contentsOf_length parts false).
      now destruct (systemOf parts).
Qed.

(** The theorem at a prompt, a question, an image and a stray number. *)
Lemma chatMessages_shape_witness :
  let parts := [TextPart "What is this?"; TextPart "You are a helper.";
                InlinePart "image/png" "AAAA"; PlainPart; TextPart "You are late."] in
  chatMessages parts
  = Ok [SystemMessage "You are a helper.";
        UserMessage [TextContent "What is this?";
                     ImageUrl "data:image/png;base64,AAAA";
                     TextContent "You are late."]] /\
  (2 <= 2)%nat /\
  (3 + 1 = 4)%nat.
Proof.
  exact (proj2 (chatMessages_shape
                  [TextPart "What is this?"; TextPart "You are a helper.";
                   InlinePart "image/png" "AAAA"; PlainPart; TextPart "You are late."])
           ltac:(cbn; intuition discriminate)).
Defined.

End GaiaRequests.

(* ===================================================================== *)
(** * The model state service *)
(* ===================================================================== *)

Section Objects.

Import JsString JsText ModelState.
Local Open Scope string_scope.

Lemma lookup_assign_same k v o : lookup k (assign k v o) = Some v.
Proof.
  induction o as [|[k' v'] rest IH]; cbn.
  - now rewrite String.eqb_refl.
  - destruct (String.eqb k' k) eqn:E; cbn; now rewrite E.
Qed.

Lemma lookup_assign_other k k' v o :
  k' <> k -> lookup k' (assign k v o) = lookup k' o.
Proof.
  intros Hne. induction o as [|[k0 v0] rest IH]; cbn.
  - destruct (String.eqb_spec k k'); [congruence | reflexivity].
  - destruct (String.eqb_spec k0 k) as [->|Hk]; cbn.
    + destruct (String.eqb_spec k k'); [congruence | reflexivity].
    + now rewrite IH.
Qed.

Lemma get_assign_same k v o : get k (assign k v o) = v.
Proof. unfold get. now rewrite lookup_assign_same. Qed.

Lemma get_assign_other k k' v o : k' <> k -> get k' (assign k v o) = get k' o.
Proof. intros H. unfold get. now rewrite lookup_assign_other. Qed.

Lemma hasOwn_assign k k' v o :
  hasOwn k' (assign k v o) = String.eqb k' k || hasOwn k' o.
Proof.
  unfold hasOwn. destruct (String.eqb_spec k' k) as [->|Hne].
  - now rewrite lookup_assign_same.
  - now rewrite lookup_assign_other.
Qed.

Lemma has_assign k k' v o : has k' (assign k v o) = String.eqb k' k || has k' o.
Proof.
  unfold has. rewrite hasOwn_assign. now rewrite orb_assoc.
Qed.

(** A name the object neither owns nor inherits is read as
    [undefined]. *)
Lemma has_false_lookup k (o : list (string * JsVal)) :
  has k o = false -> lookup k o = None.
Proof.
  unfold has, hasOwn. destruct (lookup k o); [discriminate | reflexivity].
Qed.

Lemma hasOwn_has k (o : list (string * JsVal)) : hasOwn k o = true -> has k o = true.
Proof. unfold has. now intros ->. Qed.

Lemma map_fst_assign k v o :
  hasOwn k o = true -> map fst (assign k v o) = map fst o.
Proof.
  unfold hasOwn. induction o as [|[k0 v0] rest IH]; cbn; [discriminate|].
  destruct (String.eqb k0 k); cbn; [reflexivity|].
  intros H. now rewrite IH.
Qed.

Lemma storeGet_storeSet user st t : storeGet user (storeSet user st t) = Some st.
Proof.
  induction t as [|[u old] rest IH]; cbn.
  - now rewrite String.eqb_refl.
  - destruct (String.eqb u user) eqn:E; cbn; now rewrite E.
Qed.

Lemma storeGet_storeSet_other user user' st t :
  user' <> user -> storeGet user' (storeSet user st t) = storeGet user' t.
Proof.
  intros Hne. induction t as [|[u old] rest IH]; cbn.
  - destruct (String.eqb_spec user user'); [congruence | reflexivity].
  - destruct (String.eqb_spec u user) as [->|Hu]; cbn.
    + destruct (String.eqb_spec user user'); [congruence | reflexivity].
    + now rewrite IH.
Qed.

End Objects.

Section Keys.

Import JsString JsText ModelState.
Local Open Scope string_scope.

Variable PROVIDERS : list (string * ProviderConfig).
Variable userId : string.

Lemma selectFirstIfNone_keys type provider s :
  apiKeys (selectFirstIfNone PROVIDERS type provider s) = apiKeys s /\
  urls (selectFirstIfNone PROVIDERS type provider s) = urls s.
Proof.
  unfold selectFirstIfNone. destruct (negb _); [|now split].
  destruct (entry _ _) as [c|]; [|now split].
  destruct (modelsOf type c); now split.
Qed.

Lemma selectFirstIfNone_keeps type type' provider s :
  idTruthy (selected type' (selectedModels s)) = true ->
  selected type' (selectedModels (selectFirstIfNone PROVIDERS type provider s))
  = selected type' (selectedModels s).
Proof.
  intros H. unfold selectFirstIfNone.
  destruct (negb (idTruthy (selected type (selectedModels s)))) eqn:E; [|reflexivity].
  destruct (entry _ _) as [c|]; [|reflexivity].
  destruct (modelsOf type c); [reflexivity|].
  destruct type, type'; cbn in *; try reflexivity;
    rewrite H in E; discriminate.
Qed.

(** [setApiKey] tests [provider in this.state.apiKeys].  On a name that
    [apiKeys] neither owns nor inherits it returns false and changes
    nothing.  On a name that [apiKeys] has, be it an own property or a
    name inherited from [Object.prototype] such as [toString], and that
    is not [__proto__], it returns true; afterwards [getApiKey] answers
    the key for that name ([null] when the key is empty, [null] or
    [undefined]) and what it answered before for every other one; a
    model that was selected stays selected; and the store holds what
    [JSON.stringify] keeps of the new state under the current user. *)
Theorem setApiKey_round_trip (provider : string) (key : JsVal) (svc : Service) :
  let out := setApiKey PROVIDERS userId provider key svc in
  (has provider (apiKeys (state svc)) = false -> out = (svc, false)) /\
  (has provider (apiKeys (state svc)) = true -> provider <> "__proto__" ->
   snd out = true /\
   getApiKey provider (state (fst out)) = orNull key /\
   (forall other, other <> provider ->
                  getApiKey other (state (fst out)) = getApiKey other (state svc)) /\
   (forall type, idTruthy (selected type (selectedModels (state svc))) = true ->
                 selected type (selectedModels (state (fst out)))
                 = selected type (selectedModels (state svc))) /\
   storeGet userId (store (fst out)) = Some (stringify (state (fst out)))).
Proof.
  intros out. subst out. unfold setApiKey. split.
  - intros H. now rewrite H.
  - intros H _. rewrite H. cbn [fst snd _saveState setState state store].
    set (s1 := writeKey provider key (state svc)).
    set (s2 := selectFirstIfNone PROVIDERS Llm provider s1).
    set (s3 := selectFirstIfNone PROVIDERS Stt provider s2).
    assert (Hk : apiKeys s3 = assign provider key (apiKeys (state svc))).
    { subst s3 s2. now rewrite !(proj1 (selectFirstIfNone_keys _ _ _)). }
    split; [reflexivity|]. split; [|split; [|split]].
    + unfold getApiKey. now rewrite Hk, get_assign_same.
    + intros other Hne. unfold getApiKey. now rewrite Hk, get_assign_other.
    + intros type Hsel. subst s3 s2.
      rewrite selectFirstIfNone_keeps.
      * now rewrite selectFirstIfNone_keeps.
      * now rewrite selectFirstIfNone_keeps.
    + apply storeGet_storeSet.
Qed.

Lemma lists_spec type m c :
  existsb (fun x => String.eqb (id x) m) (modelsOf type c) = true <-> lists type c m.
Proof.
  unfold lists. rewrite existsb_exists.
  split; intros (x & Hx & E); exists x; split; auto; now apply String.eqb_eq.
Qed.

Lemma lists_false type m c :
  existsb (fun x => String.eqb (id x) m) (modelsOf type c) = false <-> ~ lists type c m.
Proof.
  rewrite <- lists_spec. now destruct (existsb _ _).
Qed.

Lemma find_first {A} (f : A -> bool) l x :
  find f l = Some x <->
  exists before after,
    l = (before ++ x :: after)%list /\ f x = true /\
    forall y, In y before -> f y = false.
Proof.
  split.
  - induction l as [|a l IH]; cbn; [discriminate|].
    destruct (f a) eqn:E.
    + intros [= ->]. exists [], l. repeat split; auto. intros y [].
    + intros H. destruct (IH H) as (before & after & -> & Hx & Hb).
      exists (a :: before), after. repeat split; auto.
      intros y [<- | Hy]; auto.
  - intros (before & after & -> & Hx & Hb).
    induction before as [|a before IH]; cbn.
    + now rewrite Hx.
    + rewrite (Hb a (or_introl eq_refl)). apply IH.
      intros y Hy. apply Hb. now right.
Qed.

Lemma getProviderForModel_first (type : ModelType) (m : string) :
  (forall p,
      getProviderForModel PROVIDERS type (Some m) = Some p <->
      truthy m = true /\
      exists before c after,
        PROVIDERS = (before ++ (p, c) :: after)%list /\
        lists type c m /\
        forall q d, In (q, d) before -> ~ lists type d m) /\
  (getProviderForModel PROVIDERS type (Some m) = None <->
   truthy m = false \/ forall q d, In (q, d) PROVIDERS -> ~ lists type d m) /\
  getProviderForModel PROVIDERS type None = None.
Proof.
  unfold getProviderForModel. cbn [idTruthy negb].
  split; [|split; [|reflexivity]].
  - intros p. destruct (truthy m); cbn [negb].
    2:{ split; [discriminate | now intros [? _]]. }
    split.
    + intros H. split; [reflexivity|].
      destruct (find _ PROVIDERS) as [[p' c]|] eqn:E; [|discriminate].
      cbn in H. injection H as ->.
      apply find_first in E. destruct E as (before & after & -> & Hx & Hb).
      exists before, c, after. split; [reflexivity|]. split.
      * now apply lists_spec.
      * intros q d Hin. apply lists_false. exact (Hb (q, d) Hin).
    + intros (_ & before & c & after & -> & Hl & Hb).
      assert (E : find (fun pc => existsb (fun x => String.eqb (id x) m)
                                    (modelsOf type (snd pc)))
                    (before ++ (p, c) :: after) = Some (p, c)).
      { apply find_first. exists before, after. split; [reflexivity|]. split.
        - now apply lists_spec.
        - intros [q d] Hin. apply lists_false. exact (Hb q d Hin). }
      now rewrite E.
  - destruct (truthy m); cbn [negb].
    2:{ split; auto. }
    split.
    + intros H. right. intros q d Hin.
      destruct (find _ PROVIDERS) as [pc|] eqn:E; [discriminate|].
      apply lists_false. exact (find_none _ _ E (q, d) Hin).
    + intros [Hf | Hnone]; [discriminate|].
      destruct (find _ PROVIDERS) as [[p c]|] eqn:E; [|reflexivity].
      apply find_some in E. destruct E as [Hin Hl].
      apply lists_spec in Hl. elim (Hnone p c Hin Hl).
Qed.

(** [getProviderForModel] answers the first provider, in the order of
    [PROVIDERS], whose list for the type holds a model with the id; it
    answers [null] exactly when the id is [null] or empty or no provider
    lists it. *)
Theorem getProviderForModel_first_owner (type : ModelType) (m : string) :
  (forall p,
      getProviderForModel PROVIDERS type (Some m) = Some p <->
      truthy m = true /\
      exists before c after,
        PROVIDERS = (before ++ (p, c) :: after)%list /\
        lists type c m /\
        forall q d, In (q, d) before -> ~ lists type d m) /\
  (getProviderForModel PROVIDERS type (Some m) = None <->
   truthy m = false \/ forall q d, In (q, d) PROVIDERS -> ~ lists type d m) /\
  getProviderForModel PROVIDERS type None = None.
Proof.
  exact (getProviderForModel_first type m).
Qed.

(** *** getAvailableModels *)

Lemma mapSet_keys k m acc k' :
  In k' (map fst (mapSet k m acc)) <-> k' = k \/ In k' (map fst acc).
Proof.
  induction acc as [|[k0 m0] rest IH]; cbn.
  - intuition.
  - destruct (String.eqb_spec k0 k) as [->|Hne]; cbn.
    + intuition.
    + rewrite IH. intuition.
Qed.

Lemma mapSet_NoDup k m acc :
  NoDup (map fst acc) -> NoDup (map fst (mapSet k m acc)).
Proof.
  induction acc as [|[k0 m0] rest IH]; cbn; intros H.
  - repeat constructor. intros [].
  - inversion H as [|? ? Hnotin Hrest]; subst.
    destruct (String.eqb_spec k0 k) as [->|Hne]; cbn.
    + now constructor.
    + constructor; [|now apply IH].
      rewrite mapSet_keys. intros [E | Hin]; [now elim Hne | contradiction].
Qed.

Lemma mapSet_values k m acc x :
  In x (map snd (mapSet k m acc)) -> x = m \/ In x (map snd acc).
Proof.
  induction acc as [|[k0 m0] rest IH]; cbn.
  - intuition.
  - destruct (String.eqb k0 k); cbn; intuition.
Qed.

Lemma mapSet_keyed k m acc :
  id m = k ->
  Forall (fun km => id (snd km) = fst km) acc ->
  Forall (fun km => id (snd km) = fst km) (mapSet k m acc).
Proof.
  intros Hk. induction acc as [|[k0 m0] rest IH]; cbn; intros H.
  - repeat constructor. exact Hk.
  - inversion H as [|x l H0 Hrest]; subst x l. cbn in H0.
    destruct (String.eqb_spec k0 k) as [E|Hne]; constructor; auto.
    cbn. congruence.
Qed.

Lemma dedupe_spec items :
  forall acc,
    NoDup (map fst acc) ->
    Forall (fun km => id (snd km) = fst km) acc ->
    let r := fold_left (fun acc item => mapSet (id item) item acc) items acc in
    NoDup (map fst r) /\
    Forall (fun km => id (snd km) = fst km) r /\
    (forall k, In k (map fst r) <-> In k (map fst acc) \/ In k (map id items)) /\
    (forall x, In x (map snd r) -> In x (map snd acc) \/ In x items).
Proof.
  induction items as [|item rest IH]; intros acc Hnd Hkeyed; cbn [fold_left].
  - repeat split; auto; cbn; intuition.
  - destruct (IH (mapSet (id item) item acc)
                (mapSet_NoDup _ _ _ Hnd) (mapSet_keyed _ _ _ eq_refl Hkeyed))
      as (H1 & H2 & H3 & H4).
    split; [exact H1|]. split; [exact H2|]. split.
    + intros k. rewrite H3, mapSet_keys. cbn. intuition.
    + intros x Hx. destruct (H4 x Hx) as [Hin | Hin]; [|right; now right].
      destruct (mapSet_values _ _ _ _ Hin) as [-> | Hin']; [right; now left | now left].
Qed.

Lemma keyed_ids (r : list (string * Model)) :
  Forall (fun km => id (snd km) = fst km) r -> map id (map snd r) = map fst r.
Proof.
  induction 1 as [|[k m] rest H _ IH]; cbn in *; [reflexivity | now rewrite H, IH].
Qed.

Lemma getAvailableModels_offered (type : ModelType) (s : State) :
  let available := getAvailableModels PROVIDERS type s in
  NoDup (map id available) /\
  (forall m, In m (map id available) <-> offered PROVIDERS type m s) /\
  (forall x, In x available ->
             exists p key c,
               In (p, key) (apiKeys s) /\ valTruthy key = true /\
               entry p PROVIDERS = Some c /\ In x (modelsOf type c)).
Proof.
  intros available. subst available. unfold getAvailableModels.
  set (pushed := flat_map _ (apiKeys s)).
  destruct (dedupe_spec pushed [] (NoDup_nil _) (Forall_nil _)) as (H1 & H2 & H3 & H4).
  cbv zeta in H1, H2, H3, H4.
  assert (Hpushed : forall x, In x pushed <->
            exists p key c,
              In (p, key) (apiKeys s) /\ valTruthy key = true /\
              entry p PROVIDERS = Some c /\ In x (modelsOf type c)).
  { intros x. unfold pushed. rewrite in_flat_map. split.
    - intros ([p key] & Hin & Hx). cbn [fst snd] in Hx.
      destruct (valTruthy key) eqn:Hk; [|elim Hx].
      destruct (entry p PROVIDERS) as [c|] eqn:Hc; [|elim Hx].
      exists p, key, c. auto.
    - intros (p & key & c & Hin & Hk & Hc & Hx).
      exists (p, key). split; [exact Hin|]. cbn [fst snd]. now rewrite Hk, Hc. }
  rewrite (keyed_ids _ H2). split; [exact H1|]. split.
  - intros m. rewrite H3. cbn [map In]. unfold offered, lists. split.
    + intros [[] | Hin]. apply in_map_iff in Hin. destruct Hin as (x & Hid & Hx).
      apply Hpushed in Hx. destruct Hx as (p & key & c & ? & ? & ? & ?).
      exists p, key, c. repeat split; auto. now exists x.
    + intros (p & key & c & Hin & Hk & Hc & x & Hx & Hid). right.
      apply in_map_iff. exists x. split; [exact Hid|].
      apply Hpushed. now exists p, key, c.
  - intros x Hx. apply Hpushed.
    destruct (H4 x Hx) as [[] | Hin]. exact Hin.
Qed.

(** The models [getAvailableModels] answers have distinct ids; an id is
    among them exactly when a provider with a key that is not empty
    lists a model with that id for the type; and each model answered is
    taken from such a provider's list. *)
Theorem getAvailableModels_distinct_and_complete (type : ModelType) (s : State) :
  let available := getAvailableModels PROVIDERS type s in
  NoDup (map id available) /\
  (forall m, In m (map id available) <-> offered PROVIDERS type m s) /\
  (forall x, In x available ->
             exists p key c,
               In (p, key) (apiKeys s) /\ valTruthy key = true /\
               entry p PROVIDERS = Some c /\ In x (modelsOf type c)).
Proof.
  exact (getAvailableModels_offered type s).
Qed.

(** *** _autoSelectAvailableModels *)

Lemma entry_NoDup p c (ps : list (string * ProviderConfig)) :
  NoDup (map fst ps) -> In (p, c) ps -> entry p ps = Some c.
Proof.
  induction ps as [|[q d] rest IH]; cbn; intros Hnd Hin; [elim Hin|].
  inversion Hnd as [|? ? Hnotin Hrest]; subst.
  destruct Hin as [[= -> ->] | Hin].
  - now rewrite String.eqb_refl.
  - destruct (String.eqb_spec q p) as [->|Hne]; [|now apply IH].
    elim Hnotin. apply in_map_iff. now exists (p, c).
Qed.

Lemma lookup_In k v (o : list (string * JsVal)) : lookup k o = Some v -> In (k, v) o.
Proof.
  induction o as [|[k0 v0] rest IH]; cbn; [discriminate|].
  destruct (String.eqb_spec k0 k) as [->|Hne].
  - intros [= ->]. now left.
  - intros H. right. now apply IH.
Qed.

Lemma getApiKey_In p k s : getApiKey p s = Some k -> exists key, In (p, key) (apiKeys s) /\ valTruthy key = true.
Proof.
  unfold getApiKey, get, orNull.
  destruct (lookup p (apiKeys s)) as [[ | |x]|] eqn:E; try discriminate.
  destruct (truthy x) eqn:T; [|discriminate].
  intros _. exists (Str x). split; [now apply lookup_In | exact T].
Qed.

(** The value a round leaves selected. *)
Lemma autoSelect_normal type s :
  autoSelect PROVIDERS type s
  = setSelectedModels
      (setSelected type
         (if isCurrentModelValid PROVIDERS type s
          then selected type (selectedModels s)
          else match getAvailableModels PROVIDERS type s with
               | first :: _ => Some (id first)
               | [] => None
               end)
         (selectedModels s)) s.
Proof.
  unfold autoSelect. destruct (isCurrentModelValid PROVIDERS type s).
  - destruct s as [keys u [l t]]. now destruct type.
  - now destruct (getAvailableModels PROVIDERS type s).
Qed.

Lemma isCurrentModelValid_frame type s s' :
  apiKeys s' = apiKeys s ->
  selected type (selectedModels s') = selected type (selectedModels s) ->
  isCurrentModelValid PROVIDERS type s' = isCurrentModelValid PROVIDERS type s.
Proof.
  intros Hk Hs. unfold isCurrentModelValid, getApiKey. now rewrite Hk, Hs.
Qed.

Lemma getAvailableModels_frame type s s' :
  apiKeys s' = apiKeys s ->
  getAvailableModels PROVIDERS type s' = getAvailableModels PROVIDERS type s.
Proof. intros Hk. unfold getAvailableModels. now rewrite Hk. Qed.

Lemma autoSelect_frame type s :
  apiKeys (autoSelect PROVIDERS type s) = apiKeys s /\
  urls (autoSelect PROVIDERS type s) = urls s /\
  forall type', type' <> type ->
    selected type' (selectedModels (autoSelect PROVIDERS type s))
    = selected type' (selectedModels s).
Proof.
  rewrite autoSelect_normal. repeat split.
  intros type' Hne. destruct type, type'; try reflexivity; now elim Hne.
Qed.

Lemma autoSelect_selected type s :
  selected type (selectedModels (autoSelect PROVIDERS type s))
  = if isCurrentModelValid PROVIDERS type s
    then selected type (selectedModels s)
    else match getAvailableModels PROVIDERS type s with
         | first :: _ => Some (id first)
         | [] => None
         end.
Proof. rewrite autoSelect_normal. now destruct type. Qed.

Lemma autoSelect_idempotent type s :
  autoSelect PROVIDERS type (autoSelect PROVIDERS type s) = autoSelect PROVIDERS type s.
Proof.
  destruct (isCurrentModelValid PROVIDERS type s) eqn:V.
  - assert (E : autoSelect PROVIDERS type s = s).
    { unfold autoSelect. now rewrite V. }
    now rewrite !E.
  - destruct (autoSelect_frame type s) as (K & _ & _).
    rewrite (autoSelect_normal type (autoSelect PROVIDERS type s)).
    rewrite (getAvailableModels_frame type s _ K), autoSelect_selected, V.
    set (v := match getAvailableModels PROVIDERS type s with
              | first :: _ => Some (id first) | [] => None end).
    destruct (isCurrentModelValid PROVIDERS type (autoSelect PROVIDERS type s));
      rewrite (autoSelect_normal type s), V; fold v; destruct type; reflexivity.
Qed.

Lemma autoSelect_commute s :
  autoSelect PROVIDERS Llm (autoSelect PROVIDERS Stt s)
  = autoSelect PROVIDERS Stt (autoSelect PROVIDERS Llm s).
Proof.
  destruct (autoSelect_frame Stt s) as (K1 & U1 & S1).
  destruct (autoSelect_frame Llm s) as (K2 & U2 & S2).
  rewrite (autoSelect_normal Llm (autoSelect PROVIDERS Stt s)).
  rewrite (autoSelect_normal Stt (autoSelect PROVIDERS Llm s)).
  rewrite (isCurrentModelValid_frame Llm s _ K1 (S1 Llm ltac:(discriminate))).
  rewrite (isCurrentModelValid_frame Stt s _ K2 (S2 Stt ltac:(discriminate))).
  rewrite (getAvailableModels_frame Llm s _ K1), (getAvailableModels_frame Stt s _ K2).
  rewrite (S1 Llm ltac:(discriminate)), (S2 Stt ltac:(discriminate)).
  rewrite (autoSelect_normal Stt s), (autoSelect_normal Llm s).
  reflexivity.
Qed.

Lemma autoSelect_valid (s : State) :
  NoDup (map fst PROVIDERS) ->
  let s' := _autoSelectAvailableModels PROVIDERS s in
  apiKeys s' = apiKeys s /\
  urls s' = urls s /\
  _autoSelectAvailableModels PROVIDERS s' = s' /\
  forall type,
    (isCurrentModelValid PROVIDERS type s = true ->
     selected type (selectedModels s') = selected type (selectedModels s)) /\
    match selected type (selectedModels s') with
    | Some m => offered PROVIDERS type m s'
    | None => forall m, ~ offered PROVIDERS type m s'
    end.
Proof.
  intros Hnd s'. subst s'. unfold _autoSelectAvailableModels.
  destruct (autoSelect_frame Llm s) as (K1 & U1 & S1).
  destruct (autoSelect_frame Stt (autoSelect PROVIDERS Llm s)) as (K2 & U2 & S2).
  split; [now rewrite K2, K1|]. split; [now rewrite U2, U1|]. split.
  - rewrite (autoSelect_commute (autoSelect PROVIDERS Llm s)).
    now rewrite !autoSelect_idempotent.
  - assert (Hround : forall type x,
              let y := autoSelect PROVIDERS type x in
              (isCurrentModelValid PROVIDERS type x = true ->
               selected type (selectedModels y) = selected type (selectedModels x)) /\
              match selected type (selectedModels y) with
              | Some m => offered PROVIDERS type m x
              | None => forall m, ~ offered PROVIDERS type m x
              end).
    { intros type x y. subst y. rewrite autoSelect_selected.
      destruct (isCurrentModelValid PROVIDERS type x) eqn:V.
      - split; [reflexivity|].
        unfold isCurrentModelValid in V.
        destruct (selected type (selectedModels x)) as [m|]; [|discriminate].
        cbn [idTruthy] in V. destruct (truthy m) eqn:T; [|discriminate].
        destruct (getProviderForModel PROVIDERS type (Some m)) as [p|] eqn:E;
          [|discriminate].
        destruct (getApiKey p x) as [k|] eqn:G; [|discriminate].
        apply (proj1 (getProviderForModel_first type m)) in E.
        destruct E as (_ & before & c & after & HP & Hl & _).
        destruct (getApiKey_In p k x G) as (key & Hin & Hkey).
        exists p, key, c. repeat split; auto.
        apply entry_NoDup; [exact Hnd|]. rewrite HP. apply in_elt.
      - split; [discriminate|].
        destruct (getAvailableModels_offered type x) as (_ & Hiff & _).
        cbv zeta in Hiff.
        destruct (getAvailableModels PROVIDERS type x) as [|first rest].
        + intros m Hm. apply Hiff in Hm. elim Hm.
        + apply Hiff. now left. }
    assert (Hoff : forall type m x y, apiKeys y = apiKeys x ->
                     (offered PROVIDERS type m y <-> offered PROVIDERS type m x)).
    { intros type m x y Hk. unfold offered. now rewrite Hk. }
    intros [|].
    + destruct (Hround Llm s) as (R1 & R2). cbv zeta in R1, R2.
      rewrite (S2 Llm ltac:(discriminate)). split; [exact R1|].
      destruct (selected Llm (selectedModels (autoSelect PROVIDERS Llm s))) as [m|].
      * apply (Hoff Llm m s); [now rewrite K2, K1 | exact R2].
      * intros m Hm. apply (R2 m). apply (Hoff Llm m s) in Hm; [exact Hm|].
        now rewrite K2, K1.
    + destruct (Hround Stt (autoSelect PROVIDERS Llm s)) as (R1 & R2).
      cbv zeta in R1, R2. split.
      * intros V. rewrite R1.
        -- apply (S1 Stt). discriminate.
        -- rewrite (isCurrentModelValid_frame Stt s _ K1 (S1 Stt ltac:(discriminate))).
           exact V.
      * destruct (selected Stt (selectedModels
                                  (autoSelect PROVIDERS Stt (autoSelect PROVIDERS Llm s))))
          as [m|].
        -- apply (Hoff Stt m (autoSelect PROVIDERS Llm s)); [exact K2 | exact R2].
        -- intros m Hm. apply (R2 m).
           apply (Hoff Stt m (autoSelect PROVIDERS Llm s)) in Hm; [exact Hm | exact K2].
Qed.

(** After [_autoSelectAvailableModels], with [PROVIDERS] an object (its
    keys are distinct): keys and URLs are as before; a selection that
    was valid (its first owner has a key that is not empty) is kept;
    whatever is selected for a type is a model that some provider with
    a key lists, and nothing is selected only when no such model
    exists; and running it again changes nothing. *)
Theorem autoSelect_postcondition (s : State) :
  NoDup (map fst PROVIDERS) ->
  let s' := _autoSelectAvailableModels PROVIDERS s in
  apiKeys s' = apiKeys s /\
  urls s' = urls s /\
  _autoSelectAvailableModels PROVIDERS s' = s' /\
  forall type,
    (isCurrentModelValid PROVIDERS type s = true ->
     selected type (selectedModels s') = selected type (selectedModels s)) /\
    match selected type (selectedModels s') with
    | Some m => offered PROVIDERS type m s'
    | None => forall m, ~ offered PROVIDERS type m s'
    end.
Proof.
  exact (autoSelect_valid s).
Qed.

(** *** setFirebaseVirtualKey, getAllApiKeys *)

Lemma lookup_withoutGlass_other k (o : list (string * JsVal)) :
  k <> "openai-glass" -> lookup k (withoutGlass o) = lookup k o.
Proof.
  intros Hne. unfold withoutGlass.
  induction o as [|[k' v] rest IH]; [reflexivity|].
  cbn [filter fst]. destruct (String.eqb k' "openai-glass") eqn:E; cbn [negb lookup].
  - apply String.eqb_eq in E. subst k'.
    destruct (String.eqb "openai-glass" k) eqn:E'; [|exact IH].
    apply String.eqb_eq in E'. now elim Hne.
  - now rewrite IH.
Qed.

Lemma lookup_withoutGlass (o : list (string * JsVal)) :
  lookup "openai-glass" (withoutGlass o) = None.
Proof.
  unfold withoutGlass. induction o as [|[k' v] rest IH]; [reflexivity|].
  cbn [filter fst]. destruct (String.eqb k' "openai-glass") eqn:E; cbn [negb lookup].
  - exact IH.
  - now rewrite E.
Qed.

(** [setFirebaseVirtualKey] stores the virtual key under [openai-glass]
    whether or not [apiKeys] had such an entry: [getApiKey] then answers
    it ([null] when it is empty), the keys of the other providers are
    as before, and the state is saved.  [getAllApiKeys] still never
    shows it: its answer has no [openai-glass] entry and is what
    [apiKeys] held before for every other provider. *)
Theorem setFirebaseVirtualKey_sets_and_hides (virtualKey : JsVal) (svc : Service) :
  let out := setFirebaseVirtualKey PROVIDERS userId virtualKey svc in
  getApiKey "openai-glass" (state out) = orNull virtualKey /\
  (forall other, other <> "openai-glass" ->
                 getApiKey other (state out) = getApiKey other (state svc)) /\
  has "openai-glass" (getAllApiKeys (state out)) = false /\
  (forall other, other <> "openai-glass" ->
                 get other (getAllApiKeys (state out)) = get other (apiKeys (state svc))) /\
  storeGet userId (store out) = Some (stringify (state out)).
Proof.
  intros out. subst out. unfold setFirebaseVirtualKey.
  cbn [_saveState setState state store].
  set (s1 := writeKey "openai-glass" virtualKey (state svc)).
  set (s2 := selectFirstIfNone PROVIDERS Llm "openai-glass" s1).
  set (s3 := selectFirstIfNone PROVIDERS Stt "openai-glass" s2).
  assert (Hk : apiKeys (_autoSelectAvailableModels PROVIDERS s3)
               = assign "openai-glass" virtualKey (apiKeys (state svc))).
  { unfold _autoSelectAvailableModels.
    rewrite (proj1 (autoSelect_frame Stt _)), (proj1 (autoSelect_frame Llm _)).
    subst s3 s2.
    now rewrite !(proj1 (selectFirstIfNone_keys _ _ _)). }
  split; [|split; [|split; [|split]]].
  - unfold getApiKey. now rewrite Hk, get_assign_same.
  - intros other Hne. unfold getApiKey. now rewrite Hk, get_assign_other.
  - unfold has, hasOwn, getAllApiKeys. now rewrite lookup_withoutGlass.
  - intros other Hne. unfold getAllApiKeys, get.
    rewrite Hk, (lookup_withoutGlass_other _ _ Hne).
    now rewrite lookup_assign_other.
  - apply storeGet_storeSet.
Qed.

(** *** areProvidersConfigured *)

Lemma hasKey_offered type s :
  existsb (fun kv =>
             valTruthy (snd kv) &&
             match entry (fst kv) PROVIDERS with
             | Some c => (0 <? List.length (modelsOf type c))%nat
             | None => false
             end) (apiKeys s) = true <->
  exists m, offered PROVIDERS type m s.
Proof.
  rewrite existsb_exists. split.
  - intros ([p key] & Hin & H). cbn [fst snd] in H.
    apply andb_true_iff in H. destruct H as [Hkey H].
    destruct (entry p PROVIDERS) as [c|] eqn:E; [|discriminate].
    destruct (modelsOf type c) as [|x rest] eqn:M; [discriminate|].
    exists (id x), p, key, c. repeat split; auto.
    exists x. split; [|reflexivity]. rewrite M. now left.
  - intros (m & p & key & c & Hin & Hkey & E & x & Hx & _).
    exists (p, key). split; [exact Hin|]. cbn [fst snd]. rewrite Hkey, E.
    destruct (modelsOf type c); [elim Hx | reflexivity].
Qed.

(** Without a key under a built-in name, [some] is a plain search. *)
Lemma someKeyFor_safe type (entries : list (string * JsVal)) :
  (forall p key, In (p, key) entries -> valTruthy key = true ->
                 inherited p = true -> entry p PROVIDERS <> None) ->
  someKeyFor PROVIDERS type entries
  = Ok (existsb (fun kv =>
                   valTruthy (snd kv) &&
                   match entry (fst kv) PROVIDERS with
                   | Some c => (0 <? List.length (modelsOf type c))%nat
                   | None => false
                   end) entries).
Proof.
  induction entries as [|[p key] rest IH]; intros Hsafe; [reflexivity|].
  cbn [someKeyFor existsb fst snd].
  assert (Hrest : someKeyFor PROVIDERS type rest = Ok (existsb _ rest))
    by (apply IH; intros q k Hin; apply Hsafe; now right).
  destruct (valTruthy key) eqn:Hk; cbn [andb orb]; [|exact Hrest].
  destruct (entry p PROVIDERS) as [c|] eqn:E.
  - destruct (0 <? List.length (modelsOf type c))%nat; [reflexivity | exact Hrest].
  - destruct (inherited p) eqn:I; [|exact Hrest].
    elim (Hsafe p key (or_introl eq_refl) Hk I E).
Qed.

(** When [some] answers true, the search has found a key. *)
Lemma someKeyFor_true type (entries : list (string * JsVal)) :
  someKeyFor PROVIDERS type entries = Ok true ->
  existsb (fun kv =>
             valTruthy (snd kv) &&
             match entry (fst kv) PROVIDERS with
             | Some c => (0 <? List.length (modelsOf type c))%nat
             | None => false
             end) entries = true.
Proof.
  induction entries as [|[p key] rest IH]; [discriminate|].
  cbn [someKeyFor existsb fst snd].
  destruct (valTruthy key); cbn [andb orb]; [|exact IH].
  destruct (entry p PROVIDERS) as [c|].
  - destruct (0 <? List.length (modelsOf type c))%nat; [reflexivity | exact IH].
  - destruct (inherited p); [discriminate | exact IH].
Qed.

(** A user who is logged in always counts as configured.  For one who
    is not, with [PROVIDERS] an object (its keys are distinct): when
    [areProvidersConfigured] answers true, [_autoSelectAvailableModels]
    leaves a model selected for both types; and when no key that is not
    empty stands under a name that [PROVIDERS] only inherits from
    [Object.prototype], it answers true exactly then.  Such a key, as
    the first entry of [apiKeys], makes it throw a [TypeError]. *)
Theorem areProvidersConfigured_iff_selectable (s : State) :
  NoDup (map fst PROVIDERS) ->
  let s' := _autoSelectAvailableModels PROVIDERS s in
  let bothSelected :=
    selected Llm (selectedModels s') <> None /\
    selected Stt (selectedModels s') <> None in
  areProvidersConfigured PROVIDERS true s = Ok true /\
  (areProvidersConfigured PROVIDERS false s = Ok true -> bothSelected) /\
  ((forall p key, In (p, key) (apiKeys s) -> valTruthy key = true ->
                  inherited p = true -> entry p PROVIDERS <> None) ->
   (areProvidersConfigured PROVIDERS false s = Ok true <-> bothSelected)) /\
  (forall p key rest,
      apiKeys s = (p, key) :: rest -> valTruthy key = true ->
      inherited p = true -> entry p PROVIDERS = None ->
      areProvidersConfigured PROVIDERS false s = Throw TypeError).
Proof.
  intros Hnd s' bothSelected. split; [reflexivity|].
  destruct (autoSelect_valid s Hnd) as (K & _ & _ & Hsel). fold s' in K, Hsel.
  assert (Hoff : forall type,
            (exists m, offered PROVIDERS type m s) <->
            selected type (selectedModels s') <> None).
  { intros type. destruct (Hsel type) as (_ & H).
    destruct (selected type (selectedModels s')) as [m|].
    - split; [discriminate|]. intros _. exists m.
      unfold offered in *. now rewrite <- K.
    - split; [|intros C; now elim C].
      intros (m & Hm). elim (H m). unfold offered in *. now rewrite K. }
  assert (Hfwd : areProvidersConfigured PROVIDERS false s = Ok true -> bothSelected).
  { unfold areProvidersConfigured.
    destruct (someKeyFor PROVIDERS Llm (apiKeys s)) as [[|]|] eqn:L; cbn [bind];
      try discriminate;
      destruct (someKeyFor PROVIDERS Stt (apiKeys s)) as [[|]|] eqn:T; cbn [bind andb];
      try discriminate.
    intros _. split; apply Hoff, hasKey_offered, someKeyFor_true; assumption. }
  split; [exact Hfwd|]. split.
  - intros Hsafe. split; [exact Hfwd|].
    intros [HL HT]. unfold areProvidersConfigured.
    rewrite !(someKeyFor_safe _ _ Hsafe). cbn [bind].
    apply Hoff, hasKey_offered in HL. apply Hoff, hasKey_offered in HT.
    now rewrite HL, HT.
  - intros p key rest Hkeys Hk Hi He. unfold areProvidersConfigured.
    rewrite Hkeys. cbn [someKeyFor]. now rewrite Hk, He, Hi.
Qed.

(** *** removeApiKey *)

Lemma deselectIfOf_frame type provider s :
  apiKeys (deselectIfOf PROVIDERS type provider s) = apiKeys s /\
  urls (deselectIfOf PROVIDERS type provider s) = urls s.
Proof.
  unfold deselectIfOf. destruct (getProviderForModel _ _ _) as [p|]; [|now split].
  destruct (String.eqb p provider); now split.
Qed.

(** [removeApiKey] tests [provider in this.state.apiKeys].  On a name
    that [apiKeys] neither owns nor inherits it returns false and
    changes nothing.  On a name that [apiKeys] has, own or inherited
    from [Object.prototype], and that is not [__proto__], it returns
    true; afterwards [getApiKey] answers [null] for it and what it
    answered before for every other provider; whatever is then selected
    for a type is a model that a provider with a key lists, and nothing
    is selected only when there is no such model; and the new state has
    been saved. *)
Theorem removeApiKey_clears (provider : string) (svc : Service) :
  NoDup (map fst PROVIDERS) ->
  let out := removeApiKey PROVIDERS userId provider svc in
  (has provider (apiKeys (state svc)) = false -> out = (svc, false)) /\
  (has provider (apiKeys (state svc)) = true -> provider <> "__proto__" ->
   snd out = true /\
   getApiKey provider (state (fst out)) = None /\
   (forall other, other <> provider ->
                  getApiKey other (state (fst out)) = getApiKey other (state svc)) /\
   (forall type,
       match selected type (selectedModels (state (fst out))) with
       | Some m => offered PROVIDERS type m (state (fst out))
       | None => forall m, ~ offered PROVIDERS type m (state (fst out))
       end) /\
   storeGet userId (store (fst out)) = Some (stringify (state (fst out)))).
Proof.
  intros Hnd out. subst out. unfold removeApiKey. split.
  - intros H. now rewrite H.
  - intros H _. rewrite H. cbn [fst snd _saveState setState state store].
    set (s1 := writeKey provider Null (state svc)).
    set (s2 := deselectIfOf PROVIDERS Llm provider s1).
    set (s3 := deselectIfOf PROVIDERS Stt provider s2).
    destruct (autoSelect_valid s3 Hnd) as (K & _ & _ & Hsel).
    cbv zeta in K, Hsel.
    assert (Hk : apiKeys (_autoSelectAvailableModels PROVIDERS s3)
                 = assign provider Null (apiKeys (state svc))).
    { rewrite K. subst s3 s2. now rewrite !(proj1 (deselectIfOf_frame _ _ _)). }
    split; [reflexivity|]. split; [|split; [|split]].
    + unfold getApiKey. now rewrite Hk, get_assign_same.
    + intros other Hne. unfold getApiKey. now rewrite Hk, get_assign_other.
    + intros type. apply (Hsel type).
    + apply storeGet_storeSet.
Qed.

(** *** setSelectedModel and getCurrentModelInfo *)

(** [setSelectedModel] returns true exactly when the id has a first
    owner whose entry in [apiKeys] is a key that is not empty; when it
    returns false nothing changes.  When it returns true the id is
    selected for the type, the other selection and the keys are as
    before, the state has been saved, and [getCurrentModelInfo] then
    answers that owner, the id, the owner's URL and the owner's key,
    or throws when [apiUrls] is [undefined]. *)
Theorem setSelectedModel_then_info
    (type : ModelType) (modelId : option string) (svc : Service) :
  let out := setSelectedModel PROVIDERS userId type modelId svc in
  (snd out = true <->
   exists p, getProviderForModel PROVIDERS type modelId = Some p /\
             valTruthy (get p (apiKeys (state svc))) = true) /\
  (snd out = false -> fst out = svc) /\
  (snd out = true ->
   exists m p k,
     modelId = Some m /\
     getProviderForModel PROVIDERS type (Some m) = Some p /\
     getApiKey p (state svc) = Some k /\
     selected type (selectedModels (state (fst out))) = Some m /\
     (forall type', type' <> type ->
                    selected type' (selectedModels (state (fst out)))
                    = selected type' (selectedModels (state svc))) /\
     apiKeys (state (fst out)) = apiKeys (state svc) /\
     storeGet userId (store (fst out)) = Some (stringify (state (fst out))) /\
     getCurrentModelInfo PROVIDERS type (state (fst out))
     = match apiUrls (state svc) with
       | Some o => Ok (Some {| provider := p; model := m;
                               apiUrl := orNull (get p o); apiKey := Some k |})
       | None => Throw TypeError
       end).
Proof.
  intros out. subst out. unfold setSelectedModel.
  destruct (getProviderForModel PROVIDERS type modelId) as [p|] eqn:E.
  2:{ cbn. split; [|split]; try discriminate; auto.
      split; [discriminate | now intros (p & [=] & _)]. }
  destruct (valTruthy (get p (apiKeys (state svc)))) eqn:V.
  2:{ cbn. split; [|split]; try discriminate; auto.
      split; [discriminate|]. intros (q & [= <-] & Hq). congruence. }
  cbn [fst snd _saveState setState state store].
  split; [|split]; try discriminate.
  - split; [|reflexivity]. intros _. now exists p.
  - intros _.
    destruct modelId as [m|]; [|discriminate].
    assert (T : truthy m = true).
    { unfold getProviderForModel in E. cbn [idTruthy] in E.
      destruct (truthy m); [reflexivity | discriminate]. }
    assert (G : exists k, getApiKey p (state svc) = Some k).
    { unfold getApiKey. destruct (get p (apiKeys (state svc))) as [ | |k];
        try discriminate. cbn in V |- *. rewrite V. now exists k. }
    destruct G as (k & G).
    exists m, p, k. split; [reflexivity|]. split; [exact E|]. split; [exact G|].
    split; [now destruct type|]. split.
    { intros type' Hne. destruct type, type'; try reflexivity; now elim Hne. }
    split; [reflexivity|]. split; [apply storeGet_storeSet|].
    unfold getCurrentModelInfo.
    replace (selected type (selectedModels
               (setSelectedModels
                  (setSelected type (Some m) (selectedModels (state svc))) (state svc))))
      with (Some m) by now destruct type.
    rewrite T. cbn [negb]. rewrite E. unfold getApiUrl, apiUrls.
    cbn [urls setSelectedModels apiKeys].
    unfold getApiKey in G |- *. cbn [apiKeys setSelectedModels]. rewrite G.
    destruct (urls (state svc)); reflexivity.
Qed.

(** *** The default state *)

Lemma has_initialApiKeys ks :
  forall acc p,
    has p (fold_left (fun acc key => assign key Null acc) ks acc)
    = existsb (String.eqb p) ks || has p acc.
Proof.
  induction ks as [|k ks IH]; intros acc p; cbn [fold_left existsb]; [reflexivity|].
  rewrite IH, has_assign.
  destruct (String.eqb p k), (existsb (String.eqb p) ks), (has p acc); reflexivity.
Qed.

Lemma existsb_eqb_In p ks : In p ks -> existsb (String.eqb p) ks = true.
Proof.
  intros H. apply existsb_exists. exists p. split; [exact H | apply String.eqb_refl].
Qed.

(** Filling is idle on a state in which [apiUrls] is [apiKeys] and every
    provider has its entry. *)
Lemma fillProviders_shared ps s :
  urls s = SameAsKeys ->
  (forall p, In p ps -> has p (apiKeys s) = true) ->
  fillProviders ps s = (s, Ok tt).
Proof.
  intros Hu. induction ps as [|p ps IH]; intros Hall; [reflexivity|].
  cbn [fillProviders]. rewrite (Hall p (or_introl eq_refl)). cbn [negb].
  unfold apiUrls. rewrite Hu, (Hall p (or_introl eq_refl)). cbn [negb].
  apply IH. intros q Hq. apply Hall. now right.
Qed.

Lemma _autoSelectAvailableModels_frame s :
  apiKeys (_autoSelectAvailableModels PROVIDERS s) = apiKeys s /\
  urls (_autoSelectAvailableModels PROVIDERS s) = urls s.
Proof.
  unfold _autoSelectAvailableModels.
  destruct (autoSelect_frame Stt (autoSelect PROVIDERS Llm s)) as (K2 & U2 & _).
  destruct (autoSelect_frame Llm s) as (K1 & U1 & _).
  split; congruence.
Qed.

(** A user for whom nothing is stored starts from the default state, in
    which [apiUrls] and [apiKeys] are one object.  So storing a URL for
    a provider makes it the provider's key as well, and storing a key
    afterwards, as a successful validation does, replaces the URL:
    [getApiUrl] then answers the key.  Both copies are what is saved. *)
Theorem default_state_shares_urls_and_keys
    (provider : string) (url key : JsVal) (svc : Service) :
  storeGet userId (store svc) = None ->
  In provider (map fst PROVIDERS) ->
  let started := _loadStateForCurrentUser PROVIDERS userId svc in
  let withUrl := setApiUrl userId provider url (fst started) in
  let withKey := setApiKey PROVIDERS userId provider key (fst withUrl) in
  snd started = Ok tt /\
  urls (state (fst started)) = SameAsKeys /\
  snd withUrl = Ok true /\
  getApiUrl provider (state (fst withUrl)) = Ok (orNull url) /\
  getApiKey provider (state (fst withUrl)) = orNull url /\
  snd withKey = true /\
  getApiKey provider (state (fst withKey)) = orNull key /\
  getApiUrl provider (state (fst withKey)) = Ok (orNull key) /\
  exists saved,
    storeGet userId (store (fst withKey)) = Some saved /\
    storedUrls saved = Some (storedKeys saved).
Proof.
  intros Hstore Hin started withUrl withKey.
  assert (Hhas0 : forall p, In p (map fst PROVIDERS) ->
                            has p (apiKeys (defaultState PROVIDERS)) = true).
  { intros p Hp. cbn [defaultState apiKeys]. unfold initialApiKeys.
    now rewrite has_initialApiKeys, (existsb_eqb_In p _ Hp). }
  assert (Hstart : started
                   = (_saveState userId
                        (setState (_autoSelectAvailableModels PROVIDERS
                                     (defaultState PROVIDERS)) svc), Ok tt)).
  { subst started. unfold _loadStateForCurrentUser. rewrite Hstore.
    now rewrite (fillProviders_shared _ (defaultState PROVIDERS) eq_refl Hhas0). }
  set (s0 := _autoSelectAvailableModels PROVIDERS (defaultState PROVIDERS)) in *.
  destruct (_autoSelectAvailableModels_frame (defaultState PROVIDERS)) as (K0 & U0).
  fold s0 in K0, U0.
  assert (H0 : has provider (apiKeys s0) = true) by (rewrite K0; now apply Hhas0).
  assert (U0' : urls s0 = SameAsKeys) by exact U0.
  assert (Hurl : withUrl
                 = (_saveState userId
                      (setState (writeKey provider url s0) (fst started)), Ok true)).
  { subst withUrl. rewrite Hstart. unfold setApiUrl, apiUrls, writeUrl.
    cbn [fst state _saveState setState]. now rewrite U0', H0. }
  set (s1 := writeKey provider url s0) in *.
  assert (H1 : has provider (apiKeys s1) = true)
    by (subst s1; cbn [writeKey apiKeys]; now rewrite has_assign, String.eqb_refl).
  set (s2 := selectFirstIfNone PROVIDERS Stt provider
               (selectFirstIfNone PROVIDERS Llm provider (writeKey provider key s1))).
  assert (Hkey : withKey
                 = (_saveState userId (setState s2 (fst withUrl)), true)).
  { subst withKey. rewrite Hurl. unfold setApiKey.
    cbn [fst state _saveState setState]. now rewrite H1. }
  assert (K2 : apiKeys s2 = assign provider key (apiKeys s1)).
  { subst s2. now rewrite !(proj1 (selectFirstIfNone_keys _ _ _)). }
  assert (U2 : urls s2 = SameAsKeys).
  { subst s2. rewrite !(proj2 (selectFirstIfNone_keys _ _ _)). exact U0'. }
  rewrite Hstart, Hurl, Hkey. cbn [fst snd state _saveState setState store].
  split; [reflexivity|]. split; [exact U0'|]. split; [reflexivity|].
  split.
  { unfold getApiUrl, apiUrls. subst s1. cbn [writeKey urls apiKeys].
    now rewrite U0', get_assign_same. }
  split.
  { unfold getApiKey. subst s1. cbn [writeKey apiKeys]. now rewrite get_assign_same. }
  split; [reflexivity|]. split.
  { unfold getApiKey. now rewrite K2, get_assign_same. }
  split.
  { unfold getApiUrl, apiUrls. now rewrite U2, K2, get_assign_same. }
  rewrite storeGet_storeSet. eexists. split; [reflexivity|].
  cbn [stringify storedUrls storedKeys]. unfold apiUrls. now rewrite U2.
Qed.

(** *** validateApiKey *)

Lemma setApiUrl_throw provider url svc svc' e :
  setApiUrl userId provider url svc = (svc', Throw e) -> svc' = svc.
Proof.
  unfold setApiUrl, writeUrl, apiUrls.
  destruct (urls (state svc)) as [|o|]; cbn.
  - destruct (has provider (apiKeys (state svc))); intros [= <-]; discriminate || auto.
  - destruct (has provider o); intros [=].
  - now intros [= <-].
Qed.

Lemma storeValidated_throw provider key url svc svc' e :
  storeValidated PROVIDERS userId provider key url svc = (svc', Throw e) -> svc' = svc.
Proof.
  unfold storeValidated.
  destruct (setApiUrl userId provider url svc) as [svc1 [b|e1]] eqn:E.
  - discriminate.
  - intros [= <- <-]. exact (setApiUrl_throw _ _ _ _ _ E).
Qed.

(** The three closing parts of the statement below, for a call that
    left the service alone and did not succeed. *)
Ltac refused :=
  cbn [fst snd];
  split; [intros; reflexivity|];
  split; [intros; reflexivity|];
  let v := fresh "v" in
  let E := fresh "E" in
  let S := fresh "S" in
  intros v E S;
  first [ discriminate E | injection E as <-; discriminate S ].

(** The same for a call that stored the key. *)
Ltac stored E r :=
  cbn [fst snd];
  split; [discriminate|];
  split; [let v := fresh "v" in intros v [= <-]; discriminate|];
  let v := fresh "v" in
  intros v [= <-] _;
  split; [reflexivity|];
  split; [cbn; auto 6|];
  split; [exists r; auto|];
  unfold storeValidated in E;
  match type of E with
  | context [setApiUrl ?u ?p ?url ?svc] =>
      destruct (setApiUrl u p url svc) as [? [?|?]]; [|discriminate];
      now injection E as <-
  end.

(** [validateApiKey] changes the service only when it resolves with
    success.  It refuses an empty key for every provider but gaia, and
    an empty URL for gaia, before anything else.  It resolves with
    success only for openai, gaia, gemini and anthropic, only when the
    request resolved, and only when the response was [ok] or, for
    anthropic, had status 400; the state is then the one that
    [setApiUrl] followed by [setApiKey] leaves. *)
Theorem validateApiKey_stores_only_on_success
    (provider : string) (key url : JsVal) (net : Fetched) (svc : Service) :
  let out := validateApiKey PROVIDERS userId provider key url net svc in
  (isEmpty key = true -> provider <> "gaia" ->
   out = (svc, Ok (failure "API key cannot be empty."))) /\
  (isEmpty url = true -> provider = "gaia" ->
   out = (svc, Ok (failure "API url cannot be empty."))) /\
  (forall e, snd out = Throw e -> fst out = svc) /\
  (forall v, snd out = Ok v -> success v = false -> fst out = svc) /\
  (forall v, snd out = Ok v -> success v = true ->
             error v = None /\
             In provider ["openai"; "gaia"; "gemini"; "anthropic"] /\
             (exists r, net = Resolved r /\
                        (ok r = true \/ (provider = "anthropic" /\ status r = 400%Z))) /\
             fst out = fst (setApiKey PROVIDERS userId provider key
                              (fst (setApiUrl userId provider url svc)))).
Proof.
  intros out. subst out. unfold validateApiKey.
  destruct (String.eqb_spec provider "gaia") as [Hg|Hg]; cbn [negb].
  - (* gaia *)
    rewrite andb_false_r, andb_true_r. subst provider.
    change (String.eqb "gaia" "openai") with false. cbn [orb].
    split; [now intros _ H|].
    destruct (isEmpty url) eqn:Hu; [split; [reflexivity | refused]|].
    split; [discriminate|].
    destruct net as [reason|r]; [refused|].
    destruct (ok r) eqn:Hok; [|refused].
    destruct (storeValidated PROVIDERS userId "gaia" key url svc) as [svc1 [u|e]] eqn:E.
    + stored E r.
    + pose proof (storeValidated_throw _ _ _ _ _ _ E) as ->. refused.
  - (* another provider *)
    rewrite andb_true_r, andb_false_r.
    destruct (isEmpty key) eqn:Hk.
    { split; [reflexivity|]. split; [intros _ H; now elim Hg | refused]. }
    split; [discriminate|]. split; [intros _ H; now elim Hg|].
    destruct (String.eqb_spec provider "openai") as [Ho|Ho];
      [|destruct (String.eqb_spec provider "gemini") as [Hm|Hm]]; cbn [orb].
    1,2: subst provider;
      (destruct net as [reason|r]; [refused|]);
      (destruct (ok r) eqn:Hok; [|refused]);
      match goal with
      | |- context [storeValidated ?P ?u ?p ?k ?l ?s] =>
          destruct (storeValidated P u p k l s) as [svc1 [x|e]] eqn:E
      end;
      [ stored E r
      | pose proof (storeValidated_throw _ _ _ _ _ _ E) as ->; refused ].
    destruct (String.eqb_spec provider "anthropic") as [Ha|Ha]; [|refused].
    subst provider.
    destruct (negb (prefix "sk-ant-" (render key))); [refused|].
    destruct net as [reason|r]; [refused|].
    destruct (negb (ok r) && negb (status r =? 400)%Z) eqn:Hst; [refused|].
    destruct (storeValidated PROVIDERS userId "anthropic" key url svc)
      as [svc1 [u|e]] eqn:E.
    + cbn [fst snd].
      split; [discriminate|]. split; [intros v [= <-]; discriminate|].
      intros v [= <-] _. split; [reflexivity|]. split; [cbn; auto 6|]. split.
      * exists r. split; [reflexivity|].
        destruct (ok r); [now left|]. right. split; [reflexivity|].
        cbn in Hst. apply negb_false_iff in Hst. now apply Z.eqb_eq.
      * unfold storeValidated in E.
        destruct (setApiUrl userId "anthropic" url svc) as [svc2 [b|e2]]; [|discriminate].
        now injection E as <-.
    + pose proof (storeValidated_throw _ _ _ _ _ _ E) as ->. refused.
Qed.

(** *** The handler of [model:remove-api-key] *)

Lemma orNull_get_null provider (o : list (string * JsVal)) :
  orNull (get provider (if has provider o then assign provider Null o else o)) = None.
Proof.
  unfold get. destruct (has provider o) eqn:H.
  - now rewrite lookup_assign_same.
  - now rewrite (has_false_lookup _ _ H).
Qed.

(** The handler of [model:remove-api-key] never returns: it throws a
    [TypeError] when [apiUrls] is [undefined], before anything is
    removed, and otherwise removes the provider's URL and key and then
    throws a [ReferenceError], since it ends with [return success] and
    no [success] is in scope.  In that case the provider has neither
    key nor URL afterwards. *)
Theorem removeApiKeyHandler_always_throws (provider : string) (svc : Service) :
  let out := removeApiKeyHandler PROVIDERS userId provider svc in
  (forall v, snd out <> Returns v) /\
  (snd out = ThrowsTypeError <-> urls (state svc) = Missing) /\
  (snd out = ThrowsTypeError -> fst (fst out) = svc) /\
  (snd out = ThrowsReferenceError "success" ->
   getApiKey provider (state (fst (fst out))) = None /\
   getApiUrl provider (state (fst (fst out))) = Ok None).
Proof.
  intros out. subst out. unfold removeApiKeyHandler, removeApiUrl, apiUrls, writeUrl.
  destruct (urls (state svc)) as [|o|] eqn:U.
  - (* one object *)
    set (keys := apiKeys (state svc)).
    assert (Hafter : forall svc1 : Service,
               urls (state svc1) = SameAsKeys ->
               apiKeys (state svc1) = (if has provider keys
                                       then assign provider Null keys else keys) ->
               let out := removeApiKey PROVIDERS userId provider svc1 in
               getApiKey provider (state (fst out)) = None /\
               getApiUrl provider (state (fst out)) = Ok None).
    { intros svc1 U1 K1 out. subst out. unfold removeApiKey.
      assert (Hh : has provider (apiKeys (state svc1)) = has provider keys).
      { rewrite K1. destruct (has provider keys) eqn:H; [|exact H].
        now rewrite has_assign, String.eqb_refl. }
      rewrite Hh. destruct (has provider keys) eqn:H.
      - cbn [fst _saveState setState state].
        destruct (_autoSelectAvailableModels_frame
                    (deselectIfOf PROVIDERS Stt provider
                       (deselectIfOf PROVIDERS Llm provider
                          (writeKey provider Null (state svc1))))) as (K & Uu).
        rewrite !(proj1 (deselectIfOf_frame _ _ _)) in K.
        rewrite !(proj2 (deselectIfOf_frame _ _ _)) in Uu.
        cbn [writeKey apiKeys urls] in K, Uu.
        unfold getApiKey, getApiUrl, apiUrls. rewrite K, Uu, U1.
        now rewrite get_assign_same.
      - cbn [fst]. unfold getApiKey, getApiUrl, apiUrls. rewrite U1, K1.
        unfold get. rewrite (has_false_lookup _ _ H).
        split; reflexivity. }
    fold keys. destruct (has provider keys) eqn:H.
    + cbn [fst snd].
      split; [discriminate|]. split; [split; discriminate|]. split; [discriminate|].
      intros _. apply Hafter.
      * cbn [state _saveState setState].
        rewrite (proj2 (_autoSelectAvailableModels_frame _)). exact U.
      * cbn [state _saveState setState].
        now rewrite (proj1 (_autoSelectAvailableModels_frame _)).
    + cbn [fst snd].
      split; [discriminate|]. split; [split; discriminate|]. split; [discriminate|].
      intros _. apply Hafter; [exact U | reflexivity].
  - (* an object of its own *)
    assert (Hafter : forall svc1 : Service,
               urls (state svc1) = Own (if has provider o
                                        then assign provider Null o else o) ->
               let out := removeApiKey PROVIDERS userId provider svc1 in
               getApiKey provider (state (fst out)) = None /\
               getApiUrl provider (state (fst out)) = Ok None).
    { intros svc1 U1 out. subst out. unfold removeApiKey.
      destruct (has provider (apiKeys (state svc1))) eqn:H.
      - cbn [fst _saveState setState state].
        destruct (_autoSelectAvailableModels_frame
                    (deselectIfOf PROVIDERS Stt provider
                       (deselectIfOf PROVIDERS Llm provider
                          (writeKey provider Null (state svc1))))) as (K & Uu).
        rewrite !(proj1 (deselectIfOf_frame _ _ _)) in K.
        rewrite !(proj2 (deselectIfOf_frame _ _ _)) in Uu.
        cbn [writeKey apiKeys urls] in K, Uu.
        unfold getApiKey, getApiUrl, apiUrls. rewrite K, Uu, U1.
        rewrite get_assign_same. split; [reflexivity|].
        now rewrite orNull_get_null.
      - cbn [fst]. unfold getApiKey, getApiUrl, apiUrls. rewrite U1.
        rewrite orNull_get_null. split; [|reflexivity].
        unfold get. now rewrite (has_false_lookup _ _ H). }
    destruct (has provider o) eqn:H.
    + cbn [fst snd].
      split; [discriminate|]. split; [split; discriminate|]. split; [discriminate|].
      intros _. apply Hafter. cbn [state _saveState setState].
      now rewrite (proj2 (_autoSelectAvailableModels_frame _)).
    + cbn [fst snd].
      split; [discriminate|]. split; [split; discriminate|]. split; [discriminate|].
      intros _. apply Hafter. exact U.
  - cbn. split; [discriminate|]. split; [now split|]. split; [reflexivity | discriminate].
Qed.

End Keys.

Section Persistence.

Import JsString JsText ModelState.
Local Open Scope string_scope.

Variable PROVIDERS : list (string * ProviderConfig).
Variable userId : string.

Lemma stringified_defined (o : list (string * JsVal)) : defined o -> stringified o = o.
Proof.
  unfold stringified. induction 1 as [|[k v] rest Hv _ IH]; cbn; [reflexivity|].
  cbn in Hv. destruct v; [now elim Hv | now rewrite IH | now rewrite IH].
Qed.

Lemma assign_defined k v (o : list (string * JsVal)) :
  v <> Undefined -> defined o -> defined (assign k v o).
Proof.
  intros Hv. unfold defined. induction 1 as [|[k0 v0] rest H0 Hrest IH]; cbn.
  - repeat constructor. exact Hv.
  - destruct (String.eqb k0 k); constructor; auto.
Qed.

Lemma writeKey_apiUrls_has p q v s o :
  apiUrls s = Some o -> has q o = true ->
  exists o', apiUrls (writeKey p v s) = Some o' /\ has q o' = true.
Proof.
  unfold apiUrls. cbn [writeKey urls apiKeys].
  destruct (urls s) as [|u|]; intros [= <-] H.
  - eexists. split; [reflexivity|]. rewrite has_assign, H. apply orb_true_r.
  - eexists. split; [reflexivity | exact H].
Qed.

(** What the loop leaves when [apiUrls] is an object: every provider
    has its entries, nothing else has changed, and nothing [undefined]
    has been stored. *)
Lemma fillProviders_fills ps :
  forall s,
    urls s <> Missing ->
    exists s',
      fillProviders ps s = (s', Ok tt) /\
      filledFor ps s' /\
      selectedModels s' = selectedModels s /\
      (forall q, has q (apiKeys s) = true -> has q (apiKeys s') = true) /\
      (forall q o, apiUrls s = Some o -> has q o = true ->
                   exists o', apiUrls s' = Some o' /\ has q o' = true) /\
      (defined (apiKeys s) -> defined (apiKeys s')) /\
      (forall o, apiUrls s = Some o -> defined o ->
                 exists o', apiUrls s' = Some o' /\ defined o') /\
      urls s' <> Missing.
Proof.
  induction ps as [|p ps IH]; intros s Hu.
  - exists s. split; [reflexivity|]. split; [intros p []|].
    repeat split; eauto.
  - cbn [fillProviders].
    set (s1 := if negb (has p (apiKeys s)) then writeKey p Null s else s).
    assert (Hs1 : has p (apiKeys s1) = true /\ urls s1 = urls s /\
                  selectedModels s1 = selectedModels s /\
                  (forall q, has q (apiKeys s) = true -> has q (apiKeys s1) = true) /\
                  (forall q o, apiUrls s = Some o -> has q o = true ->
                               exists o', apiUrls s1 = Some o' /\ has q o' = true) /\
                  (defined (apiKeys s) -> defined (apiKeys s1)) /\
                  (forall o, apiUrls s = Some o -> defined o ->
                             exists o', apiUrls s1 = Some o' /\ defined o')).
    { subst s1. destruct (has p (apiKeys s)) eqn:H; cbn [negb].
      - repeat split; eauto.
      - cbn [writeKey apiKeys urls selectedModels]. split.
        { rewrite has_assign, String.eqb_refl. reflexivity. }
        split; [reflexivity|]. split; [reflexivity|]. split.
        { intros q Hq. rewrite has_assign, Hq. apply orb_true_r. }
        split; [intros q o; apply writeKey_apiUrls_has|]. split.
        { apply assign_defined. discriminate. }
        intros o Ho Hd. unfold apiUrls in *. cbn [writeKey urls apiKeys].
        destruct (urls s) as [|u|];
          [injection Ho as <- | injection Ho as <- | discriminate].
        + eexists. split; [reflexivity|]. apply assign_defined; [discriminate | exact Hd].
        + eexists. split; [reflexivity | exact Hd]. }
    destruct Hs1 as (Hp & U1 & S1 & M1 & MU1 & D1 & DU1).
    assert (Hu1 : urls s1 <> Missing) by now rewrite U1.
    destruct (apiUrls s1) as [o1|] eqn:A1.
    2:{ unfold apiUrls in A1. destruct (urls s1); try discriminate. now elim Hu1. }
    destruct (has p o1) eqn:Hpo; cbn [negb].
    + destruct (IH s1 Hu1) as (s' & E & F & S' & M' & MU' & D' & DU' & U').
      exists s'. split; [exact E|]. split.
      { intros q [<- | Hq]; [|now apply F].
        split; [now apply M'|]. exact (MU' _ _ A1 Hpo). }
      split; [congruence|]. split; [auto|]. split.
      { intros q o Ho Hq. destruct (MU1 q o Ho Hq) as (o' & Ho' & Hq').
        injection Ho' as <-. exact (MU' _ _ A1 Hq'). }
      split; [auto|]. split; [|exact U'].
      intros o Ho Hd. destruct (DU1 o Ho Hd) as (o' & Ho' & Hd').
      injection Ho' as <-. exact (DU' _ A1 Hd').
    + assert (Hw : exists s2, writeUrl p Null s1 = Ok s2 /\
                     selectedModels s2 = selectedModels s1 /\
                     urls s2 <> Missing /\
                     (forall q, has q (apiKeys s1) = true -> has q (apiKeys s2) = true) /\
                     (exists o2, apiUrls s2 = Some o2 /\ has p o2 = true /\
                                 (forall q, has q o1 = true -> has q o2 = true) /\
                                 (defined o1 -> defined o2)) /\
                     (defined (apiKeys s1) -> defined (apiKeys s2))).
      { unfold writeUrl, apiUrls in *. destruct (urls s1) as [|u|] eqn:Us.
        - injection A1 as <-. congruence.
        - injection A1 as <-. eexists. split; [reflexivity|].
          cbn [selectedModels urls apiKeys]. split; [reflexivity|].
          split; [discriminate|]. split; [auto|]. split; [|auto].
          eexists. split; [reflexivity|]. split.
          { rewrite has_assign, String.eqb_refl. reflexivity. }
          split.
          { intros q Hq. rewrite has_assign, Hq. apply orb_true_r. }
          apply assign_defined. discriminate.
        - discriminate. }
      destruct Hw as (s2 & -> & S2 & U2 & M2 & (o2 & A2 & Hp2 & MU2 & DU2) & D2).
      destruct (IH s2 U2) as (s' & E & F & S' & M' & MU' & D' & DU' & U').
      exists s'. split; [exact E|]. split.
      { intros q [<- | Hq]; [|now apply F].
        split; [now apply M', M2|]. exact (MU' _ _ A2 Hp2). }
      split; [congruence|]. split; [auto|]. split.
      { intros q o Ho Hq. destruct (MU1 q o Ho Hq) as (o' & Ho' & Hq').
        injection Ho' as <-.
        exact (MU' _ _ A2 (MU2 _ Hq')). }
      split; [auto|]. split; [|exact U'].
      intros o Ho Hd. destruct (DU1 o Ho Hd) as (o' & Ho' & Hd').
      injection Ho' as <-.
      exact (DU' _ A2 (DU2 Hd')).
Qed.

(** The loop is idle on a state in which every provider has its
    entries. *)
Lemma fillProviders_idle ps s : filledFor ps s -> fillProviders ps s = (s, Ok tt).
Proof.
  induction ps as [|p ps IH]; intros F; [reflexivity|].
  cbn [fillProviders].
  destruct (F p (or_introl eq_refl)) as (Hk & o & Ho & Hp).
  rewrite Hk. cbn [negb]. rewrite Ho, Hp. cbn [negb].
  apply IH. intros q Hq. apply F. now right.
Qed.

Lemma storeSet_storeSet user st t :
  storeSet user st (storeSet user st t) = storeSet user st t.
Proof.
  induction t as [|[u old] rest IH]; cbn.
  - now rewrite String.eqb_refl.
  - destruct (String.eqb u user) eqn:E; cbn; rewrite E; [reflexivity | now rewrite IH].
Qed.

Lemma autoSelect_congruent type s s' :
  apiKeys s' = apiKeys s -> selectedModels s' = selectedModels s ->
  apiKeys (autoSelect PROVIDERS type s') = apiKeys (autoSelect PROVIDERS type s) /\
  selectedModels (autoSelect PROVIDERS type s')
  = selectedModels (autoSelect PROVIDERS type s).
Proof.
  intros K S.
  rewrite (autoSelect_normal PROVIDERS type s'), (autoSelect_normal PROVIDERS type s).
  cbn [apiKeys selectedModels setSelectedModels].
  rewrite (isCurrentModelValid_frame PROVIDERS type s s' K) by now rewrite S.
  rewrite (getAvailableModels_frame PROVIDERS type s s' K), S.
  split; [exact K | reflexivity].
Qed.

Lemma _autoSelectAvailableModels_selected s s' :
  apiKeys s' = apiKeys s -> selectedModels s' = selectedModels s ->
  selectedModels (_autoSelectAvailableModels PROVIDERS s')
  = selectedModels (_autoSelectAvailableModels PROVIDERS s).
Proof.
  intros K S. unfold _autoSelectAvailableModels.
  destruct (autoSelect_congruent Llm s s' K S) as (K1 & S1).
  exact (proj2 (autoSelect_congruent Stt _ _ K1 S1)).
Qed.

(** What was saved is what is loaded.  Start the service for a user
    whose stored state, if there is one, came from JSON and has its
    [apiUrls]; the start succeeds and saves.  A later start from the
    same store, whatever the state in memory, succeeds as well and
    ends with the same keys, the same URLs and the same selected
    models, and leaves the store as it was. *)
Theorem saved_state_loads_back (svc later : Service) :
  (forall st, storeGet userId (store svc) = Some st ->
              defined (storedKeys st) /\
              exists o, storedUrls st = Some o /\ defined o) ->
  let first := _loadStateForCurrentUser PROVIDERS userId svc in
  store later = store (fst first) ->
  let again := _loadStateForCurrentUser PROVIDERS userId later in
  snd first = Ok tt /\
  snd again = Ok tt /\
  apiKeys (state (fst again)) = apiKeys (state (fst first)) /\
  apiUrls (state (fst again)) = apiUrls (state (fst first)) /\
  selectedModels (state (fst again)) = selectedModels (state (fst first)) /\
  store (fst again) = store (fst first).
Proof.
  intros Hstored first Hstore again.
  (* the state the first start loads *)
  set (loaded := match storeGet userId (store svc) with
                 | Some st => parsed st
                 | None => defaultState PROVIDERS
                 end).
  assert (Hl : urls loaded <> Missing /\ defined (apiKeys loaded) /\
               exists o, apiUrls loaded = Some o /\ defined o).
  { subst loaded. destruct (storeGet userId (store svc)) as [st|] eqn:E.
    - destruct (Hstored st eq_refl) as (Dk & o & Ho & Do).
      unfold parsed, apiUrls. cbn [urls apiKeys]. rewrite Ho.
      split; [discriminate|]. split; [exact Dk|]. now exists o.
    - assert (D : defined (initialApiKeys PROVIDERS)).
      { unfold initialApiKeys. generalize (map fst PROVIDERS). intros ks.
        assert (G : forall acc, defined acc ->
                      defined (fold_left (fun acc key => assign key Null acc) ks acc)).
        { induction ks as [|k ks IH]; intros acc Hacc; [exact Hacc|].
          cbn [fold_left]. apply IH, assign_defined; [discriminate | exact Hacc]. }
        apply G. constructor. }
      split; [discriminate|]. split; [exact D|].
      exists (initialApiKeys PROVIDERS). split; [reflexivity | exact D]. }
  destruct Hl as (Ul & Dl & ol & Aol & Dol).
  destruct (fillProviders_fills (map fst PROVIDERS) loaded Ul)
    as (s1 & E1 & F1 & S1 & _ & _ & D1 & DU1 & U1).
  destruct (DU1 ol Aol Dol) as (o1 & A1 & Do1).
  specialize (D1 Dl).
  set (s2 := _autoSelectAvailableModels PROVIDERS s1).
  destruct (_autoSelectAvailableModels_frame PROVIDERS s1) as (K2 & U2).
  fold s2 in K2, U2.
  assert (A2 : apiUrls s2 = Some o1).
  { unfold apiUrls in *. now rewrite U2, K2. }
  assert (Hfirst : first = (_saveState userId (setState s2 svc), Ok tt)).
  { subst first. unfold _loadStateForCurrentUser. fold loaded. now rewrite E1. }
  assert (Hsaved : stringify s2
                   = {| storedUrls := Some o1; storedKeys := apiKeys s1;
                        storedSelected := selectedModels s2 |}).
  { unfold stringify. rewrite A2, K2. cbn [option_map].
    now rewrite (stringified_defined _ Do1), (stringified_defined _ D1). }
  (* the state the later start loads *)
  set (reloaded := parsed (stringify s2)).
  assert (Hget : storeGet userId (store later) = Some (stringify s2)).
  { rewrite Hstore, Hfirst. cbn [fst store _saveState setState].
    apply storeGet_storeSet. }
  assert (Kr : apiKeys reloaded = apiKeys s2).
  { subst reloaded. rewrite Hsaved. cbn [parsed apiKeys storedKeys]. now rewrite K2. }
  assert (Ar : apiUrls reloaded = Some o1).
  { subst reloaded. rewrite Hsaved. reflexivity. }
  assert (Sr : selectedModels reloaded = selectedModels s2).
  { subst reloaded. rewrite Hsaved. reflexivity. }
  assert (Fr : filledFor (map fst PROVIDERS) reloaded).
  { intros p Hp. destruct (F1 p Hp) as (Hk & o & Ho & Hpo).
    rewrite A1 in Ho. injection Ho as <-.
    split; [now rewrite Kr, K2|]. exists o1. split; [exact Ar | exact Hpo]. }
  set (s3 := _autoSelectAvailableModels PROVIDERS reloaded).
  destruct (_autoSelectAvailableModels_frame PROVIDERS reloaded) as (K3 & U3).
  fold s3 in K3, U3.
  assert (S3 : selectedModels s3 = selectedModels s2).
  { subst s3. rewrite (_autoSelectAvailableModels_selected s2 reloaded Kr Sr).
    fold s2.
    assert (Hidem : _autoSelectAvailableModels PROVIDERS s2 = s2).
    { subst s2. unfold _autoSelectAvailableModels.
      rewrite (autoSelect_commute PROVIDERS (autoSelect PROVIDERS Llm s1)).
      now rewrite !autoSelect_idempotent. }
    now rewrite Hidem. }
  assert (A3 : apiUrls s3 = Some o1).
  { unfold apiUrls in *. rewrite U3, K3. exact Ar. }
  assert (Hagain : again = (_saveState userId (setState s3 later), Ok tt)).
  { subst again. unfold _loadStateForCurrentUser. rewrite Hget.
    fold reloaded. now rewrite (fillProviders_idle _ _ Fr). }
  assert (Hsame : stringify s3 = stringify s2).
  { unfold stringify. now rewrite A3, A2, K3, Kr, S3. }
  rewrite Hfirst, Hagain. cbn [fst snd state store _saveState setState].
  split; [reflexivity|]. split; [reflexivity|].
  split; [now rewrite K3, Kr|]. split; [now rewrite A3, A2|].
  split; [exact S3|].
  rewrite Hstore, Hfirst. cbn [fst store _saveState setState].
  rewrite Hsame. apply storeSet_storeSet.
Qed.

(** A stored state without [apiUrls] stops the start.  With at least
    one provider configured, loading such a state throws a TypeError at
    the first provider: nothing is saved, no model is auto-selected and
    [apiUrls] stays undefined. *)
Theorem load_throws_on_missing_urls (svc : Service) (st : Stored) :
  storeGet userId (store svc) = Some st ->
  storedUrls st = None ->
  PROVIDERS <> [] ->
  let out := _loadStateForCurrentUser PROVIDERS userId svc in
  snd out = Throw TypeError /\
  store (fst out) = store svc /\
  selectedModels (state (fst out)) = storedSelected st /\
  apiUrls (state (fst out)) = None.
Proof.
  intros Hget Hurls Hne out. subst out.
  unfold _loadStateForCurrentUser. rewrite Hget.
  destruct PROVIDERS as [|[p c] rest]; [contradiction|].
  cbn [map fst fillProviders].
  set (s := if negb (has p (apiKeys (parsed st))) then writeKey p Null (parsed st)
            else parsed st).
  assert (Hu : urls s = Missing).
  { subst s. destruct (negb _); cbn [writeKey urls parsed]; now rewrite Hurls. }
  assert (Hs : selectedModels s = storedSelected st).
  { subst s. now destruct (negb _). }
  unfold apiUrls, writeUrl. rewrite Hu.
  cbn [fst snd setState state store urls]. rewrite Hu.
  repeat split; assumption || reflexivity.
Qed.

End Persistence.

Section ValidationUrl.

Import JsString JsText ModelState.
Local Open Scope string_scope.

(** The URL at which a gaia key is validated: a final [/v1] or [/v1/]
    of the URL given is dropped before [/v1/models] is appended, so a
    base URL, the base followed by [/v1] and the base followed by
    [/v1/] are all validated at the base followed by [/v1/models]; only
    one such ending is dropped; and whatever the URL, the request goes
    to an address that ends with [/v1/models]. *)
Theorem gaia_validationUrl_normalises (key : JsVal) (base : string) :
  validationUrl "gaia" key (Str (base ++ "/v1")) = Some (base ++ "/v1/models") /\
  validationUrl "gaia" key (Str (base ++ "/v1/")) = Some (base ++ "/v1/models") /\
  (endsWith base "/v1" = false -> endsWith base "/v1/" = false ->
   validationUrl "gaia" key (Str base) = Some (base ++ "/v1/models")) /\
  validationUrl "gaia" key (Str (base ++ "/v1/v1")) = Some (base ++ "/v1/v1/models") /\
  exists address,
    validationUrl "gaia" key (Str base) = Some address /\
    endsWith address "/v1/models" = true.
Proof.
  assert (H1 : forall b, stripV1 (b ++ "/v1") = b).
  { intros b. unfold stripV1.
    assert (E : endsWith (b ++ "/v1") "/v1/" = false).
    { replace (b ++ "/v1") with ((b ++ "/v") ++ "1")
        by (clear; induction b; cbn; [reflexivity | now f_equal]).
      exact (endsWith_last (b ++ "/v") "1" "/v1" "/" ltac:(discriminate)). }
    rewrite E, (endsWith_app b "/v1").
    exact (dropEnd_app b "/v1"). }
  assert (H2 : forall b, stripV1 (b ++ "/v1/") = b).
  { intros b. unfold stripV1. rewrite (endsWith_app b "/v1/").
    exact (dropEnd_app b "/v1/"). }
  unfold validationUrl.
  change (String.eqb "gaia" "openai") with false.
  change (String.eqb "gaia" "gaia") with true. cbv iota.
  split; [now rewrite H1|]. split; [now rewrite H2|]. split.
  - intros E1 E2. unfold stripV1. now rewrite E2, E1.
  - split.
    + replace (base ++ "/v1/v1") with ((base ++ "/v1") ++ "/v1")
        by (clear; induction base; cbn; [reflexivity | now f_equal]).
      rewrite H1. f_equal.
      clear. induction base; cbn; [reflexivity | now f_equal].
    + eexists. split; [reflexivity|]. apply endsWith_app.
Qed.

End ValidationUrl.

Section ModelStateAtSamples.

Import JsString JsText ModelState ModelSamples.
Local Open Scope string_scope.

Lemma sampleProviders_distinct : NoDup (map fst sampleProviders).
Proof.
  repeat constructor; cbn; intuition discriminate.
Qed.

(** The theorem at a state whose LLM selection has lost its key. *)
Lemma autoSelect_postcondition_witness :
  let s := {| apiKeys := [("openai", Null); ("gaia", Str "gk"); ("openai-glass", Null)];
              urls := SameAsKeys;
              selectedModels := {| llm := Some "gpt-4.1"; stt := Some "whisper" |} |} in
  let s' := _autoSelectAvailableModels sampleProviders s in
  NoDup (map fst sampleProviders) /\
  selectedModels s' = {| llm := Some "gaia-chat"; stt := Some "whisper" |} /\
  apiKeys s' = apiKeys s /\
  urls s' = urls s /\
  _autoSelectAvailableModels sampleProviders s' = s' /\
  forall type,
    (isCurrentModelValid sampleProviders type s = true ->
     selected type (selectedModels s') = selected type (selectedModels s)) /\
    match selected type (selectedModels s') with
    | Some m => offered sampleProviders type m s'
    | None => forall m, ~ offered sampleProviders type m s'
    end.
Proof.
  split; [exact sampleProviders_distinct|]. split; [reflexivity|].
  exact (autoSelect_postcondition sampleProviders
           {| apiKeys := [("openai", Null); ("gaia", Str "gk"); ("openai-glass", Null)];
              urls := SameAsKeys;
              selectedModels := {| llm := Some "gpt-4.1"; stt := Some "whisper" |} |}
           sampleProviders_distinct).
Defined.

(** The theorem at a state with a gaia key only. *)
Lemma areProvidersConfigured_iff_selectable_witness :
  let s := {| apiKeys := [("openai", Null); ("gaia", Str "gk"); ("openai-glass", Null)];
              urls := SameAsKeys;
              selectedModels := {| llm := None; stt := None |} |} in
  let s' := _autoSelectAvailableModels sampleProviders s in
  let bothSelected :=
    selected Llm (selectedModels s') <> None /\
    selected Stt (selectedModels s') <> None in
  NoDup (map fst sampleProviders) /\
  selectedModels s' = {| llm := Some "gaia-chat"; stt := Some "whisper" |} /\
  areProvidersConfigured sampleProviders false s = Ok true /\
  areProvidersConfigured sampleProviders true s = Ok true /\
  (areProvidersConfigured sampleProviders false s = Ok true -> bothSelected) /\
  ((forall p key, In (p, key) (apiKeys s) -> valTruthy key = true ->
                  inherited p = true -> entry p sampleProviders <> None) ->
   (areProvidersConfigured sampleProviders false s = Ok true <-> bothSelected)) /\
  (forall p key rest,
      apiKeys s = (p, key) :: rest -> valTruthy key = true ->
      inherited p = true -> entry p sampleProviders = None ->
      areProvidersConfigured sampleProviders false s = Throw TypeError).
Proof.
  split; [exact sampleProviders_distinct|]. split; [reflexivity|].
  split; [reflexivity|].
  exact (areProvidersConfigured_iff_selectable sampleProviders
           {| apiKeys := [("openai", Null); ("gaia", Str "gk"); ("openai-glass", Null)];
              urls := SameAsKeys;
              selectedModels := {| llm := None; stt := None |} |}
           sampleProviders_distinct).
Defined.

(** The theorem at the removal of the openai key. *)
Lemma removeApiKey_clears_witness :
  let out := removeApiKey sampleProviders "alice" "openai" keyedService in
  NoDup (map fst sampleProviders) /\
  has "openai" (apiKeys (state keyedService)) = true /\
  "openai" <> "__proto__" /\
  selectedModels (state (fst out)) = {| llm := Some "gaia-chat"; stt := Some "whisper" |} /\
  snd out = true /\
  getApiKey "openai" (state (fst out)) = None /\
  (forall other, other <> "openai" ->
                 getApiKey other (state (fst out)) = getApiKey other (state keyedService)) /\
  (forall type,
      match selected type (selectedModels (state (fst out))) with
      | Some m => offered sampleProviders type m (state (fst out))
      | None => forall m, ~ offered sampleProviders type m (state (fst out))
      end) /\
  storeGet "alice" (store (fst out)) = Some (stringify (state (fst out))).
Proof.
  split; [exact sampleProviders_distinct|]. split; [reflexivity|].
  split; [discriminate|]. split; [reflexivity|].
  exact (proj2 (removeApiKey_clears sampleProviders "alice" "openai" keyedService
                  sampleProviders_distinct) eq_refl ltac:(discriminate)).
Defined.

(** The theorem at a name that [apiKeys] only inherits. *)
Lemma setApiKey_round_trip_witness :
  let out := setApiKey sampleProviders "alice" "toString" (Str "k") keyedService in
  hasOwn "toString" (apiKeys (state keyedService)) = false /\
  has "toString" (apiKeys (state keyedService)) = true /\
  "toString" <> "__proto__" /\
  snd out = true /\
  getApiKey "toString" (state (fst out)) = Some "k" /\
  (forall other, other <> "toString" ->
                 getApiKey other (state (fst out)) = getApiKey other (state keyedService)) /\
  (forall type, idTruthy (selected type (selectedModels (state keyedService))) = true ->
                selected type (selectedModels (state (fst out)))
                = selected type (selectedModels (state keyedService))) /\
  storeGet "alice" (store (fst out)) = Some (stringify (state (fst out))).
Proof.
  split; [reflexivity|]. split; [reflexivity|]. split; [discriminate|].
  exact (proj2 (setApiKey_round_trip sampleProviders "alice" "toString" (Str "k")
                  keyedService) eq_refl ltac:(discriminate)).
Defined.

(** The theorem at the first start of a user, followed by what a
    successful validation of a gaia key does. *)
Lemma default_state_shares_urls_and_keys_witness :
  let started := _loadStateForCurrentUser sampleProviders "alice" emptyService in
  let withUrl := setApiUrl "alice" "gaia" (Str "http://gaia.local") (fst started) in
  let withKey := setApiKey sampleProviders "alice" "gaia" (Str "gk") (fst withUrl) in
  storeGet "alice" (store emptyService) = None /\
  In "gaia" (map fst sampleProviders) /\
  snd started = Ok tt /\
  urls (state (fst started)) = SameAsKeys /\
  snd withUrl = Ok true /\
  getApiUrl "gaia" (state (fst withUrl)) = Ok (Some "http://gaia.local") /\
  getApiKey "gaia" (state (fst withUrl)) = Some "http://gaia.local" /\
  snd withKey = true /\
  getApiKey "gaia" (state (fst withKey)) = Some "gk" /\
  getApiUrl "gaia" (state (fst withKey)) = Ok (Some "gk") /\
  exists saved,
    storeGet "alice" (store (fst withKey)) = Some saved /\
    storedUrls saved = Some (storedKeys saved).
Proof.
  split; [reflexivity|]. split; [cbn; auto|].
  exact (default_state_shares_urls_and_keys sampleProviders "alice" "gaia"
           (Str "http://gaia.local") (Str "gk") emptyService
           eq_refl ltac:(cbn; auto)).
Defined.

(** The theorem at a store that holds a state with keys, read by a
    second start. *)
Lemma saved_state_loads_back_witness :
  let first := _loadStateForCurrentUser sampleProviders "alice" storedService in
  let again := _loadStateForCurrentUser sampleProviders "alice" (fst first) in
  (forall st, storeGet "alice" (store storedService) = Some st ->
              defined (storedKeys st) /\
              exists o, storedUrls st = Some o /\ defined o) /\
  snd first = Ok tt /\
  snd again = Ok tt /\
  apiKeys (state (fst again)) = apiKeys keyedState /\
  apiUrls (state (fst again)) = apiUrls keyedState /\
  selectedModels (state (fst again)) = selectedModels keyedState /\
  store (fst again) = [("alice", stringify keyedState)].
Proof.
  assert (H : forall st, storeGet "alice" (store storedService) = Some st ->
                defined (storedKeys st) /\
                exists o, storedUrls st = Some o /\ defined o).
  { intros st E. injection E as <-. split.
    - repeat constructor; discriminate.
    - eexists. split; [reflexivity|]. repeat constructor; discriminate. }
  split; [exact H|].
  exact (saved_state_loads_back sampleProviders "alice" storedService
           (fst (_loadStateForCurrentUser sampleProviders "alice" storedService))
           H eq_refl).
Defined.

(** The theorem at a stored state written before [apiUrls] existed. *)
Lemma load_throws_on_missing_urls_witness :
  let out := _loadStateForCurrentUser sampleProviders "alice" legacyService in
  sampleProviders <> [] /\
  snd out = Throw TypeError /\
  store (fst out) = store legacyService /\
  selectedModels (state (fst out)) = {| llm := Some "gpt-4.1"; stt := None |} /\
  apiUrls (state (fst out)) = None.
Proof.
  split; [discriminate|].
  exact (load_throws_on_missing_urls sampleProviders "alice" legacyService _
           eq_refl eq_refl ltac:(discriminate)).
Defined.

End ModelStateAtSamples.
